(** * Waygen: flight metrics and camera footprint (src/utils/geospatial.js)

    A shallow embedding of the numeric core of [geospatial.js]
    ([calculateFootprint], [calculateDistance], [calculateMaxSpeed],
    [calculateMissionTime], [getFlightWarningLevel]); of
    [calculateMissionDistance] and [formatTime] of [MissionMetrics.jsx]; of
    the call site of [calculateMaxSpeed] and the warning dialog in
    [useMissionGeneration.js]; and of [processFile], the drone selector and
    the footprint size estimate of [SidebarMain.jsx].

    JavaScript numbers are IEEE-754 binary64 values; they are embedded as
    Rocq's primitive [float]s, whose operations are the same binary64
    operations (specified by [SpecFloat]).  NaN, the infinities, the signed
    zeros, rounding and overflow are therefore the program's own.  An
    argument or property that can be [undefined] is an [option].

    What the repository does not contain is a parameter: the host's
    [Math.tan], [Math.atan], [Math.sin], [Math.cos], [Math.atan2] and turf's
    [distance], [point], [destination] and [polygon] (class [Host]), the
    host's conversion of a number to a string, the constants and the preset
    table of [dronePresets.js], [generateUUID], and what [parseImport] and
    the mission store answer.  [calculateFootprint] catches nothing, so an
    exception of turf leaves it: its result is an [outcome].

    The file has four parts: the program; the lemmas on binary64 (order,
    signs, monotonicity of rounding); the statements the specification
    makes about the program; and further properties of the program, each
    with the binary64 lemmas it needs. *)

From Stdlib Require Import ZArith List Bool Lia Floats String Reals Lra Psatz.
From stdpp Require Import base gmap strings pretty.
Import ListNotations.

Local Open Scope float_scope.
Set Warnings "-inexact-float".

(** ** JavaScript number primitives *)

Module JS.

(** [ToBoolean] on a number: [+0], [-0] and [NaN] are falsy. *)
Definition truthy (x : float) : bool := negb (is_nan x || is_zero x).

(** [!x] for a number. *)
Definition not (x : float) : bool := negb (truthy x).

(** [ToBoolean] and [!] on a possibly absent ([undefined]/[null]) value. *)
Definition truthy_opt {A} (t : A -> bool) (v : option A) : bool :=
  match v with Some a => t a | None => false end.

Definition is_neg_zero (x : float) : bool := is_zero x && get_sign x.
Definition is_pos_zero (x : float) : bool := is_zero x && negb (get_sign x).

(** [Math.max(a, b)]: NaN if either is NaN; [+0] is larger than [-0]. *)
Definition Math_max (a b : float) : float :=
  if is_nan a || is_nan b then nan
  else if a <? b then b
  else if b <? a then a
  else if is_neg_zero a then b else a.

(** One step of [Math.min]'s loop (ECMA-262, 21.3.2.25): [lowest] is the
    running minimum, [-0] is smaller than [+0]. *)
Definition min_step (lowest number : float) : float :=
  if is_neg_zero number && is_pos_zero lowest then number
  else if number <? lowest then number
  else lowest.

Fixpoint min_from (lowest : float) (l : list float) : float :=
  match l with
  | [] => lowest
  | x :: r => if is_nan x then nan else min_from (min_step lowest x) r
  end.

(** [Math.min(...l)]: [+Infinity] on no argument, NaN if any is NaN. *)
Definition Math_min (l : list float) : float := min_from infinity l.

(** [Math.round(x)]: the integer closest to [x], ties towards [+Infinity];
    the sign of a zero result is the sign of [x]. *)
Definition Math_round (x : float) : float :=
  match Prim2SF x with
  | S754_finite s m e =>
      if (0 <=? e)%Z then x
      else
        let k := Z.opp e in
        let n := ((cond_Zopp s (Zpos m) + 2 ^ (k - 1)) / 2 ^ k)%Z in
        if (n =? 0)%Z then (if s then neg_zero else zero)
        else SF2Prim (binary_normalize prec emax n 0 false)
  | _ => x
  end.

Definition PI : float := 3.141592653589793.

End JS.

(** ** Exceptions

    What a call does: it returns a value, or an exception leaves it. *)

Inductive outcome (A : Type) : Type :=
| Returns (v : A)
| Throws.

Arguments Returns {A} v.
Arguments Throws {A}.

#[global] Instance outcome_ret : MRet outcome := @Returns.

#[global] Instance outcome_bind : MBind outcome :=
  fun A B k o => match o with Returns v => k v | Throws => Throws end.

(** ** The host: [Math]'s implementation-approximated functions and turf

    ECMA-262 leaves the values of [Math.tan], [Math.atan], [Math.sin],
    [Math.cos] and [Math.atan2] to the implementation; turf is library code
    outside the repository.  The program is embedded over an arbitrary
    host.

    turf's [point], [destination] and [polygon] check what they are given
    and throw an [Error] on what they reject; [calculateFootprint] calls
    them outside any [try], so they are given with their exceptions.
    [turf_distance] is the number that the distance expression of
    [calculateDistance] evaluates to: what is stated of distances is stated
    of the calls in which that expression has a value. *)

Definition coord : Type := float * float.

(** The [properties] that [calculateFootprint] hands to [turf.polygon]. *)
Record footprint_properties := FootprintProperties {
  fp_altitude : float;
  fp_heading : float;
  fp_hfov : float;
  fp_pitch : float
}.

(** A GeoJSON polygon feature of one ring. *)
Record footprint := Footprint {
  ring : list coord;
  properties : footprint_properties
}.

Class Host := {
  Math_tan : float -> float;
  Math_atan : float -> float;
  Math_sin : float -> float;
  Math_cos : float -> float;
  Math_atan2 : float -> float -> float;
  (** [turf.distance(turf.point(a), turf.point(b), {units: 'meters'})] *)
  turf_distance : coord -> coord -> float;
  (** [turf.point([lng, lat])] *)
  turf_point : coord -> outcome coord;
  (** [turf.destination(origin, km, bearing, {units: 'kilometers'})], read
      at [.geometry.coordinates] *)
  turf_destination : coord -> float -> float -> outcome coord;
  (** [turf.polygon([ring], properties)] *)
  turf_polygon : list coord -> footprint_properties -> outcome footprint
}.

(** The values ECMA-262 fixes exactly: [tan(+0) = +0], [atan(+0) = +0],
    [sin(+0) = +0], [cos(+0) = 1]. *)
Definition ecma_exact (h : Host) : Prop :=
  Math_tan 0 = 0 /\ Math_atan 0 = 0 /\ Math_sin 0 = 0 /\ Math_cos 0 = 1.

(** ** Constants of [dronePresets.js] *)

(** Modelled from the spec: [dronePresets.js] is not among the sources; the
    repository's docs/CODE_QUALITY.md records [FLIGHT_WARNING_THRESHOLD =
    0.85] (the spec's 85%). *)
Definition FLIGHT_WARNING_THRESHOLD : float := 0.85.

(** ** geospatial.js *)

Record waypoint := Waypoint { lng : float; lat : float }.

Record speed_result := SpeedResult { maxSpeed : float; minDistance : float }.

Inductive warning_level := safe | warning | critical.

Record camera_point := CameraPoint { cx : float; cy : float; cz : float }.

Section Geospatial.

Context {host : Host}.

(** The constant [TAKEOFF_LANDING_OVERHEAD] imported from
    [dronePresets.js], which is not among the sources. *)
Variable TAKEOFF_LANDING_OVERHEAD : float.

(** Steps 3 and 4 of the loop body of [calculateFootprint]: the ground
    distance and the camera-relative angle of one frame corner. *)
Definition corner_ground (altitude pitchRad : float) (p : camera_point)
  : float * float :=
  let MAX_RENDER_DIST := altitude * 10 in
  let rx := cx p in
  let ry := cz p * Math_cos pitchRad - cy p * Math_sin pitchRad in
  let rz := cz p * Math_sin pitchRad + cy p * Math_cos pitchRad in
  if (-0.001) <=? rz then
    let horizontalMag := PrimFloat.sqrt (rx * rx + ry * ry) in
    let t := MAX_RENDER_DIST / horizontalMag in
    let dx := t * rx in
    let dy := t * ry in
    (PrimFloat.sqrt (dx * dx + dy * dy), Math_atan2 dx dy * (180 / JS.PI))
  else
    let t := (- altitude) / rz in
    let dx := t * rx in
    let dy := t * ry in
    let dist := PrimFloat.sqrt (dx * dx + dy * dy) in
    ((if MAX_RENDER_DIST <? dist then MAX_RENDER_DIST else dist),
     Math_atan2 dx dy * (180 / JS.PI)).

Definition cornersCam (hfov : float) : list camera_point :=
  let aspectRatio := 4 / 3 in
  let hfovRad := (hfov * JS.PI) / 180 in
  let vfovRad := 2 * Math_atan (Math_tan (hfovRad / 2) / aspectRatio) in
  let halfH := Math_tan (hfovRad / 2) in
  let halfV := Math_tan (vfovRad / 2) in
  [ CameraPoint halfH halfV 1;
    CameraPoint halfH (- halfV) 1;
    CameraPoint (- halfH) (- halfV) 1;
    CameraPoint (- halfH) halfV 1 ].

(** The [(dist, angle)] pairs of the four corners, in the order of the
    loop of [calculateFootprint]. *)
Definition corner_grounds (altitude hfov gimbalPitch : float)
  : list (float * float) :=
  let pitchRad := (gimbalPitch * JS.PI) / 180 in
  map (corner_ground altitude pitchRad) (cornersCam hfov).

(** Step 5 of the loop body, for the corners in order: the heading is
    added to the angle and [turf.destination] projects the corner; an
    exception of [turf.destination] ends the loop. *)
Fixpoint corner_coords (centerPt : coord) (heading : float)
    (grounds : list (float * float)) : outcome (list coord) :=
  match grounds with
  | [] => Returns []
  | (dist, angle) :: rest =>
      let finalBearing := heading + angle in
      dest ← turf_destination centerPt (dist / 1000) finalBearing;
      coords ← corner_coords centerPt heading rest;
      Returns (dest :: coords)
  end.

(** [calculateFootprint(center, altitude, heading, hfov, gimbalPitch)].
    For [center], [altitude] and [hfov], [None] is an absent argument,
    [undefined] or [null], which the guard treats alike.  For [gimbalPitch],
    [None] is an omitted argument ([undefined]), which takes the default
    [-90]; a [null] there is not replaced by the default and is not among
    the arguments of this definition.  The result [Returns None] is
    [null]. *)
Definition calculateFootprint (center : option waypoint)
    (altitude : option float) (heading : float) (hfov : option float)
    (gimbalPitch : option float) : outcome (option footprint) :=
  match center, altitude, hfov with
  | Some center, Some altitude, Some hfov =>
      if JS.not altitude || JS.not hfov then Returns None
      else
        let gimbalPitch := default (-90) gimbalPitch in
        centerPt ← turf_point (lng center, lat center);
        coords ← corner_coords centerPt heading
                   (corner_grounds altitude hfov gimbalPitch);
        polygon ← turf_polygon (coords ++ [hd (0, 0) coords])
                    (FootprintProperties altitude heading hfov gimbalPitch);
        Returns (Some polygon)
  | _, _, _ => Returns None
  end.

Definition calculateDistance (wp1 wp2 : waypoint) : float :=
  turf_distance (lng wp1, lat wp1) (lng wp2, lat wp2).

(** The [distances] array built by the loop of [calculateMaxSpeed]:
    one entry per consecutive pair. *)
Fixpoint leg_distances (waypoints : list waypoint) : list float :=
  match waypoints with
  | a :: ((b :: _) as rest) => calculateDistance a b :: leg_distances rest
  | _ => []
  end.

(** [calculateMaxSpeed(waypoints, photoInterval)]. *)
Definition calculateMaxSpeed (waypoints : option (list waypoint))
    (photoInterval : option float) : speed_result :=
  match waypoints, photoInterval with
  | Some waypoints, Some photoInterval =>
      if (length waypoints <? 2)%nat || JS.not photoInterval
         || (photoInterval <=? 0)
      then SpeedResult 0 0
      else
        let minDistance := JS.Math_min (leg_distances waypoints) in
        let maxSpeed := minDistance / photoInterval in
        SpeedResult (JS.Math_max 0 maxSpeed) minDistance
  | _, _ => SpeedResult 0 0
  end.

(** [calculateMissionTime(totalDistance, speed)]. *)
Definition calculateMissionTime (totalDistance speed : float) : float :=
  if JS.not speed || (speed <=? 0) then TAKEOFF_LANDING_OVERHEAD
  else
    let transitTime := totalDistance / speed in
    let missionTime := transitTime + TAKEOFF_LANDING_OVERHEAD in
    JS.Math_round missionTime.

(** [getFlightWarningLevel(missionTimeSeconds, maxFlightTimeMinutes)]. *)
Definition getFlightWarningLevel (missionTimeSeconds maxFlightTimeMinutes : float)
  : warning_level :=
  if JS.not maxFlightTimeMinutes || (maxFlightTimeMinutes <=? 0) then safe
  else
    let maxFlightTimeSeconds := maxFlightTimeMinutes * 60 in
    let warningThreshold := maxFlightTimeSeconds * FLIGHT_WARNING_THRESHOLD in
    if maxFlightTimeSeconds <=? missionTimeSeconds then critical
    else if warningThreshold <=? missionTimeSeconds then warning
    else safe.

End Geospatial.

(** ** useMissionGeneration.js: the call site of [calculateMaxSpeed] *)

(** A JavaScript object whose properties are numbers: [o !! "k"] reads the
    property [k], [None] is [undefined]. *)
Definition object : Type := gmap string float.

(** A JavaScript value as [calculateMaxSpeed] and its call site see them. *)
Inductive jsval :=
| JUndefined
| JNumber (x : float)
| JWaypoints (l : list waypoint).

Definition of_number (v : option float) : jsval :=
  match v with Some x => JNumber x | None => JUndefined end.

Definition to_number (v : jsval) : option float :=
  match v with JNumber x => Some x | _ => None end.

Definition to_waypoints (v : jsval) : option (list waypoint) :=
  match v with JWaypoints l => Some l | _ => None end.

(** The [i]-th argument of a call, [undefined] when the call has fewer. *)
Definition argument (args : list jsval) (i : nat) : jsval :=
  default JUndefined (args !! i).

Section MissionGeneration.

Context {host : Host}.

(** A call [calculateMaxSpeed(...args)]: the arrow function declares the two
    parameters [(waypoints, photoInterval)], which bind the first two
    arguments; it has no rest parameter and, being an arrow function, no
    [arguments] object, so nothing in its body reads a further argument. *)
Definition calculateMaxSpeed_call (args : list jsval) : speed_result :=
  let waypoints := argument args 0 in
  let photoInterval := argument args 1 in
  calculateMaxSpeed (to_waypoints waypoints) (to_number photoInterval).

(** Step 2 of [handleGenerate]: the six-argument call
    [calculateMaxSpeed(initialPath, photoInterval, currentSettings.altitude,
    effectiveFOV, currentSettings.gimbalPitch, currentSettings.frontOverlap)]. *)
Definition handleGenerate_maxSpeed (initialPath : list waypoint)
    (currentSettings : object) (effectiveFOV : option float) : speed_result :=
  let photoInterval := currentSettings !! "photoInterval" in
  calculateMaxSpeed_call
    [ JWaypoints initialPath; of_number photoInterval;
      of_number (currentSettings !! "altitude"); of_number effectiveFOV;
      of_number (currentSettings !! "gimbalPitch");
      of_number (currentSettings !! "frontOverlap") ].

(** Step 3 of [handleGenerate]: [speed: maxSpeed > 0 ? maxSpeed :
    currentSettings.speed]. *)
Definition handleGenerate_speed (initialPath : list waypoint)
    (currentSettings : object) (effectiveFOV : option float) : option float :=
  let r := handleGenerate_maxSpeed initialPath currentSettings effectiveFOV in
  if 0 <? maxSpeed r then Some (maxSpeed r) else currentSettings !! "speed".

End MissionGeneration.

(** ** SidebarMain.jsx: the point conversion of [processFile] *)

Inductive geometry :=
| Point (coordinates : list float)
| OtherGeometry (type : string).

Record feature := Feature { f_geometry : geometry; f_properties : object }.

(** The object literal pushed onto [newPoints]; a field is [None] when the
    expression it is built from evaluates to [undefined]. *)
Record imported_waypoint := ImportedWaypoint {
  wp_id : string;
  wp_lng : option float;
  wp_lat : option float;
  wp_altitude : option float;
  wp_speed : option float;
  wp_gimbalPitch : option float;
  wp_heading : option float
}.

(** [x !== undefined ? x : y] *)
Definition defined_or (x y : option float) : option float :=
  match x with Some v => Some v | None => y end.

Section ProcessFile.

(** [generateUUID] of [utils/uuid.js], which is not among the sources: a
    generator threaded through the calls. *)
Context {gen : Type} (generateUUID : gen -> string * gen).

Definition point_of_feature (settings : object) (coordinates : list float)
    (properties : object) (id : string) : imported_waypoint :=
  {| wp_id := id;
     wp_lng := coordinates !! 0%nat;
     wp_lat := coordinates !! 1%nat;
     wp_altitude := defined_or (properties !! "altitude") (settings !! "altitude");
     wp_speed := defined_or (properties !! "speed") (settings !! "speed");
     wp_gimbalPitch :=
       defined_or (properties !! "gimbalPitch") (settings !! "gimbalPitch");
     wp_heading := defined_or (properties !! "heading") (Some 0) |}.

(** The [forEach] over [geojson.features] that fills [newPoints]. *)
Fixpoint newPoints (features : list feature) (settings : object) (g : gen)
  : list imported_waypoint * gen :=
  match features with
  | [] => ([], g)
  | f :: rest =>
      match f_geometry f with
      | Point coordinates =>
          let '(id, g) := generateUUID g in
          let wp := point_of_feature settings coordinates (f_properties f) id in
          let '(pts, g) := newPoints rest settings g in
          (wp :: pts, g)
      | OtherGeometry _ => newPoints rest settings g
      end
  end.

End ProcessFile.

(** The point features of a file, with their coordinates and properties. *)
Definition point_records (features : list feature) : list (list float * object) :=
  omap (fun f => match f_geometry f with
                 | Point c => Some (c, f_properties f)
                 | OtherGeometry _ => None
                 end) features.

(** A counter-based generator, to run [newPoints]. *)
Definition counter_uuid (n : nat) : string * nat :=
  (String.append "wp-" (pretty n), S n).

(** ** JavaScript primitives used by MissionMetrics.jsx *)

Module JSFormat.

(** [Math.floor(x)]: the greatest integer at or below [x]; zeros,
    infinities and NaN are returned as they are. *)
Definition Math_floor (x : float) : float :=
  match Prim2SF x with
  | S754_finite s m e =>
      if (0 <=? e)%Z then x
      else
        let n := (cond_Zopp s (Zpos m) / 2 ^ (- e))%Z in
        if (n =? 0)%Z then 0
        else SF2Prim (binary_normalize prec emax n 0 false)
  | _ => x
  end.

(** [n % d] (ECMA-262, Number::remainder): [n - d * trunc(n / d)], computed
    exactly, with the sign of [n]. *)
Definition remainder (n d : float) : float :=
  match Prim2SF n, Prim2SF d with
  | S754_nan, _ | _, S754_nan => nan
  | S754_infinity _, _ => nan
  | _, S754_infinity _ => n
  | _, S754_zero _ => nan
  | S754_zero _, _ => n
  | S754_finite sn mn en, S754_finite _ md ed =>
      let e := Z.min en ed in
      let r := ((Zpos mn * 2 ^ (en - e)) mod (Zpos md * 2 ^ (ed - e)))%Z in
      if (r =? 0)%Z then (if sn then neg_zero else zero)
      else SF2Prim (binary_normalize prec emax (cond_Zopp sn r) e false)
  end.

Fixpoint zeros (n : nat) : string :=
  match n with
  | O => EmptyString
  | S k => String.append "0" (zeros k)
  end.

(** [s.padStart(targetLength, '0')] *)
Definition padStart_0 (s : string) (targetLength : nat) : string :=
  String.append (zeros (targetLength - String.length s)) s.

End JSFormat.

(** ** MissionMetrics.jsx *)

Section MissionMetrics.

Context {host : Host}.

(** [calculateMissionDistance(waypoints)]: [totalDistance] starts at [0]
    and the loop adds the distance of each leg to it, first leg first. *)
Definition calculateMissionDistance (waypoints : list waypoint) : float :=
  if (length waypoints <? 2)%nat then 0
  else
    fold_left (fun totalDistance distance => totalDistance + distance)
              (leg_distances waypoints) 0.

End MissionMetrics.

Section FormatTime.

(** [Number::toString] in radix 10, the host's conversion of a number to a
    string that the template literal and [toString()] both use. *)
Variable Number_toString : float -> string.

(** [formatTime(seconds)] *)
Definition formatTime (seconds : float) : string :=
  let mins := JSFormat.Math_floor (seconds / 60) in
  let secs := JSFormat.remainder seconds 60 in
  Number_toString mins +:+ ":" +:+
  JSFormat.padStart_0 (Number_toString secs) 2.

End FormatTime.

Section FormatDistance.

(** [Number::toString] in radix 10 and [Number.prototype.toFixed] with two
    digits, the host's conversions of a number to a string. *)
Variable Number_toString : float -> string.
Variable Number_toFixed_2 : float -> string.

(** [METERS_TO_FEET] of [utils/units.js], which is not among the sources. *)
Variable METERS_TO_FEET : float.

(** [formatDistance(meters, units)] *)
Definition formatDistance (meters : float) (units : string) : string :=
  if String.eqb units "metric" then
    if 1000 <=? meters then Number_toFixed_2 (meters / 1000) +:+ " km"
    else Number_toString (JS.Math_round meters) +:+ " m"
  else
    let feet := meters * METERS_TO_FEET in
    if 5280 <=? feet then Number_toFixed_2 (feet / 5280) +:+ " mi"
    else Number_toString (JS.Math_round feet) +:+ " ft".

End FormatDistance.

(** ** useMissionGeneration.js: the flight warning dialog *)

(** The two pieces of component state the hook keeps for the dialog. *)
Record warning_state := WarningState {
  showFlightWarning : bool;
  pendingWarningCheck : bool
}.

Definition is_safe (level : warning_level) : bool :=
  match level with safe => true | _ => false end.

(** [getWarningLevel()]: the store's [getFlightWarningLevel()] is asked only
    for a path of at least two waypoints with [calculatedMaxSpeed > 0].
    The store is not among the sources; the level it would answer is an
    argument. *)
Definition getWarningLevel (waypoints_length : nat) (calculatedMaxSpeed : float)
    (store_level : warning_level) : warning_level :=
  if (2 <=? waypoints_length)%nat && (0 <? calculatedMaxSpeed)
  then store_level else safe.

(** The body of the hook's [useEffect]: the state after the setters it
    calls have taken effect. *)
Definition warning_effect (st : warning_state) (warningLevel : warning_level)
  : warning_state :=
  if pendingWarningCheck st && negb (is_safe warningLevel)
  then WarningState true false
  else if pendingWarningCheck st && is_safe warningLevel
  then WarningState (showFlightWarning st) false
  else st.

(** ** SidebarMain.jsx: the rest of [processFile] *)

(** The character [c] is the one of the one-character string [s]. *)
Definition char_is (c : Ascii.ascii) (s : string) : bool :=
  String.eqb (String c EmptyString) s.

(** A match of [/\.(kmz|kml)$/i] that starts at the first character of [s]:
    [s] is a dot and one of the two extensions, in either case, and ends
    there. *)
Definition extension_match (s : string) : bool :=
  match s with
  | String c0 (String c1 (String c2 (String c3 EmptyString))) =>
      char_is c0 "." &&
      (char_is c1 "k" || char_is c1 "K") &&
      (char_is c2 "m" || char_is c2 "M") &&
      (char_is c3 "z" || char_is c3 "Z" || char_is c3 "l" || char_is c3 "L")
  | _ => false
  end.

(** [name.replace(/\.(kmz|kml)$/i, '')]: the search tries every start
    position from the left and deletes the first match.  Only the dot and
    six ASCII letters match, so how the other characters of a name are
    encoded does not matter. *)
Fixpoint strip_extension (name : string) : string :=
  if extension_match name then EmptyString
  else
    match name with
    | EmptyString => EmptyString
    | String c rest => String c (strip_extension rest)
    end.

Section ProcessFileCalls.

Context {gen : Type} (generateUUID : gen -> string * gen).

(** The session's settings object and polygon are [kmlImporter]'s, which is
    not among the sources; [processFile] only passes them on. *)
Context {session_settings polygon : Type}.

Record session_data := SessionData {
  sd_settings : option session_settings;
  sd_polygon : option polygon
}.

(** The calls [processFile] makes on the store, the component's props and
    the window, in the order it makes them. *)
Inductive call :=
| setWaypoints (points : list imported_waypoint)
| updateSettings (s : session_settings)
| setCurrentPolygon (p : polygon)
| dispatch_restore_polygon (p : polygon)
| console_warn
| console_error
| alert (message : string)
| setMissionFilename (filename : string)
| setTimeout_fit_and_metrics.

(** [processFile(file)].  [file] is the name of the file, [None] when no
    file was given; [parsed] is the [{geojson, sessionData}] that
    [await parseImport(file)] yields, reduced to [geojson.features] and
    [sessionData], and [None] when it throws; [has_setCurrentPolygon] tells
    whether the component was given the prop.  The calls after
    [parseImport] are taken not to throw. *)
Definition processFile (file : option string)
    (parsed : option (list feature * option session_data))
    (settings : object) (has_setCurrentPolygon : bool) (g : gen) : list call :=
  match file with
  | None => []
  | Some name =>
      match parsed with
      | None =>
          [ console_error;
            alert "Failed to parse file. Ensure it is a valid KML/KMZ." ]
      | Some (features, sessionData) =>
          let points := fst (newPoints generateUUID features settings g) in
          if (0 <? length points)%nat then
            setWaypoints points ::
            match sessionData with
            | Some sd =>
                match sd_settings sd with
                | Some s => [ updateSettings s ]
                | None => []
                end ++
                match sd_polygon sd with
                | Some p =>
                    if has_setCurrentPolygon
                    then [ setCurrentPolygon p; dispatch_restore_polygon p ]
                    else [ console_warn ]
                | None => [ console_warn ]
                end ++
                [ alert ("Imported " +:+ pretty (length points) +:+
                         " waypoints and restored session!") ]
            | None =>
                [ alert ("Imported " +:+ pretty (length points) +:+
                         " waypoints!") ]
            end ++
            [ setMissionFilename (strip_extension name);
              setTimeout_fit_and_metrics ]
          else [ alert "No waypoints found in file." ]
      end
  end.

(** A call that changes the mission store. *)
Definition changes_store (c : call) : bool :=
  match c with
  | setWaypoints _ | updateSettings _ | setMissionFilename _ => true
  | _ => false
  end.

End ProcessFileCalls.

(** ** SidebarMain.jsx: the drone selector and the footprint estimate *)

(** [DEFAULT_HFOV] of [utils/constants.js]. *)
Definition DEFAULT_HFOV : float := 82.1.

(** [x || d] for a number [x] that may be absent. *)
Definition or_default (x : option float) (d : float) : float :=
  match x with
  | Some v => if JS.truthy v then v else d
  | None => d
  end.

(** The object handed to [updateSettings] by the selector. *)
Record drone_settings := DroneSettings {
  ds_selectedDrone : string;
  ds_customFOV : option float;
  ds_photoInterval : option float
}.

Section DroneSelector.

(** [DRONE_PRESETS] and [DEFAULT_PHOTO_INTERVAL] of [dronePresets.js], which
    is not among the sources. *)
Variable DRONE_PRESETS : gmap string object.
Variable DEFAULT_PHOTO_INTERVAL : float.

(** The [onChange] handler of the drone selector, up to its call of
    [updateSettings]: [val] is the chosen drone id. *)
Definition onDroneChange (settings : object) (val : string) : drone_settings :=
  let preset := DRONE_PRESETS !! val in
  if String.eqb val "custom" then
    DroneSettings val (settings !! "customFOV") (settings !! "photoInterval")
  else
    let fov := or_default (preset ≫= lookup "hfov") DEFAULT_HFOV in
    let newPhotoInterval :=
      or_default (preset ≫= lookup "photoInterval") DEFAULT_PHOTO_INTERVAL in
    DroneSettings val (Some fov) (Some newPhotoInterval).

End DroneSelector.

(** The size estimate rendered under [Show Image Footprints] when
    [settings.showFootprints] is set: [widthMeters] and [heightMeters],
    before they are converted for display.  A missing [settings.altitude]
    is [undefined], which the product turns into NaN. *)
Definition footprint_estimate {host : Host} (settings : object) : float * float :=
  let hfov := or_default (settings !! "customFOV") DEFAULT_HFOV in
  let altitude := default nan (settings !! "altitude") in
  let widthMeters := 2 * altitude * Math_tan ((hfov * JS.PI) / 360) in
  let heightMeters := widthMeters * (3 / 4) in
  (widthMeters, heightMeters).

(** ** A computable host

    First-order (small-angle) trigonometry and planar distances over
    degrees, 111195 m to the degree.  It agrees with ECMA-262 on the exact
    values at [+0], and its points and polygons check what they are given
    as turf's do; it instantiates the host wherever a statement is run on
    concrete inputs. *)

Definition planar_distance (a b : coord) : float :=
  let dx := (fst b - fst a) * 111195 in
  let dy := (snd b - snd a) * 111195 in
  PrimFloat.sqrt (dx * dx + dy * dy).

(** Like turf's, its points reject a coordinate that is NaN. *)
Definition planar_point (c : coord) : outcome coord :=
  if is_nan (fst c) || is_nan (snd c) then Throws else Returns c.

Definition planar_destination (o : coord) (km bearing : float) : outcome coord :=
  let r := bearing * JS.PI / 180 in
  planar_point (fst o + km * r / 111.195, snd o + km * (1 - r * r / 2) / 111.195).

Definition same_position (a b : coord) : bool :=
  (fst a =? fst b) && (snd a =? snd b).

(** Like turf's, its polygons reject a ring of fewer than four positions
    and a ring whose last position is not the first. *)
Definition planar_polygon (ring : list coord) (properties : footprint_properties)
  : outcome footprint :=
  if (length ring <? 4)%nat
     || negb (same_position (List.last ring (0, 0)) (hd (0, 0) ring))
  then Throws
  else Returns (Footprint ring properties).

Definition planar_host : Host := {|
  Math_tan := fun x => x;
  Math_atan := fun x => x;
  Math_sin := fun x => x;
  Math_cos := fun x => 1 - x * x / 2;
  Math_atan2 := fun y x => y / x;
  turf_distance := planar_distance;
  turf_point := planar_point;
  turf_destination := planar_destination;
  turf_polygon := planar_polygon
|}.

(** ** Vocabulary of the proofs *)

(** An argument that is absent, or a number that is falsy ([+0], [-0], NaN). *)
Definition absent_or_falsy (v : option float) : Prop :=
  match v with None => True | Some x => JS.truthy x = false end.

(** [coords] are what [turf.destination] returns for the corners [grounds],
    in order, from [centerPt] under [heading]. *)
Definition destinations {host : Host} (centerPt : coord) (heading : float)
    (grounds : list (float * float)) (coords : list coord) : Prop :=
  Forall2 (fun '(dist, angle) dest =>
             turf_destination centerPt (dist / 1000) (heading + angle)
             = Returns dest)
          grounds coords.

(** Every call of turf that [calculateFootprint] makes past its guard
    returns: [turf.point] on the centre, [turf.destination] on the four
    corners, and [turf.polygon], on the four destinations followed by the
    first, gives [polygon]. *)
Definition turf_returns {host : Host} (center : waypoint)
    (altitude heading hfov gimbalPitch : float) (polygon : footprint) : Prop :=
  exists centerPt tr br bl tl,
    turf_point (lng center, lat center) = Returns centerPt /\
    destinations centerPt heading (corner_grounds altitude hfov gimbalPitch)
                 [tr; br; bl; tl] /\
    turf_polygon [tr; br; bl; tl; tr]
                 (FootprintProperties altitude heading hfov gimbalPitch)
    = Returns polygon.

(** One of these calls throws: [turf.point] on the centre; or, from the
    point it returns, [turf.destination] on one of the corners; or
    [turf.polygon] on the ring of the destinations. *)
Definition turf_throws {host : Host} (center : waypoint)
    (altitude heading hfov gimbalPitch : float) : Prop :=
  turf_point (lng center, lat center) = Throws \/
  exists centerPt,
    turf_point (lng center, lat center) = Returns centerPt /\
    (Exists (fun '(dist, angle) =>
               turf_destination centerPt (dist / 1000) (heading + angle)
               = Throws)
            (corner_grounds altitude hfov gimbalPitch) \/
     exists tr br bl tl,
       destinations centerPt heading (corner_grounds altitude hfov gimbalPitch)
                    [tr; br; bl; tl] /\
       turf_polygon [tr; br; bl; tl; tr]
                    (FootprintProperties altitude heading hfov gimbalPitch)
       = Throws).

(** The value [field] of an imported waypoint is the file's when the file
    has one, and [fallback] otherwise. *)
Definition file_or (file fallback field : option float) : Prop :=
  match file with Some v => field = Some v | None => field = fallback end.

(** The float of the integer [n]; it has the value [n] when [n] is below
    [2^53] in absolute value. *)
Definition float_of_Z (n : Z) : float :=
  SF2Prim (binary_normalize prec emax n 0 false).

(** The levels in the order of severity. *)
Definition severity (level : warning_level) : nat :=
  match level with safe => 0 | warning => 1 | critical => 2 end.

(** *** Reading a [spec_float] *)

Module SF.

Definition sf_is_nan (f : spec_float) : bool :=
  match f with S754_nan => true | _ => false end.

Definition sf_is_zero (f : spec_float) : bool :=
  match f with S754_zero _ => true | _ => false end.

Definition sf_sign (f : spec_float) : bool :=
  match f with
  | S754_zero s | S754_infinity s | S754_finite s _ _ => s
  | S754_nan => false
  end.

(** A key that orders the non-NaN values as [SFcompare] does. *)
Definition ord (f : spec_float) : Z * Z * Z :=
  match f with
  | S754_infinity true => (-2, 0, 0)
  | S754_finite true m e => (-1, - e, - Zpos m)
  | S754_zero _ | S754_nan => (0, 0, 0)
  | S754_finite false m e => (1, e, Zpos m)
  | S754_infinity false => (2, 0, 0)
  end%Z.

Definition lex_lt (a b : Z * Z * Z) : Prop :=
  let '(a1, a2, a3) := a in
  let '(b1, b2, b3) := b in
  (a1 < b1 \/ (a1 = b1 /\ (a2 < b2 \/ (a2 = b2 /\ a3 < b3))))%Z.

(** The sign bit is clear: NaN, [+0], a positive number or [+Infinity]. *)
Definition sign_clear (x : float) : Prop := get_sign x = false.

End SF.

(** *** Real values and the grid of an exponent *)

Module Grid.

Local Open Scope Z_scope.

(** [2^e] as a real number. *)
Definition bpow (e : Z) : R := powerRZ 2 e.

(** The value of the positive float of mantissa [m] and exponent [e]. *)
Definition F2R (m : positive) (e : Z) : R := (IZR (Z.pos m) * bpow e)%R.

(** [x] in units of [2^e]. *)
Definition scaled (x : R) (e : Z) : R := (x / bpow e)%R.

(** [u] lies at [m] (exactly), or strictly inside the lower half, at the
    middle, or strictly inside the upper half of the cell [[m, m+1)]. *)
Definition located (l : location) (m : Z) (u : R) : Prop :=
  match l with
  | loc_Exact => u = IZR m
  | loc_Inexact Lt => (IZR m < u < IZR m + / 2)%R
  | loc_Inexact Eq => u = (IZR m + / 2)%R
  | loc_Inexact Gt => (IZR m + / 2 < u < IZR m + 1)%R
  end.

(** [k] is the magnitude of [x]: [2^(k-1) <= x < 2^k]. *)
Definition mag_is (x : R) (k : Z) : Prop := (bpow (k - 1) <= x < bpow k)%R.

(** The canonical exponent of binary64 for a number of magnitude [k]. *)
Definition fexp64 (k : Z) : Z := Z.max (k - 53) (-1074).

(** The second half of [binary_round_aux] for a positive sign: the
    renormalising shift and the choice between zero, a finite float and
    [+Infinity]. *)
Definition finish (m1 e : Z) : spec_float :=
  let '(mrs, e') := shr_fexp prec emax m1 e loc_Exact in
  match shr_m mrs with
  | Z0 => S754_zero false
  | Zpos m =>
      if e' <=? emax - prec then S754_finite false m e' else S754_infinity false
  | Zneg _ => S754_nan
  end.

(** [m1 * 2^e] is [x] rounded to nearest, ties to even, on the grid of the
    canonical exponent [e] of [x]. *)
Definition rounded (x : R) (m1 e : Z) : Prop :=
  exists k m l,
    mag_is x k /\ e = fexp64 k /\ 0 <= m /\
    located l m (scaled x e) /\ m1 = round_nearest_even m l.

End Grid.

(** ** Binary64 facts used by the proofs

    Everything below goes through [Prim2SF] and the specification of the
    primitive operations in [FloatAxioms]. *)

Module F64.
Import SF.

Lemma SFcompare_refl f : sf_is_nan f = false -> SFcompare f f = Some Eq.
Proof.
  destruct f as [s|s| |s m e]; simpl; try discriminate; intros _.
  - reflexivity.
  - destruct s; reflexivity.
  - rewrite Z.compare_refl, Pos.compare_cont_refl. destruct s; reflexivity.
Qed.

(** Closes a comparison whose both sides are decided. *)
Ltac ord_decided :=
  try (split; [ discriminate | unfold lex_lt; cbn [ord]; lia ]);
  try (split; [ intros _; unfold lex_lt; cbn [ord]; lia | reflexivity ]).

(** Compares two finite values of one sign: exponents, then mantissas. *)
Ltac ord_finite ea eb ma mb :=
  destruct (Z.compare_spec ea eb); ord_decided;
  fold (Pos.compare ma mb);
  destruct (Pos.compare_spec ma mb); cbn [CompOpp]; ord_decided.

Lemma SFltb_ord a b :
  sf_is_nan a = false -> sf_is_nan b = false ->
  (SFltb a b = true <-> lex_lt (ord a) (ord b)).
Proof.
  unfold SFltb.
  destruct a as [sa|sa| |sa ma ea], b as [sb|sb| |sb mb eb];
    cbn [sf_is_nan SFcompare]; try discriminate; intros _ _;
    repeat match goal with s : bool |- _ => destruct s end; ord_decided;
    ord_finite ea eb ma mb.
Qed.

Lemma SFleb_ord a b :
  sf_is_nan a = false -> sf_is_nan b = false ->
  (SFleb a b = true <-> ~ lex_lt (ord b) (ord a)).
Proof.
  unfold SFleb.
  destruct a as [sa|sa| |sa ma ea], b as [sb|sb| |sb mb eb];
    cbn [sf_is_nan SFcompare]; try discriminate; intros _ _;
    repeat match goal with s : bool |- _ => destruct s end; ord_decided;
    ord_finite ea eb ma mb.
Qed.

(** *** The primitive tests, read on the specification side *)

Lemma is_nan_spec x : is_nan x = sf_is_nan (Prim2SF x).
Proof.
  unfold is_nan. rewrite FloatAxioms.eqb_spec. unfold SFeqb.
  destruct (Prim2SF x) eqn:E; try reflexivity;
    rewrite SFcompare_refl; reflexivity.
Qed.

Lemma Prim2SF_zero : Prim2SF 0 = S754_zero false.
Proof. reflexivity. Qed.

Lemma is_zero_spec x : is_zero x = sf_is_zero (Prim2SF x).
Proof.
  unfold is_zero. rewrite FloatAxioms.eqb_spec. change (Prim2SF zero) with (S754_zero false).
  unfold SFeqb. destruct (Prim2SF x) as [s|s| |s m e]; simpl; try reflexivity;
    destruct s; reflexivity.
Qed.

Lemma get_sign_spec x : get_sign x = sf_sign (Prim2SF x).
Proof.
  unfold get_sign. rewrite is_zero_spec.
  destruct (Prim2SF x) as [s|s| |s m e] eqn:E; simpl.
  - rewrite FloatAxioms.ltb_spec, FloatAxioms.div_spec, E.
    change (Prim2SF zero) with (S754_zero false).
    change (Prim2SF one) with (S754_finite false 4503599627370496 (-52)).
    destruct s; reflexivity.
  - rewrite FloatAxioms.ltb_spec, E. destruct s; reflexivity.
  - rewrite FloatAxioms.ltb_spec, E. reflexivity.
  - rewrite FloatAxioms.ltb_spec, E. destruct s; reflexivity.
Qed.

Lemma nan_unique x : is_nan x = true -> x = nan.
Proof.
  rewrite is_nan_spec. intros H. apply Prim2SF_inj.
  destruct (Prim2SF x); try discriminate. reflexivity.
Qed.

Lemma truthy_spec x :
  JS.truthy x = negb (sf_is_nan (Prim2SF x) || sf_is_zero (Prim2SF x)).
Proof. unfold JS.truthy. now rewrite is_nan_spec, is_zero_spec. Qed.

(** [0 < x] rules out NaN, zero and every value at or below zero. *)
Lemma pos_spec x :
  (0 <? x) = true ->
  exists f, Prim2SF x = f /\ sf_sign f = false /\
            sf_is_nan f = false /\ sf_is_zero f = false.
Proof.
  rewrite FloatAxioms.ltb_spec, Prim2SF_zero. exists (Prim2SF x).
  destruct (Prim2SF x) as [s|s| |s m e]; simpl in *; try discriminate;
    destruct s; try discriminate; auto.
Qed.

Lemma pos_truthy x : (0 <? x) = true -> JS.truthy x = true.
Proof.
  intros H. destruct (pos_spec x H) as (f & E & _ & Hn & Hz).
  rewrite truthy_spec, E, Hn, Hz. reflexivity.
Qed.

Lemma pos_not_le0 x : (0 <? x) = true -> (x <=? 0) = false.
Proof.
  intros H. destruct (pos_spec x H) as (f & E & Hs & Hn & Hz).
  rewrite FloatAxioms.leb_spec, Prim2SF_zero, E.
  destruct f as [s|s| |s m e]; simpl in *; try discriminate; subst; reflexivity.
Qed.

End F64.

(** ** Order and sign lemmas on [float] *)

Module FloatOrder.
Import SF F64.

Lemma leb_refl x : is_nan x = false -> (x <=? x) = true.
Proof.
  rewrite is_nan_spec, FloatAxioms.leb_spec. intros H.
  unfold SFleb. now rewrite SFcompare_refl.
Qed.

Lemma leb_not_nan x y : (x <=? y) = true -> is_nan x = false /\ is_nan y = false.
Proof.
  rewrite FloatAxioms.leb_spec, !is_nan_spec.
  destruct (Prim2SF x), (Prim2SF y); simpl; auto; discriminate.
Qed.

Lemma ltb_not_nan x y : (x <? y) = true -> is_nan x = false /\ is_nan y = false.
Proof.
  rewrite FloatAxioms.ltb_spec, !is_nan_spec.
  destruct (Prim2SF x), (Prim2SF y); simpl; auto; discriminate.
Qed.

Lemma leb_trans x y z : (x <=? y) = true -> (y <=? z) = true -> (x <=? z) = true.
Proof.
  intros Hxy Hyz.
  destruct (leb_not_nan _ _ Hxy) as [Hx Hy].
  destruct (leb_not_nan _ _ Hyz) as [_ Hz].
  rewrite is_nan_spec in Hx, Hy, Hz.
  rewrite FloatAxioms.leb_spec in *.
  apply SFleb_ord in Hxy; auto. apply SFleb_ord in Hyz; auto.
  apply SFleb_ord; auto.
  unfold lex_lt in *.
  destruct (ord (Prim2SF x)) as [[x1 x2] x3], (ord (Prim2SF y)) as [[y1 y2] y3],
    (ord (Prim2SF z)) as [[z1 z2] z3]. lia.
Qed.

Lemma ltb_leb x y : (x <? y) = true -> (x <=? y) = true.
Proof.
  intros H. destruct (ltb_not_nan _ _ H) as [Hx Hy].
  rewrite is_nan_spec in Hx, Hy.
  rewrite FloatAxioms.ltb_spec in H. rewrite FloatAxioms.leb_spec.
  apply SFltb_ord in H; auto. apply SFleb_ord; auto.
  unfold lex_lt in *.
  destruct (ord (Prim2SF x)) as [[x1 x2] x3], (ord (Prim2SF y)) as [[y1 y2] y3]. lia.
Qed.

Lemma ltb_false_leb x y :
  is_nan x = false -> is_nan y = false -> (x <? y) = false -> (y <=? x) = true.
Proof.
  rewrite !is_nan_spec, FloatAxioms.ltb_spec, FloatAxioms.leb_spec.
  intros Hx Hy H. apply SFleb_ord; auto.
  intros C. apply SFltb_ord in C; auto. congruence.
Qed.

Lemma leb_ltb_false x y : (x <=? y) = true -> (y <? x) = false.
Proof.
  intros H. destruct (leb_not_nan _ _ H) as [Hx Hy].
  rewrite is_nan_spec in Hx, Hy.
  rewrite FloatAxioms.leb_spec in H. rewrite FloatAxioms.ltb_spec.
  apply SFleb_ord in H; auto.
  destruct (SFltb (Prim2SF y) (Prim2SF x)) eqn:E; auto.
  apply SFltb_ord in E; auto. contradiction.
Qed.

Lemma ltb_irrefl x : (x <? x) = false.
Proof.
  rewrite FloatAxioms.ltb_spec. unfold SFltb.
  destruct (sf_is_nan (Prim2SF x)) eqn:E.
  - destruct (Prim2SF x); try discriminate. reflexivity.
  - now rewrite SFcompare_refl.
Qed.

(** The only value at or above [+Infinity] is [+Infinity]. *)
Lemma infinity_leb x : (infinity <=? x) = true -> x = infinity.
Proof.
  rewrite FloatAxioms.leb_spec. change (Prim2SF infinity) with (S754_infinity false).
  intros H. apply Prim2SF_inj. change (Prim2SF infinity) with (S754_infinity false).
  destruct (Prim2SF x) as [s|s| |s m e]; simpl in H; try discriminate;
    destruct s; try discriminate; reflexivity.
Qed.

(** *** [Math.min] returns the least element *)

Lemma neg_zero_leb x y :
  JS.is_neg_zero x = true -> JS.is_pos_zero y = true -> (x <=? y) = true.
Proof.
  unfold JS.is_neg_zero, JS.is_pos_zero.
  rewrite !is_zero_spec, FloatAxioms.leb_spec.
  destruct (Prim2SF x), (Prim2SF y); simpl; try discriminate. reflexivity.
Qed.

Lemma min_step_spec lowest x :
  is_nan lowest = false -> is_nan x = false ->
  let r := JS.min_step lowest x in
  (r = lowest \/ r = x) /\ (r <=? lowest) = true /\ (r <=? x) = true.
Proof.
  intros Hl Hx. unfold JS.min_step.
  destruct (JS.is_neg_zero x && JS.is_pos_zero lowest) eqn:Ez.
  - apply andb_true_iff in Ez as [E1 E2]. cbv zeta.
    repeat split; auto using neg_zero_leb, leb_refl.
  - destruct (x <? lowest) eqn:El; cbv zeta.
    + repeat split; auto using ltb_leb, leb_refl.
    + repeat split; auto using ltb_false_leb, leb_refl.
Qed.

Lemma min_from_spec l : forall lowest,
  is_nan lowest = false -> Forall (fun d => is_nan d = false) l ->
  let r := JS.min_from lowest l in
  (r = lowest \/ In r l) /\ (r <=? lowest) = true /\
  Forall (fun d => (r <=? d) = true) l.
Proof.
  induction l as [|x l IH]; intros lowest Hl Hall; cbn [JS.min_from].
  - repeat split; auto using leb_refl.
  - inversion Hall as [|? ? Hx Hall']; subst. rewrite Hx.
    destruct (min_step_spec lowest x Hl Hx) as (Hin & Hle1 & Hle2).
    assert (Hs : is_nan (JS.min_step lowest x) = false)
      by (apply (leb_not_nan _ _ Hle1)).
    destruct (IH _ Hs Hall') as (Hin' & Hle' & Hall'').
    cbv zeta. repeat split.
    + destruct Hin' as [-> | Hin']; [ | right; now right ].
      destruct Hin as [-> | ->]; [ now left | right; now left ].
    + eauto using leb_trans.
    + constructor; eauto using leb_trans.
Qed.

Lemma Math_min_spec l :
  l <> [] -> Forall (fun d => is_nan d = false) l ->
  In (JS.Math_min l) l /\ Forall (fun d => (JS.Math_min l <=? d) = true) l.
Proof.
  intros Hne Hall. unfold JS.Math_min.
  destruct (min_from_spec l infinity eq_refl Hall) as (Hin & _ & Hle).
  split; auto. destruct Hin as [E | Hin]; auto.
  destruct l as [|x l]; [ congruence | ].
  inversion Hle as [|? ? Hx _]; subst. rewrite E in Hx.
  apply infinity_leb in Hx. rewrite E, Hx. now left.
Qed.

Lemma min_from_nan l : forall lowest,
  Exists (fun d => is_nan d = true) l -> JS.min_from lowest l = nan.
Proof.
  induction l as [|x l IH]; intros lowest H; inversion H; subst; cbn [JS.min_from].
  - now rewrite H1.
  - destruct (is_nan x); auto.
Qed.

End FloatOrder.

(** ** Signs: a quotient of sign-clear values is sign-clear or NaN *)

Module FloatSign.
Import SF F64.

Lemma binary_round_aux_sign s m e l :
  let r := binary_round_aux prec emax s m e l in
  r = S754_nan \/ (sf_is_nan r = false /\ sf_sign r = s).
Proof.
  unfold binary_round_aux.
  destruct (shr_fexp prec emax m e l) as [mrs' e'].
  destruct (shr_fexp prec emax _ e' loc_Exact) as [mrs'' e''].
  destruct (shr_m mrs''); cbv zeta; auto.
  destruct (e'' <=? emax - prec)%Z; auto.
Qed.

Lemma SFdiv_sign a b :
  let r := SFdiv prec emax a b in
  r = S754_nan \/ (sf_is_nan r = false /\ sf_sign r = xorb (sf_sign a) (sf_sign b)).
Proof.
  destruct a as [sa|sa| |sa ma ea], b as [sb|sb| |sb mb eb]; cbn [SFdiv sf_sign];
    auto.
  destruct (SFdiv_core_binary prec emax (Z.pos ma) ea (Z.pos mb) eb) as [[mz ez] lz].
  apply binary_round_aux_sign.
Qed.

Lemma div_sign_clear d p :
  sign_clear d -> sign_clear p -> sign_clear (d / p).
Proof.
  unfold sign_clear. rewrite !get_sign_spec, FloatAxioms.div_spec.
  unfold SF64div. intros Hd Hp.
  pose proof (SFdiv_sign (Prim2SF d) (Prim2SF p)) as H. cbv zeta in H.
  destruct H as [-> | [_ ->]]; auto.
  now rewrite Hd, Hp.
Qed.

Lemma pos_sign_clear x : (0 <? x) = true -> sign_clear x.
Proof.
  intros H. destruct (pos_spec x H) as (f & E & Hs & _).
  unfold sign_clear. now rewrite get_sign_spec, E.
Qed.

(** [Math.max(0, q)] leaves a sign-clear [q] unchanged. *)
Lemma Math_max_0_sign_clear q : sign_clear q -> JS.Math_max 0 q = q.
Proof.
  unfold sign_clear, JS.Math_max. intros Hq.
  change (is_nan 0) with false. cbn [orb].
  destruct (is_nan q) eqn:En; [ symmetry; now apply nan_unique | ].
  destruct (0 <? q) eqn:E0; auto.
  assert (Hz : Prim2SF q = S754_zero false).
  { rewrite get_sign_spec in Hq. rewrite is_nan_spec in En.
    rewrite FloatAxioms.ltb_spec, Prim2SF_zero in E0.
    destruct (Prim2SF q) as [s|s| |s m e]; simpl in *; subst;
      try discriminate; reflexivity. }
  assert (q = 0) as -> by (apply Prim2SF_inj; now rewrite Hz).
  reflexivity.
Qed.

End FloatSign.

(** ** Rounding to binary64

    [binary_round_aux], which [SFmul] and [SFdiv] end with, rounds the
    number it is given to the nearest float, ties to even; the lemmas below
    locate that number on the grid of its canonical exponent and derive
    that rounding is monotone. *)

Module Rounding.
Import SF Grid F64.

Local Open Scope Z_scope.

(** *** Powers of two *)

Lemma bpow_pos e : (0 < bpow e)%R.
Proof. apply powerRZ_lt. lra. Qed.

Lemma bpow_add a b : bpow (a + b) = (bpow a * bpow b)%R.
Proof. apply powerRZ_add. lra. Qed.

Lemma bpow_succ e : bpow (e + 1) = (2 * bpow e)%R.
Proof. rewrite bpow_add. unfold bpow at 2. simpl. lra. Qed.

Lemma bpow_IZR k : 0 <= k -> bpow k = IZR (2 ^ k).
Proof.
  intros Hk. pattern k. apply natlike_ind; auto.
  intros x Hx IH. unfold Z.succ. rewrite bpow_succ, IH, Z.pow_add_r by lia.
  rewrite mult_IZR. simpl. lra.
Qed.

Lemma bpow_ge_1 k : 0 <= k -> (1 <= bpow k)%R.
Proof.
  intros Hk. rewrite bpow_IZR by assumption. apply IZR_le.
  assert (0 < 2 ^ k) by (apply Z.pow_pos_nonneg; lia). lia.
Qed.

Lemma bpow_le a b : a <= b -> (bpow a <= bpow b)%R.
Proof.
  intros H. replace b with (a + (b - a)) by ring. rewrite bpow_add.
  pose proof (bpow_pos a). pose proof (bpow_ge_1 (b - a) ltac:(lia)). nra.
Qed.

Lemma bpow_lt_inv a b : (bpow a < bpow b)%R -> a < b.
Proof.
  intros H. destruct (Z_lt_le_dec a b) as [|Hle]; auto.
  apply bpow_le in Hle. lra.
Qed.

(** *** A real number seen from the grid of exponent [e] *)

Lemma scaled_add x e k : scaled x (e + k) = (scaled x e / bpow k)%R.
Proof.
  unfold scaled. rewrite bpow_add. field.
  split; apply Rgt_not_eq, bpow_pos.
Qed.

Lemma scaled_succ x e : scaled x (e + 1) = (scaled x e / 2)%R.
Proof. rewrite scaled_add. unfold bpow. simpl. lra. Qed.

Lemma scaled_le x y e : (x <= y)%R -> (scaled x e <= scaled y e)%R.
Proof.
  intros H. unfold scaled. pose proof (bpow_pos e).
  apply Rmult_le_compat_r; auto. left. now apply Rinv_0_lt_compat.
Qed.

Lemma located_cell l m u : located l m u -> (IZR m <= u < IZR m + 1)%R.
Proof. destruct l as [|[]]; simpl; lra. Qed.

Lemma loc_of_record m l :
  loc_of_shr_record (shr_record_of_loc m l) = l /\
  shr_m (shr_record_of_loc m l) = m.
Proof. destruct l as [|[]]; split; reflexivity. Qed.

(** *** One shift keeps the location *)

(** One right shift by [shr_1] moves to the grid of [e + 1] and keeps the
    number located: the round and sticky bits record where it lies. *)
Lemma shr_1_located mrs e x :
  0 <= shr_m mrs ->
  located (loc_of_shr_record mrs) (shr_m mrs) (scaled x e) ->
  0 <= shr_m (shr_1 mrs) /\
  located (loc_of_shr_record (shr_1 mrs)) (shr_m (shr_1 mrs)) (scaled x (e + 1)).
Proof.
  rewrite scaled_succ. generalize (scaled x e). intros u.
  destruct mrs as [m r s]. cbn [shr_m].
  intros Hm H.
  destruct m as [|p|p]; [ | | lia ].
  - destruct r, s; simpl in *; split; try lia; lra.
  - destruct p as [p|p|].
    + assert (E : IZR (Z.pos p~1) = (2 * IZR (Z.pos p) + 1)%R)
        by (rewrite IZR_POS_xI; lra).
      destruct r, s; simpl loc_of_shr_record in *; cbn [shr_1 shr_m orb located] in *;
        split; try lia; rewrite E in H; lra.
    + assert (E : IZR (Z.pos p~0) = (2 * IZR (Z.pos p))%R)
        by (rewrite IZR_POS_xO; lra).
      destruct r, s; simpl loc_of_shr_record in *; cbn [shr_1 shr_m orb located] in *;
        split; try lia; rewrite E in H; lra.
    + destruct r, s; simpl in *; split; try lia; lra.
Qed.

Lemma iter_pos_located (n : positive) : forall mrs e x,
  0 <= shr_m mrs ->
  located (loc_of_shr_record mrs) (shr_m mrs) (scaled x e) ->
  0 <= shr_m (SpecFloat.iter_pos shr_1 n mrs) /\
  located (loc_of_shr_record (SpecFloat.iter_pos shr_1 n mrs))
          (shr_m (SpecFloat.iter_pos shr_1 n mrs)) (scaled x (e + Z.pos n)).
Proof.
  induction n as [n IH|n IH|]; intros mrs e x Hm H; cbn [SpecFloat.iter_pos].
  - destruct (shr_1_located _ _ _ Hm H) as [Hm1 H1].
    destruct (IH _ _ _ Hm1 H1) as [Hm2 H2].
    destruct (IH _ _ _ Hm2 H2) as [Hm3 H3].
    replace (e + Z.pos n~1) with (e + 1 + Z.pos n + Z.pos n) by lia. auto.
  - destruct (IH _ _ _ Hm H) as [Hm2 H2].
    destruct (IH _ _ _ Hm2 H2) as [Hm3 H3].
    replace (e + Z.pos n~0) with (e + Z.pos n + Z.pos n) by lia. auto.
  - now apply shr_1_located.
Qed.

Lemma shr_located mrs e n x :
  0 <= shr_m mrs ->
  located (loc_of_shr_record mrs) (shr_m mrs) (scaled x e) ->
  snd (shr mrs e n) = e + Z.max 0 n /\
  0 <= shr_m (fst (shr mrs e n)) /\
  located (loc_of_shr_record (fst (shr mrs e n)))
          (shr_m (fst (shr mrs e n))) (scaled x (e + Z.max 0 n)).
Proof.
  intros Hm H. destruct n as [|p|p]; cbn [shr fst snd].
  - rewrite Z.add_0_r. auto.
  - replace (Z.max 0 (Z.pos p)) with (Z.pos p) by lia.
    split; [ reflexivity | now apply iter_pos_located ].
  - replace (Z.max 0 (Z.neg p)) with 0 by lia. rewrite Z.add_0_r. auto.
Qed.

(** *** Binary digits and magnitude *)

Lemma digits2_pos_bounds p :
  2 ^ (Z.pos (digits2_pos p) - 1) <= Z.pos p < 2 ^ Z.pos (digits2_pos p).
Proof.
  induction p as [p IH|p IH|]; cbn [digits2_pos].
  - rewrite Pos2Z.inj_succ.
    replace (Z.succ (Z.pos (digits2_pos p)) - 1) with (Z.succ (Z.pos (digits2_pos p) - 1)) by lia.
    rewrite !Z.pow_succ_r by lia. lia.
  - rewrite Pos2Z.inj_succ.
    replace (Z.succ (Z.pos (digits2_pos p)) - 1) with (Z.succ (Z.pos (digits2_pos p) - 1)) by lia.
    rewrite !Z.pow_succ_r by lia. lia.
  - simpl. lia.
Qed.

Lemma Zdigits2_bounds m :
  0 < m -> 2 ^ (Zdigits2 m - 1) <= m < 2 ^ Zdigits2 m /\ 0 < Zdigits2 m.
Proof.
  destruct m as [|p|p]; try lia. intros _. cbn [Zdigits2].
  split; [ apply digits2_pos_bounds | lia ].
Qed.

Lemma mag_le x y kx ky :
  mag_is x kx -> mag_is y ky -> (x <= y)%R -> kx <= ky.
Proof.
  intros [Hx _] [_ Hy] Hxy.
  assert (H : (bpow (kx - 1) < bpow ky)%R) by lra.
  apply bpow_lt_inv in H. lia.
Qed.

Lemma mag_unique x k k' : mag_is x k -> mag_is x k' -> k = k'.
Proof.
  intros H H'.
  pose proof (mag_le _ _ _ _ H H' (Rle_refl x)).
  pose proof (mag_le _ _ _ _ H' H (Rle_refl x)). lia.
Qed.

Lemma scaled_mul x e : (scaled x e * bpow e)%R = x.
Proof. unfold scaled. field. apply Rgt_not_eq, bpow_pos. Qed.

Lemma scaled_lt_bpow x e k : (x < bpow k)%R -> (scaled x e < bpow (k - e))%R.
Proof.
  intros H. replace k with (k - e + e) in H by ring. rewrite bpow_add in H.
  rewrite <- (scaled_mul x e) in H. pose proof (bpow_pos e). nra.
Qed.

Lemma scaled_ge_bpow x e k : (bpow k <= x)%R -> (bpow (k - e) <= scaled x e)%R.
Proof.
  intros H. replace k with (k - e + e) in H by ring. rewrite bpow_add in H.
  rewrite <- (scaled_mul x e) in H. pose proof (bpow_pos e). nra.
Qed.

(** The magnitude of a located number is read off a positive mantissa. *)
Lemma located_mag l m e x :
  0 < m -> located l m (scaled x e) -> mag_is x (Zdigits2 m + e).
Proof.
  intros Hm H. apply located_cell in H.
  destruct (Zdigits2_bounds m Hm) as [[Hlo Hhi] Hd].
  assert (Hlo' : (bpow (Zdigits2 m - 1) <= scaled x e)%R).
  { rewrite bpow_IZR by lia. apply IZR_le in Hlo. lra. }
  assert (Hhi' : (scaled x e < bpow (Zdigits2 m))%R).
  { rewrite bpow_IZR by lia.
    assert (m + 1 <= 2 ^ Zdigits2 m) as Hi by lia.
    apply IZR_le in Hi. rewrite plus_IZR in Hi. lra. }
  unfold mag_is. pose proof (scaled_mul x e) as Ex.
  replace (Zdigits2 m + e - 1) with (Zdigits2 m - 1 + e) by ring.
  rewrite !bpow_add. pose proof (bpow_pos e). split; nra.
Qed.

Lemma fexp_fexp64 k : fexp prec emax k = fexp64 k.
Proof. reflexivity. Qed.

(** *** The first shift of [binary_round_aux] lands on the canonical
    exponent and keeps the location *)

Lemma shr_fexp_located m e l x k :
  0 <= m -> located l m (scaled x e) -> mag_is x k -> e <= fexp64 k ->
  exists mrs,
    shr_fexp prec emax m e l = (mrs, fexp64 k) /\ 0 <= shr_m mrs /\
    located (loc_of_shr_record mrs) (shr_m mrs) (scaled x (fexp64 k)).
Proof.
  intros Hm H Hmag He. unfold shr_fexp. rewrite fexp_fexp64.
  destruct (loc_of_record m l) as [El Em].
  set (r0 := shr_record_of_loc m l) in *.
  set (n := fexp64 (Zdigits2 m + e) - e).
  assert (Hn : e + Z.max 0 n = fexp64 k).
  { destruct (Z.eq_dec m 0) as [-> | Hne].
    - subst n. cbn [Zdigits2].
      apply located_cell in H.
      assert (Hx : (x < bpow e)%R).
      { rewrite <- (scaled_mul x e). pose proof (bpow_pos e).
        change (IZR 0) with 0%R in H. nra. }
      destruct Hmag as [Hlo _].
      assert (Hk : (bpow (k - 1) < bpow e)%R) by lra.
      apply bpow_lt_inv in Hk. unfold fexp64 in *. lia.
    - assert (Hpos : 0 < m) by lia.
      pose proof (located_mag _ _ _ _ Hpos H) as Hmag'.
      pose proof (mag_unique _ _ _ Hmag' Hmag) as Ek.
      subst n. rewrite Ek. lia. }
  destruct (shr_located r0 e n x) as (E1 & E2 & E3).
  { rewrite Em. exact Hm. }
  { rewrite El, Em. exact H. }
  exists (fst (shr r0 e n)). rewrite Hn in *. repeat split; auto.
  rewrite <- E1. apply surjective_pairing.
Qed.

(** *** The second half of [binary_round_aux]: renormalise and pack *)

Lemma binary_round_aux_finish m e l :
  binary_round_aux prec emax false m e l =
  let r := shr_fexp prec emax m e l in
  finish (round_nearest_even (shr_m (fst r)) (loc_of_shr_record (fst r))) (snd r).
Proof.
  unfold binary_round_aux, finish. cbv zeta.
  destruct (shr_fexp prec emax m e l). reflexivity.
Qed.

Lemma finish_zero e : -1074 <= e -> finish 0 e = S754_zero false.
Proof.
  intros He. unfold finish, shr_fexp. rewrite fexp_fexp64. cbn [Zdigits2].
  unfold fexp64.
  destruct (Z.max (0 + e - 53) (-1074) - e) eqn:E; try reflexivity. lia.
Qed.

Lemma finish_small p e :
  Z.pos p < 9007199254740992 -> -1074 <= e ->
  finish (Z.pos p) e =
  if e <=? 971 then S754_finite false p e else S754_infinity false.
Proof.
  intros Hp He. unfold finish, shr_fexp. rewrite fexp_fexp64.
  destruct (Zdigits2_bounds (Z.pos p) eq_refl) as [[Hlo _] Hd].
  assert (Hd53 : Zdigits2 (Z.pos p) <= 53).
  { destruct (Z_le_gt_dec (Zdigits2 (Z.pos p)) 53) as [|Hgt]; auto.
    assert (2 ^ 53 <= 2 ^ (Zdigits2 (Z.pos p) - 1))
      by (apply Z.pow_le_mono_r; lia).
    change (2 ^ 53) with 9007199254740992 in *. lia. }
  unfold fexp64.
  destruct (Z.max (Zdigits2 (Z.pos p) + e - 53) (-1074) - e) eqn:E;
    try reflexivity. lia.
Qed.

Lemma finish_carry e :
  -1074 <= e ->
  finish 9007199254740992 e =
  if e + 1 <=? 971 then S754_finite false 4503599627370496 (e + 1)
  else S754_infinity false.
Proof.
  intros He. unfold finish, shr_fexp. rewrite fexp_fexp64.
  change (Zdigits2 9007199254740992) with 54. unfold fexp64.
  replace (Z.max (54 + e - 53) (-1074) - e) with 1 by lia.
  reflexivity.
Qed.

(** The order key of a packed result. *)
Lemma finish_ord m e :
  0 <= m <= 9007199254740992 -> -1074 <= e ->
  sf_is_nan (finish m e) = false /\
  ((m = 0 /\ ord (finish m e) = (0, 0, 0)) \/
   (0 < m < 9007199254740992 /\ e <= 971 /\ ord (finish m e) = (1, e, m)) \/
   (0 < m < 9007199254740992 /\ 971 < e /\ ord (finish m e) = (2, 0, 0)) \/
   (m = 9007199254740992 /\ e + 1 <= 971 /\
    ord (finish m e) = (1, e + 1, 4503599627370496)) \/
   (m = 9007199254740992 /\ 971 < e + 1 /\ ord (finish m e) = (2, 0, 0))).
Proof.
  intros Hm He.
  destruct (Z.eq_dec m 0) as [-> | Hne].
  { rewrite finish_zero by assumption. split; auto. }
  destruct (Z.eq_dec m 9007199254740992) as [-> | Hne'].
  { rewrite finish_carry by assumption.
    destruct (Z.leb_spec (e + 1) 971); split; auto.
    - right. right. right. left. auto.
    - right. right. right. right. auto. }
  destruct m as [|p|p]; try lia.
  rewrite finish_small by lia.
  destruct (Z.leb_spec e 971); split; auto.
  - right. left. repeat split; auto; lia.
  - right. right. left. repeat split; auto; lia.
Qed.

(** Splits the five shapes of a packed result given by [finish_ord]. *)
Ltac finish_cases H :=
  destruct H as
    [[? ->] | [(? & ? & ->) | [(? & ? & ->) | [(? & ? & ->) | (? & ? & ->)]]]].

(** *** Rounding to nearest, ties to even, on the canonical grid *)

Lemma round_nearest_even_range m l :
  m <= round_nearest_even m l <= m + 1.
Proof. destruct l as [|[]]; simpl; try destruct (Z.even m); lia. Qed.

(** A rounded mantissa has at most 53 bits, or is [2^53]; above the
    smallest exponent it has at least 53 bits. *)
Lemma rounded_bounds x m1 e :
  rounded x m1 e ->
  0 <= m1 <= 9007199254740992 /\ -1074 <= e /\
  (-1074 < e -> 4503599627370496 <= m1).
Proof.
  intros (k & m & l & [Hlo Hhi] & -> & Hm & Hloc & ->).
  pose proof (round_nearest_even_range m l) as Hr.
  apply located_cell in Hloc.
  assert (Hu : (scaled x (fexp64 k) < bpow 53)%R).
  { apply scaled_lt_bpow with (e := fexp64 k) in Hhi.
    assert (k - fexp64 k <= 53) as Hk by (unfold fexp64; lia).
    apply bpow_le in Hk. lra. }
  rewrite bpow_IZR in Hu by lia.
  assert (Hm53 : m < 2 ^ 53) by (apply lt_IZR; lra).
  change (2 ^ 53) with 9007199254740992 in Hm53.
  repeat split; try (unfold fexp64; lia).
  intros He.
  assert (Ek : fexp64 k = k - 53) by (unfold fexp64 in *; lia).
  apply scaled_ge_bpow with (e := fexp64 k) in Hlo.
  replace (k - 1 - fexp64 k) with 52 in Hlo by lia.
  rewrite bpow_IZR in Hlo by lia.
  assert (Hm52 : 2 ^ 52 < m + 1) by (apply lt_IZR; rewrite plus_IZR; lra).
  change (2 ^ 52) with 4503599627370496 in Hm52. lia.
Qed.

Lemma round_nearest_even_mono m lx ly ux uy :
  located lx m ux -> located ly m uy -> (ux <= uy)%R ->
  round_nearest_even m lx <= round_nearest_even m ly.
Proof.
  destruct lx as [|[]], ly as [|[]]; simpl; intros Hx Hy Hxy;
    try destruct (Z.even m); try lia; exfalso; lra.
Qed.

(** On one grid, rounding is monotone. *)
Lemma rounded_same_grid x y mx my e :
  (x <= y)%R -> rounded x mx e -> rounded y my e -> mx <= my.
Proof.
  intros Hxy (kx & m & l & _ & _ & _ & Hl & ->) (ky & m' & l' & _ & _ & _ & Hl' & ->).
  pose proof (scaled_le _ _ e Hxy) as Hu.
  pose proof (located_cell _ _ _ Hl) as Hc.
  pose proof (located_cell _ _ _ Hl') as Hc'.
  assert (Hmm : m < m' + 1) by (apply lt_IZR; rewrite plus_IZR; lra).
  pose proof (round_nearest_even_range m l).
  pose proof (round_nearest_even_range m' l').
  destruct (Z.eq_dec m m') as [<- | Hne]; [ | lia ].
  eapply round_nearest_even_mono; eauto.
Qed.

Lemma fexp64_mono a b : a <= b -> fexp64 a <= fexp64 b.
Proof. unfold fexp64. lia. Qed.

(** Rounding is monotone. *)
Lemma rounded_mono x y mx ex my ey :
  (x <= y)%R -> rounded x mx ex -> rounded y my ey ->
  SFleb (finish mx ex) (finish my ey) = true.
Proof.
  intros Hxy Hx Hy.
  destruct (rounded_bounds _ _ _ Hx) as (Bx & Ex & Nx).
  destruct (rounded_bounds _ _ _ Hy) as (By & Ey & Ny).
  assert (Hee : ex <= ey).
  { destruct Hx as (kx & _ & _ & Hkx & -> & _).
    destruct Hy as (ky & _ & _ & Hky & -> & _).
    apply fexp64_mono. eapply mag_le; eauto. }
  assert (Hgrid : ex = ey -> mx <= my).
  { intros <-. eapply rounded_same_grid; eauto. }
  destruct (finish_ord mx ex Bx Ex) as [Nanx Ox].
  destruct (finish_ord my ey By Ey) as [Nany Oy].
  apply SFleb_ord; auto. unfold lex_lt.
  finish_cases Ox; finish_cases Oy; lia.
Qed.

(** [binary_round_aux] rounds the located number. *)
Lemma binary_round_aux_rounded m e l x k :
  0 <= m -> located l m (scaled x e) -> mag_is x k -> e <= fexp64 k ->
  exists m1,
    rounded x m1 (fexp64 k) /\
    binary_round_aux prec emax false m e l = finish m1 (fexp64 k).
Proof.
  intros Hm Hl Hk He.
  destruct (shr_fexp_located m e l x k Hm Hl Hk He) as (mrs & E & Hm' & Hl').
  rewrite binary_round_aux_finish, E. cbn [fst snd].
  eexists. split; [ | reflexivity ].
  exists k, (shr_m mrs), (loc_of_shr_record mrs). auto.
Qed.

(** *** Valid floats are their own rounding *)

Lemma F2R_pos m e : (0 < F2R m e)%R.
Proof.
  unfold F2R. pose proof (bpow_pos e).
  assert (0 < IZR (Z.pos m))%R by (apply IZR_lt; lia). nra.
Qed.

Lemma scaled_F2R m e : scaled (F2R m e) e = IZR (Z.pos m).
Proof. unfold scaled, F2R. field. apply Rgt_not_eq, bpow_pos. Qed.

Lemma F2R_mag m e : mag_is (F2R m e) (Zdigits2 (Z.pos m) + e).
Proof.
  apply located_mag with (l := loc_Exact); [ lia | ].
  simpl. apply scaled_F2R.
Qed.

Lemma valid_canonical m e :
  valid_binary (S754_finite false m e) = true ->
  fexp64 (Zdigits2 (Z.pos m) + e) = e /\ e <= 971 /\
  Z.pos m < 9007199254740992.
Proof.
  unfold SpecFloat.valid_binary, SpecFloat.bounded, SpecFloat.canonical_mantissa.
  rewrite fexp_fexp64. intros H. apply andb_true_iff in H as [H1 H2].
  apply Z.eqb_eq in H1. apply Z.leb_le in H2.
  change (emax - prec) with 971 in H2. cbn [Zdigits2]. repeat split; auto.
  destruct (Zdigits2_bounds (Z.pos m) eq_refl) as [[Hlo _] Hd].
  cbn [Zdigits2] in *.
  assert (Hd53 : Z.pos (digits2_pos m) <= 53) by (unfold fexp64 in H1; lia).
  destruct (Z_lt_le_dec (Z.pos m) 9007199254740992) as [|Hge]; auto.
  pose proof (digits2_pos_bounds m) as [_ Hhi].
  assert (2 ^ Z.pos (digits2_pos m) <= 2 ^ 53) by (apply Z.pow_le_mono_r; lia).
  change (2 ^ 53) with 9007199254740992 in *. lia.
Qed.

(** A valid positive float is the rounding of its own value. *)
Lemma valid_rounded m e :
  valid_binary (S754_finite false m e) = true ->
  rounded (F2R m e) (Z.pos m) e /\
  finish (Z.pos m) e = S754_finite false m e.
Proof.
  intros Hv. destruct (valid_canonical m e Hv) as (Hc & He & Hm).
  split.
  - exists (Zdigits2 (Z.pos m) + e), (Z.pos m), loc_Exact.
    repeat split; auto; try lia; try apply F2R_mag.
    simpl. apply scaled_F2R.
  - rewrite finish_small; auto.
    + destruct (Z.leb_spec e 971); auto. lia.
    + unfold fexp64 in Hc. lia.
Qed.

(** *** The order of valid floats is the order of their values *)

Lemma F2R_bounds m e :
  (bpow (Zdigits2 (Z.pos m) - 1 + e) <= F2R m e < bpow (Zdigits2 (Z.pos m) + e))%R.
Proof.
  pose proof (F2R_mag m e) as H. unfold mag_is in H.
  replace (Zdigits2 (Z.pos m) + e - 1) with (Zdigits2 (Z.pos m) - 1 + e) in H by ring.
  exact H.
Qed.

(** [SFleb] on valid positive floats implies the order of their values. *)
Lemma SFleb_F2R m1 e1 m2 e2 :
  valid_binary (S754_finite false m1 e1) = true ->
  valid_binary (S754_finite false m2 e2) = true ->
  SFleb (S754_finite false m1 e1) (S754_finite false m2 e2) = true ->
  (F2R m1 e1 <= F2R m2 e2)%R.
Proof.
  intros V1 V2 H. apply SFleb_ord in H; auto. unfold lex_lt in H. cbn [ord] in H.
  destruct (valid_canonical _ _ V1) as (C1 & _ & M1).
  destruct (valid_canonical _ _ V2) as (C2 & _ & M2).
  destruct (Z.eq_dec e1 e2) as [<- | Hne].
  - assert (Hm : Z.pos m1 <= Z.pos m2) by lia.
    apply IZR_le in Hm. unfold F2R. pose proof (bpow_pos e1). nra.
  - assert (He : e1 < e2) by lia.
    pose proof (F2R_bounds m1 e1) as [_ H1].
    pose proof (F2R_bounds m2 e2) as [H2 _].
    destruct (Zdigits2_bounds (Z.pos m1) eq_refl) as [_ D1].
    assert (Zdigits2 (Z.pos m1) + e1 <= Zdigits2 (Z.pos m2) - 1 + e2) as Hk
      by (unfold fexp64 in *; lia).
    apply bpow_le in Hk. lra.
Qed.

(** *** Multiplication by a constant at most one *)

Lemma Zdigits2_ge m k : 0 <= k -> 2 ^ k <= m -> k < Zdigits2 m.
Proof.
  intros Hk Hm.
  assert (0 < 2 ^ k) by (apply Z.pow_pos_nonneg; lia).
  destruct (Zdigits2_bounds m ltac:(lia)) as [[_ Hhi] Hd].
  destruct (Z_lt_le_dec k (Zdigits2 m)) as [|Hle]; auto.
  assert (2 ^ Zdigits2 m <= 2 ^ k) by (apply Z.pow_le_mono_r; lia). lia.
Qed.

(** The product of positive floats, the second with a 53-bit mantissa, is
    the rounding of the exact product. *)
Lemma SFmul_rounded m e mc ec :
  4503599627370496 <= Z.pos mc ->
  exists m1 e1,
    rounded (F2R m e * F2R mc ec) m1 e1 /\
    SFmul prec emax (S754_finite false m e) (S754_finite false mc ec) =
    finish m1 e1.
Proof.
  intros Hmc. cbn [SFmul xorb].
  set (x := (F2R m e * F2R mc ec)%R).
  assert (Hl : located loc_Exact (Z.pos (m * mc)) (scaled x (e + ec))).
  { simpl. unfold scaled, x, F2R. rewrite Pos2Z.inj_mul, mult_IZR, bpow_add.
    field. split; apply Rgt_not_eq, bpow_pos. }
  pose proof (located_mag loc_Exact (Z.pos (m * mc)) (e + ec) x eq_refl Hl) as Hk.
  destruct (binary_round_aux_rounded (Z.pos (m * mc)) (e + ec) loc_Exact x _
              ltac:(lia) Hl Hk) as (m1 & Hr & E).
  - assert (52 < Zdigits2 (Z.pos (m * mc))).
    { apply Zdigits2_ge; [ lia | ].
      change (2 ^ 52) with 4503599627370496. nia. }
    unfold fexp64. lia.
  - eauto.
Qed.

Lemma SFmul_le_self m e mc ec :
  valid_binary (S754_finite false m e) = true ->
  4503599627370496 <= Z.pos mc -> (F2R mc ec <= 1)%R ->
  SFleb (SFmul prec emax (S754_finite false m e) (S754_finite false mc ec))
        (S754_finite false m e) = true.
Proof.
  intros Hv Hmc Hc.
  destruct (SFmul_rounded m e mc ec Hmc) as (m1 & e1 & Hr & ->).
  destruct (valid_rounded m e Hv) as [Hr' E]. rewrite <- E.
  apply (rounded_mono (F2R m e * F2R mc ec) (F2R m e)); auto.
  pose proof (F2R_pos m e). pose proof (F2R_pos mc ec). nra.
Qed.

(** *** Division *)

(** [new_location] locates [q + r / m2] in the cell of [q]. *)
Lemma new_location_located m2 r q u :
  0 < m2 -> 0 <= r < m2 -> u = (IZR q + IZR r / IZR m2)%R ->
  located (new_location m2 r) q u.
Proof.
  intros Hm2 Hr ->.
  assert (Hm2' : (0 < IZR m2)%R) by (apply IZR_lt; lia).
  set (rho := (IZR r / IZR m2)%R).
  assert (Erho : (rho * IZR m2 = IZR r)%R) by (unfold rho; field; lra).
  assert (Hcases :
    (r = 0 /\ new_location m2 r = loc_Exact) \/
    (r <> 0 /\ 2 * r < m2 /\ new_location m2 r = loc_Inexact Lt) \/
    (r <> 0 /\ 2 * r = m2 /\ new_location m2 r = loc_Inexact Eq) \/
    (r <> 0 /\ m2 < 2 * r /\ new_location m2 r = loc_Inexact Gt)).
  { unfold new_location. destruct (Z.even m2) eqn:Ev.
    - unfold new_location_even.
      change (IntDef.Z.eqb r 0) with (r =? 0).
      destruct (Z.eqb_spec r 0) as [-> | Hr0]; [ now left | right ].
      destruct (Z.compare_spec (2 * r) m2) as [E | E | E]; auto.
    - unfold new_location_odd.
      change (IntDef.Z.eqb r 0) with (r =? 0).
      destruct (Z.eqb_spec r 0) as [-> | Hr0]; [ now left | right ].
      assert (Hodd : 2 * r <> m2).
      { intros <-. rewrite Z.even_mul in Ev. discriminate. }
      destruct (Z.compare_spec (2 * r + 1) m2) as [E | E | E].
      + left. repeat split; auto; lia.
      + left. repeat split; auto; lia.
      + right. right. repeat split; auto; lia. }
  destruct Hcases as [[-> ->] | [(Hr0 & E & ->) | [(Hr0 & E & ->) | (Hr0 & E & ->)]]];
    cbn [located].
  - replace rho with 0%R; [ lra | ].
    change (IZR 0) with 0%R in Erho. nra.
  - assert (Hrpos : (0 < IZR r)%R) by (apply IZR_lt; lia).
    apply IZR_lt in E. rewrite mult_IZR in E. nra.
  - assert (Hrpos : (0 < IZR r)%R) by (apply IZR_lt; lia).
    apply (f_equal IZR) in E. rewrite mult_IZR in E.
    assert (rho = / 2)%R as -> by nra. reflexivity.
  - assert (Hrlt : (IZR r < IZR m2)%R) by (apply IZR_lt; lia).
    apply IZR_lt in E. rewrite mult_IZR in E. nra.
Qed.

(** [SFdiv_core_binary] locates the exact quotient, on a grid at least as
    fine as the canonical one. *)
Lemma SFdiv_core_located m1 e1 m2 e2 :
  let x := (F2R m1 e1 / F2R m2 e2)%R in
  let '(q, e', l) := SFdiv_core_binary prec emax (Z.pos m1) e1 (Z.pos m2) e2 in
  0 <= q /\ located l q (scaled x e') /\
  exists k, mag_is x k /\ e' <= fexp64 k.
Proof.
  intros x. unfold SFdiv_core_binary. rewrite fexp_fexp64.
  set (d1 := Zdigits2 (Z.pos m1)). set (d2 := Zdigits2 (Z.pos m2)).
  set (k0 := d1 + e1 - (d2 + e2)).
  set (e' := Z.min (fexp64 k0) (e1 - e2)).
  set (s := e1 - e2 - e').
  assert (Hs : 0 <= s) by (unfold s, e'; lia).
  set (m' := match s with
             | 0 => Z.pos m1
             | Z.pos _ => Z.shiftl (Z.pos m1) s
             | Z.neg _ => 0
             end).
  assert (Em' : m' = Z.pos m1 * 2 ^ s).
  { unfold m'. destruct s as [|p|p] eqn:Es; try lia.
    now rewrite Z.shiftl_mul_pow2 by lia. }
  pose proof (Z.div_eucl_eq m' (Z.pos m2) ltac:(lia)) as Hdiv.
  pose proof (Z.mod_pos_bound m' (Z.pos m2) ltac:(lia)) as Hmod.
  unfold Z.modulo, Z.div in *.
  destruct (Z.div_eucl m' (Z.pos m2)) as [q r].
  assert (Hpow : 0 < 2 ^ s) by (apply Z.pow_pos_nonneg; lia).
  assert (Hq : 0 <= q) by nia.
  assert (X1 := F2R_pos m1 e1). assert (X2 := F2R_pos m2 e2).
  assert (Hm2 : (0 < IZR (Z.pos m2))%R) by (apply IZR_lt; lia).
  split; [ exact Hq | split ].
  - apply new_location_located; try lia.
    assert (Eq : (IZR q + IZR r / IZR (Z.pos m2) = IZR m' / IZR (Z.pos m2))%R).
    { rewrite Hdiv, plus_IZR, mult_IZR. field. lra. }
    rewrite Eq, Em', mult_IZR, <- bpow_IZR by lia.
    unfold scaled, x, F2R.
    replace e1 with (e2 + e' + s) by (unfold s; ring).
    rewrite !bpow_add. field.
    repeat split; try apply Rgt_not_eq, bpow_pos. lra.
  - pose proof (F2R_bounds m1 e1) as [L1 U1].
    pose proof (F2R_bounds m2 e2) as [L2 U2].
    fold d1 in L1, U1. fold d2 in L2, U2.
    assert (Ex : (x * F2R m2 e2 = F2R m1 e1)%R) by (unfold x; field; lra).
    assert (Hlo : (bpow (k0 - 1) < x)%R).
    { assert (E : (bpow (k0 - 1) * bpow (d2 + e2) = bpow (d1 - 1 + e1))%R).
      { rewrite <- bpow_add. f_equal. unfold k0. ring. }
      pose proof (bpow_pos (d2 + e2)). pose proof (bpow_pos (k0 - 1)). nra. }
    assert (Hhi : (x < bpow (k0 + 1))%R).
    { assert (E : (bpow (k0 + 1) * bpow (d2 - 1 + e2) = bpow (d1 + e1))%R).
      { rewrite <- bpow_add. f_equal. unfold k0. ring. }
      pose proof (bpow_pos (d2 - 1 + e2)). pose proof (bpow_pos (k0 + 1)).
      assert (0 < x)%R by (unfold x; apply Rdiv_lt_0_compat; lra). nra. }
    destruct (Rlt_le_dec x (bpow k0)) as [Hlt | Hge].
    + exists k0. split; [ split; lra | unfold e'; lia ].
    + exists (k0 + 1). split.
      * unfold mag_is. replace (k0 + 1 - 1) with k0 by ring. lra.
      * pose proof (fexp64_mono k0 (k0 + 1) ltac:(lia)). unfold e'. lia.
Qed.

(** The quotient of positive floats is the rounding of the exact quotient. *)
Lemma SFdiv_rounded m1 e1 m2 e2 :
  exists mq eq,
    rounded (F2R m1 e1 / F2R m2 e2) mq eq /\
    SFdiv prec emax (S754_finite false m1 e1) (S754_finite false m2 e2) =
    finish mq eq.
Proof.
  cbn [SFdiv xorb].
  pose proof (SFdiv_core_located m1 e1 m2 e2) as H. cbv zeta in H.
  destruct (SFdiv_core_binary prec emax (Z.pos m1) e1 (Z.pos m2) e2) as [[q e'] l].
  destruct H as (Hq & Hl & k & Hk & He).
  destruct (binary_round_aux_rounded q e' l _ k Hq Hl Hk He) as (mq & Hr & E).
  eauto.
Qed.

(** Division is antitone in a positive divisor. *)
Lemma SFdiv_antitone m e m1 e1 m2 e2 :
  valid_binary (S754_finite false m1 e1) = true ->
  valid_binary (S754_finite false m2 e2) = true ->
  SFleb (S754_finite false m1 e1) (S754_finite false m2 e2) = true ->
  SFleb (SFdiv prec emax (S754_finite false m e) (S754_finite false m2 e2))
        (SFdiv prec emax (S754_finite false m e) (S754_finite false m1 e1)) = true.
Proof.
  intros V1 V2 Hle.
  pose proof (SFleb_F2R _ _ _ _ V1 V2 Hle) as Hv.
  destruct (SFdiv_rounded m e m1 e1) as (q1 & k1 & R1 & ->).
  destruct (SFdiv_rounded m e m2 e2) as (q2 & k2 & R2 & ->).
  apply (rounded_mono (F2R m e / F2R m2 e2) (F2R m e / F2R m1 e1)); auto.
  pose proof (F2R_pos m e). pose proof (F2R_pos m1 e1). pose proof (F2R_pos m2 e2).
  unfold Rdiv. apply Rmult_le_compat_l; [ lra | ].
  apply Rinv_le_contravar; lra.
Qed.

(** A quotient of positive finite floats is a non-NaN value at or above
    zero, with its sign bit clear. *)
Lemma finish_nonneg mq eq x :
  rounded x mq eq ->
  sf_is_nan (finish mq eq) = false /\ sf_sign (finish mq eq) = false /\
  SFleb (S754_zero false) (finish mq eq) = true.
Proof.
  intros Hr. destruct (rounded_bounds _ _ _ Hr) as (B & E & _).
  destruct (finish_ord mq eq B E) as [Hn Ho].
  split; [ exact Hn | ]. split.
  - destruct (Z.eq_dec mq 0) as [-> | ?]; [ now rewrite finish_zero | ].
    destruct (Z.eq_dec mq 9007199254740992) as [-> | ?].
    + rewrite finish_carry by assumption. now destruct (_ <=? _).
    + destruct mq as [|p|p]; try lia. rewrite finish_small by lia.
      now destruct (_ <=? _).
  - apply SFleb_ord; auto. unfold lex_lt. cbn [ord].
    finish_cases Ho; lia.
Qed.

End Rounding.

(** ** Monotonicity facts on [float] *)

Module FloatMono.
Import SF Grid F64 FloatOrder FloatSign Rounding.

Local Open Scope float_scope.

Lemma is_finite_spec x :
  is_finite x =
  match Prim2SF x with S754_zero _ | S754_finite _ _ _ => true | _ => false end.
Proof.
  unfold is_finite, is_infinity. rewrite is_nan_spec, FloatAxioms.eqb_spec, abs_spec.
  change (Prim2SF infinity) with (S754_infinity false).
  destruct (Prim2SF x) as [s|s| |s m e]; reflexivity.
Qed.

Lemma ltb_leb_false x y : (x <? y) = true -> (y <=? x) = false.
Proof.
  intros H. destruct (y <=? x) eqn:E; auto.
  apply leb_ltb_false in E. congruence.
Qed.

Lemma SFmul_sign a b :
  SFmul prec emax a b = S754_nan \/
  (sf_is_nan (SFmul prec emax a b) = false /\
   sf_sign (SFmul prec emax a b) = xorb (sf_sign a) (sf_sign b)).
Proof.
  destruct a as [sa|sa| |sa ma ea], b as [sb|sb| |sb mb eb]; cbn [SFmul sf_sign];
    auto.
  apply binary_round_aux_sign.
Qed.

Lemma mul_sign_clear a b : sign_clear a -> sign_clear b -> sign_clear (a * b).
Proof.
  unfold sign_clear. rewrite !get_sign_spec, FloatAxioms.mul_spec.
  unfold SF64mul. intros Ha Hb.
  destruct (SFmul_sign (Prim2SF a) (Prim2SF b)) as [-> | [_ ->]]; auto.
  now rewrite Ha, Hb.
Qed.

Lemma threshold_value :
  Prim2SF FLIGHT_WARNING_THRESHOLD = S754_finite false 7656119366529843 (-53).
Proof. reflexivity. Qed.

Lemma threshold_le_1 : (F2R 7656119366529843 (-53) <= 1)%R.
Proof.
  unfold F2R.
  assert (E : (bpow (-53) * bpow 53 = 1)%R) by (rewrite <- bpow_add; reflexivity).
  rewrite (bpow_IZR 53) in E by lia.
  change (2 ^ 53)%Z with 9007199254740992%Z in E.
  pose proof (bpow_pos (-53)). lra.
Qed.

(** 85% of a non-negative limit does not exceed the limit. *)
Lemma threshold_le_limit (L : float) :
  sign_clear L -> is_nan (L * FLIGHT_WARNING_THRESHOLD) = false ->
  (L * FLIGHT_WARNING_THRESHOLD <=? L) = true.
Proof.
  unfold sign_clear.
  rewrite get_sign_spec, is_nan_spec, FloatAxioms.leb_spec, FloatAxioms.mul_spec.
  unfold SF64mul. rewrite threshold_value.
  pose proof (Prim2SF_valid L) as Hv.
  destruct (Prim2SF L) as [s|s| |s m e]; cbn [sf_sign]; intros Hs Hn;
    try subst s; try reflexivity; try discriminate.
  apply SFmul_le_self; auto; [ lia | apply threshold_le_1 ].
Qed.

Lemma Math_max_0_zero q :
  sf_is_zero (Prim2SF q) = true -> JS.Math_max 0 q = 0.
Proof.
  intros H.
  assert (q = 0 \/ q = neg_zero) as [-> | ->]; [ | reflexivity | reflexivity ].
  destruct (Prim2SF q) as [[]| | |] eqn:E; try discriminate.
  - right. apply Prim2SF_inj. now rewrite E.
  - left. apply Prim2SF_inj. now rewrite E.
Qed.

(** For a finite distance at or above zero, the clamped quotient does not
    grow with the divisor. *)
Lemma clamped_quotient_antitone (d c1 c2 : float) :
  is_finite d = true -> (0 <=? d) = true ->
  (0 <? c1) = true -> (c1 <=? c2) = true ->
  (JS.Math_max 0 (d / c2) <=? JS.Math_max 0 (d / c1)) = true.
Proof.
  rewrite is_finite_spec.
  intros Hfin Hd Hc1 Hle.
  assert (Hc2 : (0 <? c2) = true).
  { destruct (0 <? c2) eqn:E; auto.
    destruct (leb_not_nan _ _ Hle) as [_ N2].
    apply ltb_false_leb in E; auto.
    pose proof (leb_trans _ _ _ Hle E) as C. apply leb_ltb_false in C.
    congruence. }
  pose proof (Prim2SF_valid c1) as V1. pose proof (Prim2SF_valid c2) as V2.
  pose proof (FloatAxioms.div_spec d c1) as D1.
  pose proof (FloatAxioms.div_spec d c2) as D2. unfold SF64div in D1, D2.
  rewrite FloatAxioms.leb_spec, Prim2SF_zero in Hd.
  rewrite FloatAxioms.ltb_spec, Prim2SF_zero in Hc1, Hc2.
  rewrite FloatAxioms.leb_spec in Hle.
  destruct (Prim2SF d) as [sd|sd| |sd md ed]; try discriminate.
  - (* d = ±0 *)
    rewrite !Math_max_0_zero; [ reflexivity | | ].
    + rewrite D1. destruct (Prim2SF c1) as [s|[]| |[] m e]; try discriminate; reflexivity.
    + rewrite D2. destruct (Prim2SF c2) as [s|[]| |[] m e]; try discriminate; reflexivity.
  - destruct sd; [ discriminate | ].
    destruct (Prim2SF c1) as [s1|[]| |[] m1 e1]; try discriminate;
      destruct (Prim2SF c2) as [s2|[]| |[] m2 e2]; try discriminate.
    + (* both infinite *)
      rewrite !Math_max_0_zero; [ reflexivity | now rewrite D1 | now rewrite D2 ].
    + (* c1 finite, c2 = +Infinity *)
      rewrite (Math_max_0_zero (d / c2)) by now rewrite D2.
      destruct (SFdiv_rounded md ed m1 e1) as (q & k & R & E).
      destruct (finish_nonneg _ _ _ R) as (N & S & Z).
      rewrite Math_max_0_sign_clear.
      * rewrite FloatAxioms.leb_spec, D1, E. exact Z.
      * unfold sign_clear. now rewrite get_sign_spec, D1, E.
    + (* both finite *)
      destruct (SFdiv_rounded md ed m1 e1) as (q1 & k1 & R1 & E1).
      destruct (SFdiv_rounded md ed m2 e2) as (q2 & k2 & R2 & E2).
      destruct (finish_nonneg _ _ _ R1) as (N1 & S1 & _).
      destruct (finish_nonneg _ _ _ R2) as (N2 & S2 & _).
      rewrite !Math_max_0_sign_clear.
      * rewrite FloatAxioms.leb_spec, D1, D2. now apply SFdiv_antitone.
      * unfold sign_clear. now rewrite get_sign_spec, D1, E1.
      * unfold sign_clear. now rewrite get_sign_spec, D2, E2.
Qed.

End FloatMono.

(** * The claims *)

Import SF F64 FloatOrder FloatSign.

Lemma planar_host_exact : ecma_exact planar_host.
Proof. repeat split. Qed.

(** ** calculateMaxSpeed *)

Lemma leg_distances_nonempty {host : Host} (waypoints : list waypoint) :
  (2 <= length waypoints)%nat -> leg_distances waypoints <> [].
Proof.
  destruct waypoints as [|a [|b rest]]; simpl; try lia. discriminate.
Qed.

(** Past its guard, [calculateMaxSpeed] is [Math.min] over the legs and the
    clamped quotient. *)
Lemma calculateMaxSpeed_unfold {host : Host} (waypoints : list waypoint)
    (photoInterval : float) :
  (2 <= length waypoints)%nat -> (0 <? photoInterval) = true ->
  calculateMaxSpeed (Some waypoints) (Some photoInterval) =
  SpeedResult
    (JS.Math_max 0 (JS.Math_min (leg_distances waypoints) / photoInterval))
    (JS.Math_min (leg_distances waypoints)).
Proof.
  intros Hlen Hpos. unfold calculateMaxSpeed, JS.not.
  rewrite (pos_truthy _ Hpos), (pos_not_le0 _ Hpos).
  destruct (Nat.ltb_spec (length waypoints) 2); [ lia | reflexivity ].
Qed.

(** The loop of [calculateMaxSpeed] measures the consecutive pairs: the
    [i]-th entry of [distances] is the distance from waypoint [i] to
    waypoint [i + 1], and there is no other entry. *)
Lemma leg_distances_lookup {host : Host} (waypoints : list waypoint) :
  forall (i : nat) (d : float),
    leg_distances waypoints !! i = Some d <->
    exists a b, waypoints !! i = Some a /\ waypoints !! S i = Some b /\
                d = calculateDistance a b.
Proof.
  induction waypoints as [|a rest IH]; intros i d.
  - split; [ discriminate | intros (? & ? & C & _); discriminate ].
  - destruct rest as [|b rest].
    + split; [ discriminate | intros (? & ? & _ & C & _); discriminate ].
    + change (leg_distances (a :: b :: rest))
        with (calculateDistance a b :: leg_distances (b :: rest)).
      destruct i as [|i].
      * cbn. split.
        -- intros [= <-]. now exists a, b.
        -- intros (a' & b' & [= <-] & [= <-] & ->). reflexivity.
      * change ((calculateDistance a b :: leg_distances (b :: rest)) !! S i)
          with (leg_distances (b :: rest) !! i).
        rewrite IH. reflexivity.
Qed.

(** C1: for a waypoint list with at least two waypoints, whose consecutive
    waypoints are at distances at or above zero (a sign-clear number, as a
    distance is), and a photo interval above zero, [calculateMaxSpeed]
    returns as [minDistance] the smallest distance between consecutive
    waypoints (the distance of one consecutive pair, at or below the
    distance of every consecutive pair) and as [maxSpeed] that distance
    divided by the photo interval. *)
Theorem calculateMaxSpeed_min_leg {host : Host} (waypoints : list waypoint)
    (photoInterval : float) :
  (2 <= length waypoints)%nat ->
  (0 <? photoInterval) = true ->
  (forall i a b, waypoints !! i = Some a -> waypoints !! S i = Some b ->
                 (0 <=? calculateDistance a b) = true /\
                 get_sign (calculateDistance a b) = false) ->
  let r := calculateMaxSpeed (Some waypoints) (Some photoInterval) in
  (exists i a b, waypoints !! i = Some a /\ waypoints !! S i = Some b /\
                 minDistance r = calculateDistance a b) /\
  (forall i a b, waypoints !! i = Some a -> waypoints !! S i = Some b ->
                 (minDistance r <=? calculateDistance a b) = true) /\
  maxSpeed r = minDistance r / photoInterval.
Proof.
  intros Hlen Hpos Hpairs r. subst r.
  rewrite calculateMaxSpeed_unfold by assumption. cbn [minDistance maxSpeed].
  assert (Hlegs : Forall (fun d => (0 <=? d) = true /\ get_sign d = false)
                         (leg_distances waypoints)).
  { apply List.Forall_forall. intros d Hd.
    apply list_elem_of_In, list_elem_of_lookup in Hd as [i Hi].
    apply leg_distances_lookup in Hi as (a & b & Ha & Hb & ->). eauto. }
  assert (Hnn : Forall (fun d => is_nan d = false) (leg_distances waypoints)).
  { eapply List.Forall_impl; [ | exact Hlegs ]. intros d [Hd _].
    apply (leb_not_nan _ _ Hd). }
  destruct (Math_min_spec _ (leg_distances_nonempty _ Hlen) Hnn) as [Hin Hle].
  rewrite List.Forall_forall in Hle, Hlegs.
  destruct (Hlegs _ Hin) as [_ Hsign].
  set (m := JS.Math_min (leg_distances waypoints)) in *.
  split; [ | split ].
  - apply list_elem_of_In, list_elem_of_lookup in Hin as [i Hi].
    apply leg_distances_lookup in Hi as (a & b & Ha & Hb & E). now exists i, a, b.
  - intros i a b Ha Hb. apply Hle, list_elem_of_In.
    apply (list_elem_of_lookup_2 _ i), leg_distances_lookup. now exists a, b.
  - apply Math_max_0_sign_clear, div_sign_clear; [ exact Hsign | ].
    now apply pos_sign_clear.
Qed.

Lemma calculateMaxSpeed_min_leg_witness :
  let waypoints := [Waypoint 0 0; Waypoint 0 1; Waypoint 0 3] in
  let r := calculateMaxSpeed (host := planar_host) (Some waypoints) (Some 2) in
  (exists i a b, waypoints !! i = Some a /\ waypoints !! S i = Some b /\
                 minDistance r = calculateDistance (host := planar_host) a b) /\
  (forall i a b, waypoints !! i = Some a -> waypoints !! S i = Some b ->
                 (minDistance r <=? calculateDistance (host := planar_host) a b)
                 = true) /\
  maxSpeed r = minDistance r / 2.
Proof.
  apply (calculateMaxSpeed_min_leg (host := planar_host)
           [Waypoint 0 0; Waypoint 0 1; Waypoint 0 3] 2).
  - simpl. lia.
  - reflexivity.
  - intros [|[|[|i]]] a b Ha Hb; cbn in Ha, Hb; try discriminate;
      injection Ha as <-; injection Hb as <-; split; reflexivity.
Defined.

(** On that path the first pair is the closest: 111195 m, for a maximum
    speed of 55597.5 m/s at one photo every two seconds. *)
Example calculateMaxSpeed_example :
  calculateMaxSpeed (host := planar_host)
    (Some [Waypoint 0 0; Waypoint 0 1; Waypoint 0 3]) (Some 2)
  = SpeedResult 55597.5 111195.
Proof. reflexivity. Qed.

(** C4 (the code at the failing input): when the distance of some leg is
    NaN, as for a waypoint with a non-finite coordinate, the result is
    [{maxSpeed: NaN, minDistance: NaN}]; nothing clamps it to 0. *)
Theorem calculateMaxSpeed_nan_unclamped {host : Host} (waypoints : list waypoint)
    (photoInterval : float) :
  (2 <= length waypoints)%nat ->
  (0 <? photoInterval) = true ->
  Exists (fun d => is_nan d = true) (leg_distances waypoints) ->
  calculateMaxSpeed (Some waypoints) (Some photoInterval) = SpeedResult nan nan.
Proof.
  intros Hlen Hpos Hnan.
  rewrite calculateMaxSpeed_unfold by assumption.
  unfold JS.Math_min. rewrite (min_from_nan _ _ Hnan).
  assert (E : nan / photoInterval = nan).
  { apply Prim2SF_inj. rewrite FloatAxioms.div_spec. reflexivity. }
  rewrite E. reflexivity.
Qed.

Lemma calculateMaxSpeed_nan_unclamped_witness :
  calculateMaxSpeed (host := planar_host)
    (Some [Waypoint 0 1; Waypoint infinity 0; Waypoint infinity 0]) (Some 1) =
  SpeedResult nan nan.
Proof.
  apply (calculateMaxSpeed_nan_unclamped (host := planar_host)).
  - simpl. lia.
  - reflexivity.
  - right. left. reflexivity.
Defined.

(** Overflow is not clamped either: a leg of 111195 m and the smallest
    positive photo interval give [maxSpeed = Infinity]. *)
Lemma calculateMaxSpeed_overflow_unclamped :
  calculateMaxSpeed (host := planar_host)
    (Some [Waypoint 0 0; Waypoint 0 1]) (Some 5e-324) =
  SpeedResult infinity 111195.
Proof. reflexivity. Qed.

(** The guard's sentinel: fewer than two waypoints, or an interval that is
    absent, NaN, zero or negative, give [{maxSpeed: 0, minDistance: 0}]. *)
Lemma calculateMaxSpeed_invalid {host : Host} (waypoints : option (list waypoint))
    (photoInterval : option float) :
  (match waypoints with Some l => (length l < 2)%nat | None => True end \/
   match photoInterval with
   | Some p => JS.truthy p = false \/ (p <=? 0) = true
   | None => True
   end) ->
  calculateMaxSpeed waypoints photoInterval = SpeedResult 0 0.
Proof.
  unfold calculateMaxSpeed, JS.not.
  destruct waypoints as [l|], photoInterval as [p|]; auto.
  intros [H | [H | H]].
  - apply Nat.ltb_lt in H. now rewrite H.
  - rewrite H. cbn. now rewrite orb_true_r.
  - rewrite H. now rewrite orb_true_r.
Qed.

(** ** calculateMissionTime *)

(** C3: for a speed above zero the result is [totalDistance / speed] plus the
    overhead constant, rounded by [Math.round]; for a speed at or below zero
    it is the overhead constant, whatever the distance. *)
Theorem calculateMissionTime_spec (OVERHEAD totalDistance speed : float) :
  ((0 <? speed) = true ->
   calculateMissionTime OVERHEAD totalDistance speed =
   JS.Math_round (totalDistance / speed + OVERHEAD)) /\
  ((speed <=? 0) = true ->
   calculateMissionTime OVERHEAD totalDistance speed = OVERHEAD).
Proof.
  unfold calculateMissionTime, JS.not. split; intros H.
  - now rewrite (pos_truthy _ H), (pos_not_le0 _ H).
  - now rewrite H, orb_true_r.
Qed.

Lemma calculateMissionTime_spec_witness :
  calculateMissionTime 30 1000 3 = 363 /\
  calculateMissionTime 30 1000 0 = 30 /\
  calculateMissionTime 30 1000 (-2) = 30.
Proof.
  pose proof (calculateMissionTime_spec 30 1000 3) as [H3 _].
  pose proof (calculateMissionTime_spec 30 1000 0) as [_ H0].
  pose proof (calculateMissionTime_spec 30 1000 (-2)) as [_ Hn].
  rewrite H3, H0, Hn by reflexivity.
  split; [ reflexivity | split; reflexivity ].
Defined.

(** [Math.round] on ties and near zero, as ECMA-262 has it. *)
Example Math_round_examples :
  JS.Math_round 2.5 = 3 /\ JS.Math_round (-2.5) = -2 /\
  JS.Math_round 0.4 = 0 /\ JS.Math_round (-0.5) = neg_zero /\
  JS.Math_round 0.49999999999999994 = 0 /\
  JS.Math_round nan = nan /\ JS.Math_round infinity = infinity.
Proof. repeat split; reflexivity. Qed.

(** ** calculateFootprint *)

(** The loop over the corners returns the destinations of all of them, or
    throws with the first [turf.destination] that throws. *)
Lemma corner_coords_returns {host : Host} (centerPt : coord) (heading : float)
    (grounds : list (float * float)) :
  forall coords,
    corner_coords centerPt heading grounds = Returns coords <->
    destinations centerPt heading grounds coords.
Proof.
  unfold destinations.
  induction grounds as [|[dist angle] rest IH]; intros coords; cbn [corner_coords].
  - split; [ intros [= <-]; constructor | intros H; now inversion H ].
  - cbv zeta. unfold mbind, outcome_bind, mret, outcome_ret.
    destruct (turf_destination centerPt (dist / 1000) (heading + angle))
      as [dest|] eqn:Ed.
    + destruct (corner_coords centerPt heading rest) as [l|] eqn:El.
      * split.
        -- intros [= <-]. constructor; [ exact Ed | now apply IH ].
        -- intros H. inversion H as [|? d ? l' Hd Hl]; subst.
           rewrite Ed in Hd. injection Hd as <-.
           apply IH in Hl. now injection Hl as <-.
      * split; [ discriminate | ].
        intros H. inversion H as [|? d ? l' Hd Hl]; subst.
        apply IH in Hl. discriminate.
    + split; [ discriminate | ].
      intros H. inversion H as [|? d ? l' Hd Hl]; subst. congruence.
Qed.

Lemma corner_coords_throws {host : Host} (centerPt : coord) (heading : float)
    (grounds : list (float * float)) :
  corner_coords centerPt heading grounds = Throws <->
  Exists (fun '(dist, angle) =>
            turf_destination centerPt (dist / 1000) (heading + angle) = Throws)
         grounds.
Proof.
  induction grounds as [|[dist angle] rest IH]; cbn [corner_coords].
  - split; [ discriminate | intros H; inversion H ].
  - cbv zeta. unfold mbind, outcome_bind, mret, outcome_ret.
    destruct (turf_destination centerPt (dist / 1000) (heading + angle))
      as [dest|] eqn:Ed.
    + destruct (corner_coords centerPt heading rest) as [l|] eqn:El.
      * split; [ discriminate | ].
        intros H. inversion H as [? ? Hd | ? ? Hr]; subst; [ congruence | ].
        apply IH in Hr. discriminate.
      * split; [ intros _; right; now apply IH | reflexivity ].
    + split; [ intros _; now left | reflexivity ].
Qed.

(** The loop runs over the four corners. *)
Lemma corner_grounds_four {host : Host} (altitude hfov gimbalPitch : float) :
  exists tr br bl tl, corner_grounds altitude hfov gimbalPitch = [tr; br; bl; tl].
Proof. unfold corner_grounds, cornersCam. cbn [map]. eauto. Qed.

Lemma destinations_four {host : Host} (centerPt : coord) (heading : float)
    (altitude hfov gimbalPitch : float) (coords : list coord) :
  destinations centerPt heading (corner_grounds altitude hfov gimbalPitch) coords ->
  exists tr br bl tl, coords = [tr; br; bl; tl].
Proof.
  destruct (corner_grounds_four altitude hfov gimbalPitch)
    as (g1 & g2 & g3 & g4 & ->).
  unfold destinations. intros H.
  repeat match goal with
         | H : Forall2 _ (_ :: _) _ |- _ => inversion H; subst; clear H
         | H : Forall2 _ [] _ |- _ => inversion H; subst; clear H
         end.
  eauto.
Qed.

(** Past the guard, [calculateFootprint] is the chain of its calls of
    turf. *)
Lemma calculateFootprint_calls {host : Host} (center : waypoint)
    (altitude heading hfov : float) (gimbalPitch : option float) :
  JS.truthy altitude = true -> JS.truthy hfov = true ->
  calculateFootprint (Some center) (Some altitude) heading (Some hfov) gimbalPitch
  = (centerPt ← turf_point (lng center, lat center);
     coords ← corner_coords centerPt heading
                (corner_grounds altitude hfov (default (-90) gimbalPitch));
     polygon ← turf_polygon (coords ++ [hd (0, 0) coords])
                 (FootprintProperties altitude heading hfov
                                      (default (-90) gimbalPitch));
     Returns (Some polygon)).
Proof.
  intros Ha Hh. unfold calculateFootprint, JS.not. now rewrite Ha, Hh.
Qed.

Lemma calculateFootprint_guard {host : Host} (center : option waypoint)
    (altitude : option float) (heading : float) (hfov gimbalPitch : option float) :
  center = None \/ absent_or_falsy altitude \/ absent_or_falsy hfov ->
  calculateFootprint center altitude heading hfov gimbalPitch = Returns None.
Proof.
  unfold calculateFootprint, JS.not.
  destruct center as [c|], altitude as [a|], hfov as [h|]; cbn; auto;
    intros [C | [C | C]]; try discriminate; try contradiction;
    rewrite C; cbn; rewrite ?orb_true_r; reflexivity.
Qed.

(** C6 (as amended): [calculateFootprint] returns [null] exactly when
    [center] is absent or [altitude] or [hfov] is absent, zero or NaN.  In
    every other call it returns a polygon exactly when none of its calls of
    turf throws, and the polygon is the one [turf.polygon] returns for the
    ring of five positions made of the four projected corners and the first
    of them again; and an exception leaves it exactly when [turf.point],
    [turf.destination] or [turf.polygon] throws. *)
Theorem calculateFootprint_null_iff {host : Host} (center : option waypoint)
    (altitude : option float) (heading : float) (hfov gimbalPitch : option float) :
  let result := calculateFootprint center altitude heading hfov gimbalPitch in
  (result = Returns None <->
   center = None \/ absent_or_falsy altitude \/ absent_or_falsy hfov) /\
  (forall c a h,
      center = Some c -> altitude = Some a -> hfov = Some h ->
      JS.truthy a = true -> JS.truthy h = true ->
      let pitch := default (-90) gimbalPitch in
      (forall polygon,
          result = Returns (Some polygon) <-> turf_returns c a heading h pitch polygon)
      /\
      (result = Throws <-> turf_throws c a heading h pitch)).
Proof.
  cbv zeta. split.
  - split; [ | apply calculateFootprint_guard ].
    unfold calculateFootprint, JS.not.
    destruct center as [c|]; [ | now left ].
    destruct altitude as [a|]; [ | right; now left ].
    destruct hfov as [h|]; [ | right; now right ].
    destruct (JS.truthy a) eqn:Ea; [ | right; now left ].
    destruct (JS.truthy h) eqn:Eh; [ | right; now right ].
    cbn [negb orb]. unfold mbind, outcome_bind, mret, outcome_ret.
    repeat match goal with
           | |- context [match ?o with Returns _ => _ | Throws => _ end] =>
               destruct o
           end; discriminate.
  - intros c a h -> -> -> Ea Eh.
    rewrite (calculateFootprint_calls c a heading h gimbalPitch Ea Eh).
    set (pitch := default (-90) gimbalPitch).
    unfold turf_returns, turf_throws, mbind, outcome_bind, mret, outcome_ret.
    destruct (turf_point (lng c, lat c)) as [centerPt|] eqn:Ept.
    2: { split.
         - intros polygon. split; [ discriminate | ].
           intros (? & ? & ? & ? & ? & C & _). discriminate.
         - split; [ now left | reflexivity ]. }
    destruct (corner_coords centerPt heading (corner_grounds a h pitch))
      as [coords|] eqn:Ec.
    2: { apply corner_coords_throws in Ec. split.
         - intros polygon. split; [ discriminate | ].
           intros (pt & tr & br & bl & tl & [= <-] & Hd & _).
           apply corner_coords_returns in Hd.
           apply corner_coords_throws in Ec. congruence.
         - split; [ | reflexivity ]. intros _. right.
           exists centerPt. split; [ reflexivity | now left ]. }
    apply corner_coords_returns in Ec.
    destruct (destinations_four _ _ _ _ _ _ Ec) as (tr & br & bl & tl & ->).
    cbn [app hd].
    assert (Hsame : forall tr' br' bl' tl',
               destinations centerPt heading (corner_grounds a h pitch)
                            [tr'; br'; bl'; tl'] ->
               [tr'; br'; bl'; tl'] = [tr; br; bl; tl]).
    { intros tr' br' bl' tl' H'. apply corner_coords_returns in H', Ec.
      congruence. }
    match goal with
    | |- context [turf_polygon ?r ?p] =>
        destruct (turf_polygon r p) as [fp|] eqn:Epoly
    end.
    + split.
      * intros polygon. split.
        -- intros [= <-]. now exists centerPt, tr, br, bl, tl.
        -- intros (pt & tr' & br' & bl' & tl' & [= <-] & Hd & Hp).
           apply Hsame in Hd. injection Hd as -> -> -> ->.
           pose proof (eq_trans (eq_sym Epoly) Hp) as E. now injection E as ->.
      * split; [ discriminate | ].
        intros [C | (pt & [= <-] & [Hx | (tr' & br' & bl' & tl' & Hd & Hp)])].
        -- discriminate.
        -- apply corner_coords_throws in Hx. apply corner_coords_returns in Ec.
           congruence.
        -- apply Hsame in Hd. injection Hd as -> -> -> ->.
           discriminate (eq_trans (eq_sym Epoly) Hp).
    + split.
      * intros polygon. split; [ discriminate | ].
        intros (pt & tr' & br' & bl' & tl' & [= <-] & Hd & Hp).
        apply Hsame in Hd. injection Hd as -> -> -> ->.
        discriminate (eq_trans (eq_sym Epoly) Hp).
      * split; [ | reflexivity ]. intros _. right.
        exists centerPt. split; [ reflexivity | right ].
        now exists tr, br, bl, tl.
Qed.

(** A centre whose longitude is NaN, on the computable host, whose
    [turf.point] rejects it as turf's does: the guard passes and the
    exception leaves [calculateFootprint]. *)
Lemma calculateFootprint_null_iff_witness :
  calculateFootprint (host := planar_host)
    (Some (Waypoint nan 0)) (Some 100) 0 (Some 82.1) None = Throws.
Proof.
  destruct (calculateFootprint_null_iff (host := planar_host)
              (Some (Waypoint nan 0)) (Some 100) 0 (Some 82.1) None)
    as [_ H].
  destruct (H (Waypoint nan 0) 100 82.1 eq_refl eq_refl eq_refl eq_refl eq_refl)
    as [_ [_ Hthrows]].
  apply Hthrows. left. reflexivity.
Defined.

(** On the same host, an altitude of 1e200 with the smallest field of view
    and the camera level puts the four corners at an infinite distance,
    where [turf.destination] has no position to give: it throws. *)
Example calculateFootprint_horizon_example :
  calculateFootprint (host := planar_host)
    (Some (Waypoint 0 0)) (Some 1e200) 0 (Some 5e-324) (Some 0) = Throws.
Proof. reflexivity. Qed.

(** On the same host, a centre on the equator at 100 m with the default
    field of view looking down gives a polygon of five positions. *)
Example calculateFootprint_polygon_example :
  exists polygon,
    calculateFootprint (host := planar_host)
      (Some (Waypoint 0 0)) (Some 100) 0 (Some 82.1) None
    = Returns (Some polygon) /\
    length (ring polygon) = 5%nat /\ ring polygon !! 4%nat = ring polygon !! 0%nat.
Proof. eexists. split; [ reflexivity | split; reflexivity ]. Qed.

(** C6 (counterexample): with all three arguments supplied and [altitude =
    0] the result is [null], so [null] is not returned only when an argument
    is absent. *)
Lemma calculateFootprint_null_not_only_absent :
  ~ (forall (host : Host) center altitude heading hfov gimbalPitch,
        calculateFootprint center altitude heading hfov gimbalPitch = Returns None
        <-> (center = None \/ altitude = None \/ hfov = None)).
Proof.
  intros H.
  destruct (H planar_host (Some (Waypoint 0 0)) (Some 0) 0 (Some 82.1) None)
    as [H1 _].
  destruct (H1 eq_refl) as [C | [C | C]]; discriminate.
Qed.

(** C10: a numeric zero [altitude] or [hfov] gives [null], whatever the
    centre, heading and pitch. *)
Theorem calculateFootprint_zero_is_null {host : Host} (center : option waypoint)
    (altitude hfov : option float) (heading : float) (gimbalPitch : option float) :
  calculateFootprint center (Some 0) heading hfov gimbalPitch = Returns None /\
  calculateFootprint center (Some neg_zero) heading hfov gimbalPitch = Returns None /\
  calculateFootprint center altitude heading (Some 0) gimbalPitch = Returns None /\
  calculateFootprint center altitude heading (Some neg_zero) gimbalPitch
  = Returns None.
Proof.
  unfold calculateFootprint.
  change (JS.not 0) with true. change (JS.not neg_zero) with true.
  repeat split; destruct center, altitude, hfov; cbn; rewrite ?orb_true_r;
    reflexivity.
Qed.

(** In the ground-intersection branch ([rz < -0.001]) the distance is
    clamped: it never exceeds [altitude * 10]. *)
Lemma corner_ground_clamped {host : Host} (altitude pitchRad : float)
    (p : camera_point) :
  ((-0.001) <=? cz p * Math_sin pitchRad + cy p * Math_cos pitchRad) = false ->
  (altitude * 10 <? fst (corner_ground altitude pitchRad p)) = false.
Proof.
  intros Hrz. unfold corner_ground. cbv zeta. rewrite Hrz. cbn [fst].
  match goal with |- context [if ?c then _ else _] => destruct c eqn:E end.
  - apply ltb_irrefl.
  - exact E.
Qed.

(** C7 (the code at the failing input): on every host that has the exact
    values ECMA-262 requires at [+0], with [altitude = 1e200], [hfov =
    5e-324] and [gimbalPitch = 0] all four corners take the horizon branch
    and their distance is [Infinity], above [altitude * 10 = 1e201]. *)
Theorem corner_grounds_horizon_unclamped {host : Host} :
  ecma_exact host ->
  map fst (corner_grounds 1e200 5e-324 0) = [infinity; infinity; infinity; infinity]
  /\ (1e200 * 10 <? infinity) = true.
Proof.
  intros (Htan & Hatan & Hsin & Hcos). split; [ | reflexivity ].
  unfold corner_grounds, cornersCam. cbv zeta.
  change (5e-324 * JS.PI / 180 / 2) with 0. rewrite Htan.
  change (0 / (4 / 3)) with 0. rewrite Hatan.
  change (2 * 0 / 2) with 0. rewrite Htan.
  change (0 * JS.PI / 180) with 0.
  unfold corner_ground. cbn [map cx cy cz fst]. rewrite Hsin, Hcos.
  reflexivity.
Qed.

Lemma corner_grounds_horizon_unclamped_witness :
  map fst (corner_grounds (host := planar_host) 1e200 5e-324 0) =
  [infinity; infinity; infinity; infinity]
  /\ (1e200 * 10 <? infinity) = true.
Proof.
  apply (corner_grounds_horizon_unclamped (host := planar_host)).
  exact planar_host_exact.
Defined.

(** ** The call site in handleGenerate *)

Lemma to_number_of_number (v : option float) : to_number (of_number v) = v.
Proof. now destruct v. Qed.




(** At the call site: the result is [calculateMaxSpeed] of the path and the
    photo interval, so two settings objects that agree on [photoInterval]
    give the same result for the same path, whatever their altitude, gimbal
    pitch and front overlap and whatever the effective field of view. *)
Lemma handleGenerate_maxSpeed_only_interval {host : Host}
    (initialPath : list waypoint) (s1 s2 : object) (fov1 fov2 : option float) :
  handleGenerate_maxSpeed initialPath s1 fov1 =
  calculateMaxSpeed (Some initialPath) (s1 !! "photoInterval")
  /\
  (s1 !! "photoInterval" = s2 !! "photoInterval" ->
   handleGenerate_maxSpeed initialPath s1 fov1 =
   handleGenerate_maxSpeed initialPath s2 fov2).
Proof.
  unfold handleGenerate_maxSpeed, calculateMaxSpeed_call, argument. cbn.
  rewrite !to_number_of_number. split; [ reflexivity | now intros -> ].
Qed.

(** ** The point conversion of processFile *)

Lemma newPoints_points {gen : Type} (generateUUID : gen -> string * gen)
    (settings : object) (features : list feature) : forall g,
  Forall2 (fun rec wp =>
             exists id, wp = point_of_feature settings (fst rec) (snd rec) id)
          (point_records features)
          (fst (newPoints generateUUID features settings g)).
Proof.
  induction features as [|f rest IH]; intros g; cbn [newPoints point_records omap].
  - constructor.
  - unfold point_records in *. cbn [omap list_omap].
    destruct (f_geometry f) as [c|t].
    + destruct (generateUUID g) as [id g'].
      specialize (IH g').
      destruct (newPoints generateUUID rest settings g') as [pts g''].
      cbn [fst] in *. constructor; eauto.
    + apply IH.
Qed.

(** C8 (as amended): [processFile] builds one waypoint per point record, in
    order; altitude, speed and gimbal pitch are the record's when present
    and the current settings' otherwise; heading is the record's when
    present and the constant 0 otherwise. *)
Theorem processFile_point_fields {gen : Type} (generateUUID : gen -> string * gen)
    (settings : object) (features : list feature) (g : gen) :
  Forall2 (fun '(coordinates, properties) wp =>
     wp_lng wp = coordinates !! 0%nat /\
     wp_lat wp = coordinates !! 1%nat /\
     file_or (properties !! "altitude") (settings !! "altitude") (wp_altitude wp) /\
     file_or (properties !! "speed") (settings !! "speed") (wp_speed wp) /\
     file_or (properties !! "gimbalPitch") (settings !! "gimbalPitch")
             (wp_gimbalPitch wp) /\
     file_or (properties !! "heading") (Some 0) (wp_heading wp))
    (point_records features)
    (fst (newPoints generateUUID features settings g)).
Proof.
  eapply Forall2_impl; [ apply newPoints_points | ].
  intros [coordinates properties] wp [id ->].
  cbn [fst snd point_of_feature wp_lng wp_lat wp_altitude wp_speed
       wp_gimbalPitch wp_heading].
  unfold file_or, defined_or.
  repeat split; now destruct (properties !! _).
Qed.

(** C8 (counterexample): a point record without [heading] is imported with
    heading 0, under the store's default settings (which carry no heading)
    and under settings extended with a heading of 90 alike: the fallback
    does not come from the settings. *)
Lemma processFile_heading_not_from_settings :
  let defaults : object :=
    {[ "altitude" := 60; "speed" := 10; "gimbalPitch" := -90 ]} in
  let with_heading : object := <["heading" := 90]> defaults in
  let f := Feature (Point [2.5; 48.5]) ∅ in
  (exists wp,
      fst (newPoints counter_uuid [f] defaults 0%nat) = [wp] /\
      wp_heading wp = Some 0 /\
      ~ file_or (f_properties f !! "heading") (defaults !! "heading")
                (wp_heading wp)) /\
  (exists wp,
      fst (newPoints counter_uuid [f] with_heading 0%nat) = [wp] /\
      wp_heading wp = Some 0 /\
      ~ file_or (f_properties f !! "heading") (with_heading !! "heading")
                (wp_heading wp)).
Proof.
  split; eexists; (split; [ reflexivity | ]); (split; [ reflexivity | ]).
  - discriminate.
  - cbn. intros C.
    apply (f_equal (fun o => match o with Some x => x =? 90 | None => false end)) in C.
    vm_compute in C. discriminate.
Qed.

(** ** getFlightWarningLevel *)

Import FloatMono.

(** C2: with [limit] the maximum flight time in seconds and [threshold] 85%
    of it, [getFlightWarningLevel] is [safe] when the maximum flight time is
    zero or negative or the mission time is below [threshold]; [warning]
    when the mission time is at or above [threshold] and below [limit];
    [critical] when it is at or above [limit].  In particular a maximum
    flight time of 0 gives [safe] for every mission time. *)
Theorem getFlightWarningLevel_tiers (missionTimeSeconds maxFlightTimeMinutes : float) :
  let limit := maxFlightTimeMinutes * 60 in
  let threshold := limit * FLIGHT_WARNING_THRESHOLD in
  let level := getFlightWarningLevel missionTimeSeconds maxFlightTimeMinutes in
  ((maxFlightTimeMinutes <=? 0) = true -> level = safe) /\
  ((0 <? maxFlightTimeMinutes) = true ->
   (missionTimeSeconds <? threshold) = true -> level = safe) /\
  ((0 <? maxFlightTimeMinutes) = true ->
   (threshold <=? missionTimeSeconds) = true ->
   (missionTimeSeconds <? limit) = true -> level = warning) /\
  ((0 <? maxFlightTimeMinutes) = true ->
   (limit <=? missionTimeSeconds) = true -> level = critical) /\
  getFlightWarningLevel missionTimeSeconds 0 = safe.
Proof.
  intros limit threshold level. subst level. unfold getFlightWarningLevel, JS.not.
  fold limit. fold threshold.
  split; [ | split; [ | split; [ | split; [ | reflexivity ] ] ] ].
  - intros H. now rewrite H, orb_true_r.
  - intros Hpos Hlt. rewrite (pos_truthy _ Hpos), (pos_not_le0 _ Hpos). cbn [negb orb].
    rewrite (ltb_leb_false _ _ Hlt).
    destruct (limit <=? missionTimeSeconds) eqn:E; auto. exfalso.
    destruct (ltb_not_nan _ _ Hlt) as [_ Hn].
    assert (Hs : sign_clear limit).
    { apply mul_sign_clear; [ now apply pos_sign_clear | reflexivity ]. }
    pose proof (threshold_le_limit limit Hs Hn) as Hle.
    pose proof (leb_trans _ _ _ Hle E) as C.
    apply leb_ltb_false in C. unfold threshold in Hlt. congruence.
  - intros Hpos Hge Hlt. rewrite (pos_truthy _ Hpos), (pos_not_le0 _ Hpos). cbn [negb orb].
    now rewrite (ltb_leb_false _ _ Hlt), Hge.
  - intros Hpos Hge. rewrite (pos_truthy _ Hpos), (pos_not_le0 _ Hpos). cbn [negb orb].
    now rewrite Hge.
Qed.

Lemma getFlightWarningLevel_tiers_witness :
  getFlightWarningLevel 500 0 = safe /\
  getFlightWarningLevel 1700 34 = safe /\
  getFlightWarningLevel 1734 34 = warning /\
  getFlightWarningLevel 2040 34 = critical.
Proof.
  destruct (getFlightWarningLevel_tiers 500 0) as (H1 & _).
  destruct (getFlightWarningLevel_tiers 1700 34) as (_ & H2 & _).
  destruct (getFlightWarningLevel_tiers 1734 34) as (_ & _ & H3 & _).
  destruct (getFlightWarningLevel_tiers 2040 34) as (_ & _ & _ & H4 & _).
  split; [ apply H1; reflexivity | ].
  split; [ apply H2; reflexivity | ].
  split; [ apply H3; reflexivity | apply H4; reflexivity ].
Defined.

(** ** Monotonicity of calculateMaxSpeed in the photo interval *)

(** C5 (counterexample): from the rejected interval 0 to the interval 1 the
    maximum speed grows from the sentinel 0 to 111195 m/s. *)
Lemma calculateMaxSpeed_not_antitone :
  ~ (forall (host : Host) (waypoints : list waypoint) (cadence1 cadence2 : float),
        (cadence1 <=? cadence2) = true ->
        (maxSpeed (calculateMaxSpeed (Some waypoints) (Some cadence2)) <=?
         maxSpeed (calculateMaxSpeed (Some waypoints) (Some cadence1))) = true).
Proof.
  intros H.
  specialize (H planar_host [Waypoint 0 0; Waypoint 0 1] 0 1 eq_refl).
  vm_compute in H. discriminate.
Qed.

(** C5 (as amended): for a waypoint list whose leg distances are finite and
    at or above zero, and photo intervals [0 < cadence1 <= cadence2], the
    maximum speed at [cadence2] is at or below the one at [cadence1]. *)
Theorem calculateMaxSpeed_antitone {host : Host} (waypoints : list waypoint)
    (cadence1 cadence2 : float) :
  Forall (fun d => is_finite d = true /\ (0 <=? d) = true) (leg_distances waypoints) ->
  (0 <? cadence1) = true -> (cadence1 <=? cadence2) = true ->
  (maxSpeed (calculateMaxSpeed (Some waypoints) (Some cadence2)) <=?
   maxSpeed (calculateMaxSpeed (Some waypoints) (Some cadence1))) = true.
Proof.
  intros Hlegs Hc1 Hle.
  assert (Hc2 : (0 <? cadence2) = true).
  { destruct (0 <? cadence2) eqn:E; auto.
    destruct (leb_not_nan _ _ Hle) as [_ N2].
    apply ltb_false_leb in E; auto.
    pose proof (leb_trans _ _ _ Hle E) as C. apply leb_ltb_false in C. congruence. }
  destruct (le_lt_dec 2 (length waypoints)) as [Hlen | Hlen].
  - rewrite !calculateMaxSpeed_unfold by assumption. cbn [maxSpeed].
    assert (Hnn : Forall (fun d => is_nan d = false) (leg_distances waypoints)).
    { eapply List.Forall_impl; [ | exact Hlegs ]. intros d [_ Hd].
      apply (leb_not_nan _ _ Hd). }
    destruct (Math_min_spec _ (leg_distances_nonempty _ Hlen) Hnn) as [Hin _].
    rewrite List.Forall_forall in Hlegs. destruct (Hlegs _ Hin) as [Hfin Hd].
    now apply clamped_quotient_antitone.
  - rewrite !calculateMaxSpeed_invalid; [ reflexivity | left; exact Hlen | left; exact Hlen ].
Qed.

Lemma calculateMaxSpeed_antitone_witness :
  (maxSpeed (calculateMaxSpeed (host := planar_host)
               (Some [Waypoint 0 0; Waypoint 0 1; Waypoint 0 3]) (Some 5.5)) <=?
   maxSpeed (calculateMaxSpeed (host := planar_host)
               (Some [Waypoint 0 0; Waypoint 0 1; Waypoint 0 3]) (Some 2))) = true.
Proof.
  apply (calculateMaxSpeed_antitone (host := planar_host)).
  - repeat constructor.
  - reflexivity.
  - reflexivity.
Defined.

(** * Further properties of the code *)

(** ** calculateMaxSpeed: the sign of the result *)

(** [Math.max(0, q)] is NaN, [+0], or a [q] above zero. *)
Lemma Math_max_0_cases q :
  JS.Math_max 0 q = nan \/ JS.Math_max 0 q = 0 \/
  ((0 <? q) = true /\ JS.Math_max 0 q = q).
Proof.
  unfold JS.Math_max. change (is_nan 0) with false. cbn [orb].
  destruct (is_nan q); auto.
  destruct (0 <? q) eqn:E; auto.
  destruct (q <? 0); auto.
Qed.

(** X1: whatever the waypoints and the photo interval, absent ones
    included, the [maxSpeed] that [calculateMaxSpeed] returns is NaN or a
    value at or above zero with its sign bit clear: never a negative speed,
    never [-0]. *)
Theorem calculateMaxSpeed_never_negative {host : Host}
    (waypoints : option (list waypoint)) (photoInterval : option float) :
  let v := maxSpeed (calculateMaxSpeed waypoints photoInterval) in
  is_nan v = true \/ ((0 <=? v) = true /\ get_sign v = false).
Proof.
  cbv zeta. unfold calculateMaxSpeed.
  destruct waypoints as [l|], photoInterval as [p|]; try (right; split; reflexivity).
  destruct (_ || _); [ right; split; reflexivity | ]. cbn [maxSpeed].
  destruct (Math_max_0_cases (JS.Math_min (leg_distances l) / p))
    as [-> | [-> | [Hpos ->]]].
  - now left.
  - right. split; reflexivity.
  - right. split; [ now apply ltb_leb | now apply pos_sign_clear ].
Qed.

(** ** calculateFootprint: the clamp of the ground branch *)

(** X2: for each of the four frame corners, when the rotated ray points
    below the horizon ([rz < -0.001], the ground-intersection branch) the
    ground distance handed to [turf.destination] is not above [altitude *
    10]. *)
Theorem corner_grounds_ground_clamped {host : Host}
    (altitude hfov gimbalPitch : float) :
  let pitchRad := gimbalPitch * JS.PI / 180 in
  Forall2 (fun p '(dist, _) =>
             ((-0.001) <=? cz p * Math_sin pitchRad + cy p * Math_cos pitchRad)
             = false ->
             (altitude * 10 <? dist) = false)
          (cornersCam hfov) (corner_grounds altitude hfov gimbalPitch).
Proof.
  cbv zeta. unfold corner_grounds.
  apply Forall2_fmap_r, Forall_Forall2_diag, List.Forall_forall.
  intros p _. unfold compose.
  pose proof (corner_ground_clamped altitude (gimbalPitch * JS.PI / 180) p) as H.
  destruct (corner_ground _ _ p) as [dist angle]. exact H.
Qed.

(** ** getFlightWarningLevel: order and unknown values *)

(** X3: the warning level does not drop when the mission gets longer: for
    mission times [t1 <= t2] and one flight-time limit, the level at [t2] is
    at least as severe as the level at [t1]. *)
Theorem getFlightWarningLevel_monotone (t1 t2 maxFlightTimeMinutes : float) :
  (t1 <=? t2) = true ->
  (severity (getFlightWarningLevel t1 maxFlightTimeMinutes) <=
   severity (getFlightWarningLevel t2 maxFlightTimeMinutes))%nat.
Proof.
  intros Hle. unfold getFlightWarningLevel.
  destruct (_ || _); [ reflexivity | ].
  set (limit := maxFlightTimeMinutes * 60).
  set (threshold := limit * FLIGHT_WARNING_THRESHOLD).
  destruct (limit <=? t1) eqn:E1.
  - now rewrite (leb_trans _ _ _ E1 Hle).
  - destruct (threshold <=? t1) eqn:E2.
    + rewrite (leb_trans _ _ _ E2 Hle). destruct (limit <=? t2); cbn; lia.
    + cbn. lia.
Qed.

Lemma getFlightWarningLevel_monotone_witness :
  (severity (getFlightWarningLevel 1700 34) <=
   severity (getFlightWarningLevel 1734 34))%nat.
Proof.
  apply (getFlightWarningLevel_monotone 1700 1734 34). reflexivity.
Defined.

Lemma leb_nan_r x : (x <=? nan) = false.
Proof.
  rewrite FloatAxioms.leb_spec. change (Prim2SF nan) with S754_nan.
  now destruct (Prim2SF x).
Qed.

(** X4: a mission time that is NaN is reported [safe] under every limit,
    and so is every mission time under a limit that is NaN. *)
Theorem getFlightWarningLevel_nan_safe (missionTimeSeconds maxFlightTimeMinutes : float) :
  getFlightWarningLevel nan maxFlightTimeMinutes = safe /\
  getFlightWarningLevel missionTimeSeconds nan = safe.
Proof.
  split; [ | reflexivity ].
  unfold getFlightWarningLevel. rewrite !leb_nan_r. now destruct (_ || _).
Qed.

(** ** calculateMissionDistance: an unknown leg *)

Lemma add_nan_l x : nan + x = nan.
Proof. apply Prim2SF_inj. rewrite FloatAxioms.add_spec. reflexivity. Qed.

Lemma add_nan_r x : x + nan = nan.
Proof.
  apply Prim2SF_inj. rewrite FloatAxioms.add_spec.
  change (Prim2SF nan) with S754_nan. now destruct (Prim2SF x).
Qed.

Lemma sum_from_nan (l : list float) :
  fold_left (fun totalDistance distance => totalDistance + distance) l nan = nan.
Proof. induction l as [|d l IH]; cbn; [ | rewrite add_nan_l ]; auto. Qed.

Lemma sum_with_nan (l : list float) : forall acc,
  Exists (fun d => is_nan d = true) l ->
  fold_left (fun totalDistance distance => totalDistance + distance) l acc = nan.
Proof.
  induction l as [|d l IH]; intros acc H; inversion H; subst; cbn.
  - rewrite (nan_unique d) by assumption. rewrite add_nan_r. apply sum_from_nan.
  - auto.
Qed.

(** X5: when the distance of some leg is NaN, the total mission distance
    is NaN, wherever in the path the leg is. *)
Theorem calculateMissionDistance_nan {host : Host} (waypoints : list waypoint) :
  Exists (fun d => is_nan d = true) (leg_distances waypoints) ->
  calculateMissionDistance waypoints = nan.
Proof.
  intros H. unfold calculateMissionDistance.
  destruct (Nat.ltb_spec (length waypoints) 2) as [Hlt | _].
  - destruct waypoints as [|a [|b rest]]; cbn in Hlt; try lia; inversion H.
  - now apply sum_with_nan.
Qed.

Lemma calculateMissionDistance_nan_witness :
  calculateMissionDistance (host := planar_host)
    [Waypoint 0 0; Waypoint 0 1; Waypoint infinity 0; Waypoint infinity 0] = nan.
Proof.
  apply (calculateMissionDistance_nan (host := planar_host)).
  right. right. left. reflexivity.
Defined.

(** ** handleGenerate: the speed handed to the path generator *)

Lemma div_nan_l x : nan / x = nan.
Proof. apply Prim2SF_inj. rewrite FloatAxioms.div_spec. reflexivity. Qed.

(** The guard of [calculateMaxSpeed] rejects every interval that is not
    above zero. *)
Lemma not_pos_rejected p : (0 <? p) = false -> JS.not p || (p <=? 0) = true.
Proof.
  unfold JS.not. rewrite truthy_spec, FloatAxioms.ltb_spec, FloatAxioms.leb_spec, Prim2SF_zero.
  destruct (Prim2SF p) as [s|[]| |[] m e]; simpl; try reflexivity; discriminate.
Qed.

(** X6: [handleGenerate] generates the final path with the settings' own
    [speed] whenever the initial path has fewer than two waypoints, the
    photo interval is absent or not above zero, or the distance of some leg
    is NaN; and whenever it uses another speed, that speed is above zero. *)
Theorem handleGenerate_speed_fallback {host : Host} (initialPath : list waypoint)
    (currentSettings : object) (effectiveFOV : option float) :
  let speed := handleGenerate_speed initialPath currentSettings effectiveFOV in
  (((length initialPath < 2)%nat \/
    match currentSettings !! "photoInterval" with
    | Some p => (0 <? p) = false
    | None => True
    end \/
    Exists (fun d => is_nan d = true) (leg_distances initialPath)) ->
   speed = currentSettings !! "speed") /\
  (speed = currentSettings !! "speed" \/
   exists v, speed = Some v /\ (0 <? v) = true).
Proof.
  cbv zeta. unfold handleGenerate_speed.
  destruct (handleGenerate_maxSpeed_only_interval initialPath currentSettings
              currentSettings effectiveFOV effectiveFOV) as [-> _].
  split.
  - intros H.
    assert (E : (0 <? maxSpeed (calculateMaxSpeed (Some initialPath)
                                  (currentSettings !! "photoInterval"))) = false);
      [ | now rewrite E ].
    destruct (le_lt_dec 2 (length initialPath)) as [Hlen | Hlen].
    2: { rewrite calculateMaxSpeed_invalid; [ reflexivity | now left ]. }
    destruct (currentSettings !! "photoInterval") as [p|]; [ | reflexivity ].
    destruct (0 <? p) eqn:Hp.
    2: { unfold calculateMaxSpeed. rewrite <- orb_assoc, (not_pos_rejected p Hp).
         now rewrite orb_true_r. }
    destruct H as [H | [H | H]]; [ lia | discriminate | ].
    rewrite calculateMaxSpeed_unfold by assumption. cbn [maxSpeed].
    unfold JS.Math_min. rewrite (min_from_nan _ _ H), div_nan_l. reflexivity.
  - destruct (0 <? _) eqn:E; eauto.
Qed.

(** ** The flight warning dialog *)

(** X7: one run of the hook's effect always leaves no check pending, and
    the dialog is shown after it exactly when it was shown before or a
    check was pending for a path of at least two waypoints with a maximum
    speed above zero whose level in the store is not [safe]. *)
Theorem warning_effect_shows_iff (st : warning_state) (waypoints_length : nat)
    (calculatedMaxSpeed : float) (store_level : warning_level) :
  let st' :=
    warning_effect st
      (getWarningLevel waypoints_length calculatedMaxSpeed store_level) in
  pendingWarningCheck st' = false /\
  (showFlightWarning st' = true <->
   showFlightWarning st = true \/
   (pendingWarningCheck st = true /\ (2 <= waypoints_length)%nat /\
    (0 <? calculatedMaxSpeed) = true /\ store_level <> safe)).
Proof.
  cbv zeta. unfold warning_effect, getWarningLevel.
  destruct st as [shown pending]. cbn [pendingWarningCheck showFlightWarning].
  destruct (Nat.leb_spec 2 waypoints_length) as [Hn | Hn];
    destruct (0 <? calculatedMaxSpeed); destruct store_level, pending, shown;
    cbn; (split; [ reflexivity | ]); split; intros H;
    try (left; reflexivity); try discriminate; try reflexivity;
    try (right; repeat split; (assumption || discriminate));
    destruct H as [H | (H1 & H2 & H3 & H4)];
    try discriminate; try congruence; try lia.
Qed.

(** ** The mission file name *)

Lemma length_append (s t : string) :
  String.length (s +:+ t) = (String.length s + String.length t)%nat.
Proof.
  induction s as [|c s IH]; [ reflexivity | ].
  change (String c s +:+ t) with (String c (s +:+ t)). cbn [String.length].
  now rewrite IH.
Qed.

Lemma extension_match_length s : extension_match s = true -> String.length s = 4%nat.
Proof.
  destruct s as [|c0 [|c1 [|c2 [|c3 [|c4 s]]]]]; try discriminate; reflexivity.
Qed.

(** X8: [processFile] takes as mission name the file name without its
    [.kmz] or [.kml] extension, in either case of the letters: a name that
    ends in such an extension loses it, and only it, and a name none of
    whose endings is such an extension is kept as it is. *)
Theorem strip_extension_spec :
  (forall name ext,
      extension_match ext = true -> strip_extension (name +:+ ext) = name) /\
  (forall name,
      (forall stem ext, name = stem +:+ ext -> extension_match ext = false) ->
      strip_extension name = name).
Proof.
  split.
  - intros name ext Hext. induction name as [|c name IH].
    + change (EmptyString +:+ ext) with ext. destruct ext; [ discriminate | ].
      cbn [strip_extension]. now rewrite Hext.
    + change (String c name +:+ ext) with (String c (name +:+ ext)).
      cbn [strip_extension].
      destruct (extension_match (String c (name +:+ ext))) eqn:E.
      * apply extension_match_length in E. apply extension_match_length in Hext.
        cbn [String.length] in E. rewrite length_append in E. lia.
      * now rewrite IH.
  - induction name as [|c name IH]; intros H.
    + reflexivity.
    + cbn [strip_extension]. rewrite (H EmptyString (String c name) eq_refl).
      f_equal. apply IH. intros stem ext ->.
      apply (H (String c stem) ext). reflexivity.
Qed.

Example strip_extension_examples :
  strip_extension "survey.kmz" = "survey" /\
  strip_extension "Field 7.KML" = "Field 7" /\
  strip_extension "a.kml.kmz" = "a.kml" /\
  strip_extension "notes.kmz.txt" = "notes.kmz.txt" /\
  strip_extension ".kml" = "".
Proof. repeat split. Qed.

(** ** The drone selector *)

Lemma or_default_truthy x d :
  JS.truthy d = true -> JS.truthy (or_default x d) = true.
Proof.
  intros Hd. unfold or_default. destruct x as [v|]; auto.
  now destruct (JS.truthy v) eqn:E.
Qed.

(** X9: choosing a drone other than [custom] always stores a usable field
    of view, whatever the preset table holds: the [hfov] of the chosen
    preset when the table has that preset and its [hfov] is a number other
    than zero and NaN, and [DEFAULT_HFOV] in every other case (no such
    preset, a preset without [hfov], an [hfov] that is zero or NaN).  With
    the stored value the guard of [calculateFootprint] never answers [null]
    for a centre and an altitude other than zero and NaN. *)
Theorem onDroneChange_preset_fov (DRONE_PRESETS : gmap string object)
    (DEFAULT_PHOTO_INTERVAL : float) (settings : object) (val : string) :
  val <> "custom" ->
  exists fov,
    ds_customFOV (onDroneChange DRONE_PRESETS DEFAULT_PHOTO_INTERVAL settings val)
    = Some fov /\
    JS.truthy fov = true /\
    (forall preset hfov,
        DRONE_PRESETS !! val = Some preset -> preset !! "hfov" = Some hfov ->
        JS.truthy hfov = true -> fov = hfov) /\
    ((forall preset hfov,
         DRONE_PRESETS !! val = Some preset -> preset !! "hfov" = Some hfov ->
         JS.truthy hfov = false) ->
     fov = DEFAULT_HFOV) /\
    (forall (host : Host) center altitude heading gimbalPitch,
        JS.truthy altitude = true ->
        calculateFootprint (Some center) (Some altitude) heading (Some fov)
                           gimbalPitch <> Returns None).
Proof.
  intros Hval. unfold onDroneChange.
  apply String.eqb_neq in Hval. rewrite Hval. cbn [ds_customFOV].
  eexists. split; [ reflexivity | ].
  assert (Ht : JS.truthy (or_default (DRONE_PRESETS !! val ≫= lookup "hfov")
                                     DEFAULT_HFOV) = true)
    by now apply or_default_truthy.
  split; [ exact Ht | split; [ | split ] ].
  - intros preset hfov Hp Hh Htruthy. unfold or_default.
    rewrite Hp. cbn. now rewrite Hh, Htruthy.
  - intros Hfalsy. unfold or_default.
    destruct (DRONE_PRESETS !! val) as [preset|] eqn:Hp; cbn; [ | reflexivity ].
    destruct (preset !! "hfov") as [hfov|] eqn:Hh; [ | reflexivity ].
    now rewrite (Hfalsy preset hfov eq_refl Hh).
  - intros host center altitude heading gimbalPitch Ha.
    rewrite (calculateFootprint_calls center altitude heading _ gimbalPitch Ha Ht).
    unfold mbind, outcome_bind, mret, outcome_ret.
    repeat match goal with
           | |- context [match ?o with Returns _ => _ | Throws => _ end] =>
               destruct o
           end; discriminate.
Qed.

Lemma onDroneChange_preset_fov_witness :
  exists fov,
    ds_customFOV
      (onDroneChange {[ "mini" := {[ "hfov" := 0 ]} ]} 5.5 ∅ "mini") = Some fov /\
    JS.truthy fov = true /\
    (forall preset hfov,
        ({[ "mini" := {[ "hfov" := 0 ]} ]} : gmap string object) !! "mini"
        = Some preset ->
        preset !! "hfov" = Some hfov -> JS.truthy hfov = true -> fov = hfov) /\
    ((forall preset hfov,
         ({[ "mini" := {[ "hfov" := 0 ]} ]} : gmap string object) !! "mini"
         = Some preset ->
         preset !! "hfov" = Some hfov -> JS.truthy hfov = false) ->
     fov = DEFAULT_HFOV) /\
    (forall (host : Host) center altitude heading gimbalPitch,
        JS.truthy altitude = true ->
        calculateFootprint (Some center) (Some altitude) heading (Some fov)
                           gimbalPitch <> Returns None).
Proof.
  apply (onDroneChange_preset_fov {[ "mini" := {[ "hfov" := 0 ]} ]} 5.5 ∅ "mini").
  discriminate.
Defined.

(** The selector at work: a preset with a field of view, a preset whose
    field of view is zero, and an id the table does not have. *)
Example onDroneChange_examples :
  let presets : gmap string object :=
    {[ "mavic" := {[ "hfov" := 84 ]}; "mini" := {[ "hfov" := 0 ]} ]} in
  ds_customFOV (onDroneChange presets 5.5 ∅ "mavic") = Some 84 /\
  ds_customFOV (onDroneChange presets 5.5 ∅ "mini") = Some 82.1 /\
  ds_customFOV (onDroneChange presets 5.5 ∅ "phantom") = Some 82.1.
Proof. repeat split; vm_compute; reflexivity. Qed.

(** ** processFile: what an import changes *)

Lemma newPoints_length {gen : Type} (generateUUID : gen -> string * gen)
    (settings : object) (features : list feature) (g : gen) :
  length (fst (newPoints generateUUID features settings g)) =
  length (point_records features).
Proof.
  symmetry. eapply Forall2_length, newPoints_points.
Qed.

(** X10: [processFile] changes the mission store (waypoints, settings or
    mission name) exactly when a file was given, [parseImport] succeeded and
    the parsed features hold at least one point; when [parseImport]
    succeeded on a file without a point, all it does is raise the alert
    [No waypoints found in file.]. *)
Theorem processFile_changes_store_iff {gen session_settings polygon : Type}
    (generateUUID : gen -> string * gen) (file : option string)
    (parsed : option (list feature * option (@session_data session_settings polygon)))
    (settings : object) (has_setCurrentPolygon : bool) (g : gen) :
  let calls :=
    processFile generateUUID file parsed settings has_setCurrentPolygon g in
  (existsb changes_store calls = true <->
   exists name features sessionData,
     file = Some name /\ parsed = Some (features, sessionData) /\
     point_records features <> []) /\
  (forall name features sessionData,
      file = Some name -> parsed = Some (features, sessionData) ->
      point_records features = [] ->
      calls = [ alert "No waypoints found in file." ]).
Proof.
  cbv zeta. unfold processFile. split.
  - destruct file as [name|]; [ | split; [ discriminate | now intros (? & ? & ? & ? & _) ] ].
    destruct parsed as [[features sessionData]|];
      [ | split; [ discriminate | now intros (? & ? & ? & _ & ? & _) ] ].
    rewrite newPoints_length.
    destruct (point_records features) as [|r rs] eqn:E; cbn [length Nat.ltb Nat.leb].
    + split; [ discriminate | ]. intros (? & ? & ? & _ & [= <- _] & H). congruence.
    + split; [ | reflexivity ]. intros _. exists name, features, sessionData.
      rewrite E. repeat split. discriminate.
  - intros name features sessionData -> -> E. now rewrite newPoints_length, E.
Qed.



(** ** calculateMaxSpeed: a bound for intervals of a second or more *)

Module FloatDivision.
Import SF Grid F64 FloatOrder FloatSign Rounding FloatMono.

Lemma F2R_one : F2R 4503599627370496 (-52) = 1%R.
Proof.
  unfold F2R.
  assert (E : (bpow 52 * bpow (-52) = 1)%R) by (rewrite <- bpow_add; reflexivity).
  rewrite (bpow_IZR 52) in E by lia. exact E.
Qed.

(** Dividing a finite value at or above zero by one does not raise it. *)
Lemma clamped_div_one_le (d : float) :
  is_finite d = true -> (0 <=? d) = true -> (JS.Math_max 0 (d / 1) <=? d) = true.
Proof.
  rewrite is_finite_spec. intros Hfin Hd.
  pose proof (Prim2SF_valid d) as Hv.
  pose proof (FloatAxioms.div_spec d 1) as D. unfold SF64div in D.
  change (Prim2SF 1) with (S754_finite false 4503599627370496 (-52)) in D.
  rewrite FloatAxioms.leb_spec, Prim2SF_zero in Hd.
  destruct (Prim2SF d) as [sd|sd| |sd md ed] eqn:Ed; try discriminate.
  - rewrite Math_max_0_zero by now rewrite D.
    rewrite FloatAxioms.leb_spec, Prim2SF_zero, Ed. now destruct sd.
  - destruct sd; [ discriminate | ].
    destruct (SFdiv_rounded md ed 4503599627370496 (-52)) as (q & k & R & E).
    destruct (finish_nonneg _ _ _ R) as (_ & S & _).
    destruct (valid_rounded md ed Hv) as [R' E'].
    rewrite Math_max_0_sign_clear
      by (unfold sign_clear; now rewrite get_sign_spec, D, E).
    rewrite FloatAxioms.leb_spec, D, Ed, E, <- E'.
    rewrite F2R_one, Rdiv_1_r in R.
    apply (rounded_mono (F2R md ed) (F2R md ed)); auto. lra.
Qed.

(** Between zero and a finite value there are only finite values. *)
Lemma between_finite (v d : float) :
  (0 <=? v) = true -> (v <=? d) = true -> is_finite d = true -> is_finite v = true.
Proof.
  rewrite !is_finite_spec, !FloatAxioms.leb_spec, Prim2SF_zero.
  destruct (Prim2SF v) as [s|[]| |s m e], (Prim2SF d) as [s'|[]| |[] m' e'];
    simpl; try reflexivity; try discriminate.
Qed.

End FloatDivision.

(** X12: for a path of at least two waypoints whose leg distances are
    finite and at or above zero, and a photo interval of one second or
    more, the maximum speed is finite, at or above zero and at or below the
    shortest leg distance. *)
Theorem calculateMaxSpeed_bounded {host : Host} (waypoints : list waypoint)
    (photoInterval : float) :
  (2 <= length waypoints)%nat ->
  Forall (fun d => is_finite d = true /\ (0 <=? d) = true) (leg_distances waypoints) ->
  (1 <=? photoInterval) = true ->
  let r := calculateMaxSpeed (Some waypoints) (Some photoInterval) in
  (0 <=? maxSpeed r) = true /\ (maxSpeed r <=? minDistance r) = true /\
  is_finite (maxSpeed r) = true.
Proof.
  intros Hlen Hlegs Hone r.
  assert (Hpos : (0 <? photoInterval) = true).
  { destruct (0 <? photoInterval) eqn:E; auto.
    destruct (leb_not_nan _ _ Hone) as [_ N].
    apply ltb_false_leb in E; auto.
    pose proof (leb_trans _ _ _ Hone E) as C. vm_compute in C. discriminate. }
  subst r. rewrite calculateMaxSpeed_unfold by assumption. cbn [maxSpeed minDistance].
  assert (Hnn : Forall (fun d => is_nan d = false) (leg_distances waypoints)).
  { eapply List.Forall_impl; [ | exact Hlegs ]. intros d [_ Hd].
    apply (leb_not_nan _ _ Hd). }
  destruct (Math_min_spec _ (leg_distances_nonempty _ Hlen) Hnn) as [Hin _].
  rewrite List.Forall_forall in Hlegs. destruct (Hlegs _ Hin) as [Hfin Hd].
  set (d := JS.Math_min (leg_distances waypoints)) in *.
  assert (Hle : (JS.Math_max 0 (d / photoInterval) <=? d) = true).
  { eapply leb_trans; [ | apply FloatDivision.clamped_div_one_le; assumption ].
    apply clamped_quotient_antitone; auto. }
  assert (H0 : (0 <=? JS.Math_max 0 (d / photoInterval)) = true).
  { destruct (Math_max_0_cases (d / photoInterval)) as [E | [E | [Hq E]]].
    - rewrite E in Hle. now destruct (leb_not_nan _ _ Hle).
    - now rewrite E.
    - rewrite E. now apply ltb_leb. }
  repeat split; auto.
  eapply FloatDivision.between_finite; eauto.
Qed.

Lemma calculateMaxSpeed_bounded_witness :
  let r := calculateMaxSpeed (host := planar_host)
             (Some [Waypoint 0 0; Waypoint 0 1; Waypoint 0 3]) (Some 5.5) in
  (0 <=? maxSpeed r) = true /\ (maxSpeed r <=? minDistance r) = true /\
  is_finite (maxSpeed r) = true.
Proof.
  apply (calculateMaxSpeed_bounded (host := planar_host)
           [Waypoint 0 0; Waypoint 0 1; Waypoint 0 3] 5.5).
  - simpl. lia.
  - repeat constructor.
  - reflexivity.
Defined.

(** ** calculateFootprint: left and right corners *)

Module FloatSymmetry.
Import SF F64.

(** Rounding to nearest, ties to even, does not look at the sign. *)
Lemma binary_round_aux_opp s m e l :
  binary_round_aux prec emax (negb s) m e l =
  SFopp (binary_round_aux prec emax s m e l).
Proof.
  unfold binary_round_aux.
  destruct (shr_fexp prec emax m e l) as [mrs' e'].
  destruct (shr_fexp prec emax _ e' loc_Exact) as [mrs'' e''].
  destruct (shr_m mrs''); try reflexivity.
  now destruct (e'' <=? emax - prec)%Z.
Qed.

Lemma SFmul_opp_r a b :
  SFmul prec emax a (SFopp b) = SFopp (SFmul prec emax a b).
Proof.
  destruct a as [sa|sa| |sa ma ea], b as [sb|sb| |sb mb eb];
    cbn [SFmul SFopp]; try reflexivity;
    replace (xorb sa (negb sb)) with (negb (xorb sa sb)) by (now destruct sa, sb);
    try reflexivity.
  apply binary_round_aux_opp.
Qed.

Lemma SFmul_opp_opp a :
  SFmul prec emax (SFopp a) (SFopp a) = SFmul prec emax a a.
Proof.
  destruct a as [s|s| |s m e]; cbn [SFmul SFopp]; try reflexivity;
    now destruct s.
Qed.

Lemma mul_opp_r (a b : float) : a * (- b) = - (a * b).
Proof.
  apply Prim2SF_inj.
  rewrite FloatAxioms.mul_spec, !FloatAxioms.opp_spec, FloatAxioms.mul_spec.
  apply SFmul_opp_r.
Qed.

Lemma mul_opp_opp (a : float) : (- a) * (- a) = a * a.
Proof.
  apply Prim2SF_inj.
  rewrite !FloatAxioms.mul_spec, !FloatAxioms.opp_spec. apply SFmul_opp_opp.
Qed.

End FloatSymmetry.

(** A frame corner and its mirror image across the camera's vertical axis
    lie at the same ground distance. *)
Lemma corner_ground_mirror {host : Host} (altitude pitchRad x y z : float) :
  fst (corner_ground altitude pitchRad (CameraPoint (- x) y z)) =
  fst (corner_ground altitude pitchRad (CameraPoint x y z)).
Proof.
  unfold corner_ground. cbn [cx cy cz]. cbv zeta.
  rewrite FloatSymmetry.mul_opp_opp.
  destruct (_ <=? _); cbn [fst];
    now rewrite FloatSymmetry.mul_opp_r, FloatSymmetry.mul_opp_opp.
Qed.

(** X13: the footprint is mirror-symmetric in its distances: for every
    altitude, field of view and gimbal pitch, and whatever the host's
    trigonometric functions return, the top-right and top-left corners are
    projected at the same ground distance, and so are the bottom-right and
    bottom-left corners: the two distances are the same floating-point
    number, or both NaN. *)
Theorem corner_grounds_mirror {host : Host} (altitude hfov gimbalPitch : float) :
  exists top bottom,
    map fst (corner_grounds altitude hfov gimbalPitch) = [top; bottom; bottom; top].
Proof.
  unfold corner_grounds, cornersCam. cbv zeta. cbn [map].
  rewrite !corner_ground_mirror. eauto.
Qed.

(** ** calculateMissionDistance: the total and the legs *)

Module FloatAddition.
Import SF Grid F64 FloatOrder Rounding.

Local Open Scope Z_scope.

Lemma iter_xO m d : Z.pos (Pos.iter xO m d) = Z.pos m * 2 ^ Z.pos d.
Proof.
  induction d as [|d IH] using Pos.peano_ind.
  - cbn [Pos.iter]. lia.
  - rewrite Pos.iter_succ, Pos2Z.inj_xO, IH, Pos2Z.inj_succ, Z.pow_succ_r by lia.
    ring.
Qed.

(** [shl_align] lowers the exponent to [e'] when [e'] is below [e], and
    keeps the value. *)
Lemma shl_align_spec m e e' :
  let r := shl_align m e e' in
  snd r = Z.min e e' /\ Z.pos (fst r) = Z.pos m * 2 ^ (e - snd r).
Proof.
  unfold shl_align. destruct (e' - e) as [|d|d] eqn:E; cbn [fst snd].
  - split; [ lia | ]. rewrite Z.sub_diag. lia.
  - split; [ lia | ]. rewrite Z.sub_diag. lia.
  - split; [ lia | ]. rewrite iter_xO. f_equal. f_equal. lia.
Qed.

Lemma F2R_shl_align m e e' :
  F2R (fst (shl_align m e e')) (snd (shl_align m e e')) = F2R m e.
Proof.
  destruct (shl_align_spec m e e') as [E1 E2]. unfold F2R. rewrite E2, mult_IZR.
  set (e1 := snd (shl_align m e e')) in *.
  assert (He : 0 <= e - e1) by lia.
  rewrite <- bpow_IZR by assumption.
  assert (Eb : bpow e = (bpow (e - e1) * bpow e1)%R)
    by (rewrite <- bpow_add; f_equal; ring).
  rewrite Eb. ring.
Qed.

(** [binary_round] rounds the value of its mantissa and exponent. *)
Lemma binary_round_rounded m e :
  exists m1 e1,
    rounded (F2R m e) m1 e1 /\ binary_round prec emax false m e = finish m1 e1.
Proof.
  unfold binary_round. rewrite fexp_fexp64.
  change (Z.pos (digits2_pos m)) with (Zdigits2 (Z.pos m)).
  set (k := Zdigits2 (Z.pos m) + e).
  pose proof (shl_align_spec m e (fexp64 k)) as [E1 E2].
  pose proof (F2R_shl_align m e (fexp64 k)) as EF.
  destruct (shl_align m e (fexp64 k)) as [mz ez]. cbn [fst snd] in *.
  assert (Hl : located loc_Exact (Z.pos mz) (scaled (F2R m e) ez)).
  { simpl. rewrite <- EF. apply scaled_F2R. }
  destruct (binary_round_aux_rounded (Z.pos mz) ez loc_Exact (F2R m e) k)
    as (m1 & Hr & E); try lia; auto.
  - apply F2R_mag.
  - eauto.
Qed.

(** The sum of two positive floats is the rounding of the exact sum. *)
Lemma SFadd_rounded mx ex my ey :
  exists m1 e1,
    rounded (F2R mx ex + F2R my ey) m1 e1 /\
    SFadd prec emax (S754_finite false mx ex) (S754_finite false my ey) =
    finish m1 e1.
Proof.
  cbn [SFadd cond_Zopp]. set (ez := Z.min ex ey).
  pose proof (shl_align_spec mx ex ez) as [X1 X2].
  pose proof (shl_align_spec my ey ez) as [Y1 Y2].
  pose proof (F2R_shl_align mx ex ez) as FX.
  pose proof (F2R_shl_align my ey ez) as FY.
  destruct (shl_align mx ex ez) as [mx' ex'], (shl_align my ey ez) as [my' ey'].
  cbn [fst snd] in *.
  assert (Hx : ex' = ez) by lia. assert (Hy : ey' = ez) by lia.
  clear X1 Y1. subst ex' ey'.
  change (Z.pos mx' + Z.pos my') with (Z.pos (mx' + my')).
  cbn [binary_normalize].
  assert (ES : F2R (mx' + my') ez = (F2R mx ex + F2R my ey)%R).
  { rewrite <- FX, <- FY. unfold F2R. rewrite Pos2Z.inj_add, plus_IZR. ring. }
  rewrite <- ES. apply binary_round_rounded.
Qed.

(** Adding a positive float does not lower a valid positive float. *)
Lemma SFadd_ge_l mx ex my ey :
  valid_binary (S754_finite false mx ex) = true ->
  SFleb (S754_finite false mx ex)
        (SFadd prec emax (S754_finite false mx ex) (S754_finite false my ey)) = true.
Proof.
  intros Hv. destruct (SFadd_rounded mx ex my ey) as (m1 & e1 & R & ->).
  destruct (valid_rounded mx ex Hv) as [R' E]. rewrite <- E.
  apply (rounded_mono (F2R mx ex) (F2R mx ex + F2R my ey)); auto.
  pose proof (F2R_pos my ey). lra.
Qed.

Lemma SFadd_ge_r mx ex my ey :
  valid_binary (S754_finite false my ey) = true ->
  SFleb (S754_finite false my ey)
        (SFadd prec emax (S754_finite false mx ex) (S754_finite false my ey)) = true.
Proof.
  intros Hv. destruct (SFadd_rounded mx ex my ey) as (m1 & e1 & R & ->).
  destruct (valid_rounded my ey Hv) as [R' E]. rewrite <- E.
  apply (rounded_mono (F2R my ey) (F2R mx ex + F2R my ey)); auto.
  pose proof (F2R_pos mx ex). lra.
Qed.

Local Open Scope float_scope.

(** A sum of two values at or above zero is at or above each of them. *)
Lemma add_nonneg (a d : float) :
  (0 <=? a) = true -> (0 <=? d) = true ->
  (a <=? a + d) = true /\ (d <=? a + d) = true.
Proof.
  rewrite !FloatAxioms.leb_spec, FloatAxioms.add_spec, Prim2SF_zero.
  unfold SF64add.
  pose proof (Prim2SF_valid a) as Va. pose proof (Prim2SF_valid d) as Vd.
  destruct (Prim2SF a) as [sa|[]| |[] ma ea]; try discriminate;
    destruct (Prim2SF d) as [sd|[]| |[] md ed]; try discriminate; intros _ _;
    try (split; reflexivity);
    try (destruct sa; try destruct sd; split; reflexivity).
  - split; [ destruct sa; reflexivity | ].
    cbn [SFadd]. unfold SFleb. now rewrite SFcompare_refl.
  - split; [ | destruct sd; reflexivity ].
    cbn [SFadd]. unfold SFleb. now rewrite SFcompare_refl.
  - split; [ now apply SFadd_ge_l | now apply SFadd_ge_r ].
Qed.

(** The running total of values at or above zero is at or above where it
    started and at or above every value added. *)
Lemma sum_ge (l : list float) : forall acc,
  (0 <=? acc) = true -> Forall (fun d => (0 <=? d) = true) l ->
  let total :=
    fold_left (fun totalDistance distance => totalDistance + distance) l acc in
  (acc <=? total) = true /\ Forall (fun d => (d <=? total) = true) l.
Proof.
  induction l as [|d l IH]; intros acc Hacc Hall; cbn [fold_left].
  - split; [ | constructor ]. apply leb_refl. now destruct (leb_not_nan _ _ Hacc).
  - inversion Hall as [|? ? Hd Hall']; subst.
    destruct (add_nonneg acc d Hacc Hd) as [H1 H2].
    destruct (IH (acc + d) (leb_trans _ _ _ Hacc H1) Hall') as [H3 H4].
    cbv zeta in *. split; [ eauto using leb_trans | ].
    constructor; eauto using leb_trans.
Qed.

(** Every rounded value is at or below [+Infinity]. *)
Lemma finish_le_infinity x m e :
  rounded x m e -> SFleb (finish m e) (S754_infinity false) = true.
Proof.
  intros R. destruct (rounded_bounds _ _ _ R) as (B & E & _).
  destruct (finish_ord m e B E) as [N O].
  apply SFleb_ord; auto. unfold lex_lt. cbn [ord].
  finish_cases O; lia.
Qed.

(** Adding one value at or above zero is monotone from zero up. *)
Lemma add_mono_l (a b c : float) :
  (0 <=? a) = true -> (a <=? b) = true -> (0 <=? c) = true ->
  (a + c <=? b + c) = true.
Proof.
  rewrite !FloatAxioms.leb_spec, !FloatAxioms.add_spec, Prim2SF_zero.
  unfold SF64add.
  pose proof (Prim2SF_valid a) as Va. pose proof (Prim2SF_valid b) as Vb.
  pose proof (Prim2SF_valid c) as Vc.
  destruct (Prim2SF a) as [sa|[]| |[] ma ea]; try discriminate;
    destruct (Prim2SF b) as [sb|[]| |[] mb eb]; try discriminate;
    destruct (Prim2SF c) as [sc|[]| |[] mc ec]; try discriminate;
    intros _ Hle _; try discriminate; try reflexivity; try exact Hle;
    try (destruct sa; try destruct sb; try destruct sc; reflexivity).
  - (* 0 + c <= 0 + c *)
    cbn [SFadd]. unfold SFleb. now rewrite SFcompare_refl.
  - (* 0 + c <= b + c *)
    now apply SFadd_ge_r.
  - (* a + c <= Infinity *)
    destruct (SFadd_rounded ma ea mc ec) as (m1 & e1 & R & ->).
    cbn [SFadd]. now apply finish_le_infinity with (x := (F2R ma ea + F2R mc ec)%R).
  - (* all positive *)
    pose proof (SFleb_F2R _ _ _ _ Va Vb Hle) as Hv.
    destruct (SFadd_rounded ma ea mc ec) as (m1 & e1 & R1 & ->).
    destruct (SFadd_rounded mb eb mc ec) as (m2 & e2 & R2 & ->).
    apply (rounded_mono (F2R ma ea + F2R mc ec) (F2R mb eb + F2R mc ec)); auto.
    lra.
Qed.

End FloatAddition.

(** X14: when no leg has a negative or NaN distance, the total mission
    distance is at or above zero and at or above the distance of every
    leg, rounding and overflow included; in particular it is at or above
    the [minDistance] that [calculateMaxSpeed] reports for the same path. *)
Theorem calculateMissionDistance_ge_legs {host : Host} (waypoints : list waypoint) :
  Forall (fun d => (0 <=? d) = true) (leg_distances waypoints) ->
  let total := calculateMissionDistance waypoints in
  (0 <=? total) = true /\
  Forall (fun d => (d <=? total) = true) (leg_distances waypoints) /\
  (forall photoInterval,
      (minDistance (calculateMaxSpeed (Some waypoints) photoInterval) <=? total)
      = true).
Proof.
  intros Hlegs total.
  assert (H : (0 <=? total) = true /\
              Forall (fun d => (d <=? total) = true) (leg_distances waypoints)).
  { subst total. unfold calculateMissionDistance.
    destruct (Nat.ltb_spec (length waypoints) 2) as [Hlt | _].
    - split; [ reflexivity | ].
      destruct waypoints as [|a [|b rest]]; cbn in Hlt; try lia; constructor.
    - now apply FloatAddition.sum_ge. }
  destruct H as [H0 Hall]. repeat split; auto.
  intros photoInterval. unfold calculateMaxSpeed.
  destruct photoInterval as [p|]; [ | exact H0 ].
  destruct (_ || _) eqn:G; [ exact H0 | ]. cbn [minDistance].
  apply orb_false_iff in G as [G _]. apply orb_false_iff in G as [G _].
  apply Nat.ltb_ge in G.
  assert (Hnn : Forall (fun d => is_nan d = false) (leg_distances waypoints)).
  { eapply List.Forall_impl; [ | exact Hlegs ]. intros d Hd.
    apply (leb_not_nan _ _ Hd). }
  destruct (Math_min_spec _ (leg_distances_nonempty _ G) Hnn) as [Hin _].
  rewrite List.Forall_forall in Hall. now apply Hall.
Qed.

Lemma calculateMissionDistance_ge_legs_witness :
  let waypoints := [Waypoint 0 0; Waypoint 0 1; Waypoint 0 3] in
  let total := calculateMissionDistance (host := planar_host) waypoints in
  (0 <=? total) = true /\
  Forall (fun d => (d <=? total) = true)
         (leg_distances (host := planar_host) waypoints) /\
  (forall photoInterval,
      (minDistance (calculateMaxSpeed (host := planar_host) (Some waypoints)
                      photoInterval) <=? total) = true).
Proof.
  apply (calculateMissionDistance_ge_legs (host := planar_host)
           [Waypoint 0 0; Waypoint 0 1; Waypoint 0 3]).
  repeat constructor.
Defined.

(** ** getFlightWarningLevel: a longer flight time *)

Module FloatProduct.
Import SF Grid F64 FloatOrder FloatSign Rounding FloatMono.

(** Multiplication by a positive float with a 53-bit mantissa is monotone
    on valid positive floats. *)
Lemma SFmul_mono m1 e1 m2 e2 mc ec :
  valid_binary (S754_finite false m1 e1) = true ->
  valid_binary (S754_finite false m2 e2) = true ->
  (4503599627370496 <= Z.pos mc)%Z ->
  SFleb (S754_finite false m1 e1) (S754_finite false m2 e2) = true ->
  SFleb (SFmul prec emax (S754_finite false m1 e1) (S754_finite false mc ec))
        (SFmul prec emax (S754_finite false m2 e2) (S754_finite false mc ec))
  = true.
Proof.
  intros V1 V2 Hmc Hle.
  pose proof (SFleb_F2R _ _ _ _ V1 V2 Hle) as Hv.
  destruct (SFmul_rounded m1 e1 mc ec Hmc) as (q1 & k1 & R1 & ->).
  destruct (SFmul_rounded m2 e2 mc ec Hmc) as (q2 & k2 & R2 & ->).
  apply (rounded_mono (F2R m1 e1 * F2R mc ec) (F2R m2 e2 * F2R mc ec)); auto.
  pose proof (F2R_pos mc ec). nra.
Qed.

(** The same on [float], from zero up to [+Infinity]. *)
Lemma mul_const_mono (a b c : float) mc ec :
  Prim2SF c = S754_finite false mc ec -> (4503599627370496 <= Z.pos mc)%Z ->
  (0 <=? a) = true -> (a <=? b) = true -> (a * c <=? b * c) = true.
Proof.
  intros Ec Hmc.
  rewrite !FloatAxioms.leb_spec, !FloatAxioms.mul_spec, Prim2SF_zero, Ec.
  unfold SF64mul.
  pose proof (Prim2SF_valid a) as Va. pose proof (Prim2SF_valid b) as Vb.
  destruct (Prim2SF a) as [sa|[]| |[] ma ea]; try discriminate;
    destruct (Prim2SF b) as [sb|[]| |[] mb eb]; try discriminate; intros _ Hle;
    try reflexivity; try (now destruct sa); try (now destruct sa, sb).
  - (* 0 * c <= b * c *)
    destruct (SFmul_rounded mb eb mc ec Hmc) as (q & k & R & ->).
    destruct (finish_nonneg _ _ _ R) as (_ & _ & Z).
    cbn [SFmul]. destruct sa; exact Z.
  - (* a * c <= Infinity *)
    destruct (SFmul_rounded ma ea mc ec Hmc) as (q & k & R & ->).
    destruct (rounded_bounds _ _ _ R) as (B & E & _).
    destruct (finish_ord q k B E) as [N O].
    cbn [SFmul xorb]. apply SFleb_ord; auto. unfold lex_lt. cbn [ord].
    finish_cases O; lia.
  - now apply SFmul_mono.
Qed.

End FloatProduct.

(** X15: a longer flight time never makes the warning more severe: for one
    mission time and flight times [0 < m1 <= m2], in minutes, the level
    under [m2] is at most as severe as the level under [m1]. *)
Theorem getFlightWarningLevel_antitone_limit (missionTimeSeconds m1 m2 : float) :
  (0 <? m1) = true -> (m1 <=? m2) = true ->
  (severity (getFlightWarningLevel missionTimeSeconds m2) <=
   severity (getFlightWarningLevel missionTimeSeconds m1))%nat.
Proof.
  intros Hpos Hle.
  assert (Hpos2 : (0 <? m2) = true).
  { destruct (0 <? m2) eqn:E; auto.
    destruct (leb_not_nan _ _ Hle) as [_ N2].
    apply ltb_false_leb in E; auto.
    pose proof (leb_trans _ _ _ Hle E) as C. apply leb_ltb_false in C. congruence. }
  unfold getFlightWarningLevel, JS.not.
  rewrite (pos_truthy _ Hpos), (pos_not_le0 _ Hpos),
          (pos_truthy _ Hpos2), (pos_not_le0 _ Hpos2). cbn [negb orb].
  assert (HL : (m1 * 60 <=? m2 * 60) = true).
  { apply (FloatProduct.mul_const_mono m1 m2 60 8444249301319680 (-47));
      [ reflexivity | lia | now apply ltb_leb | assumption ]. }
  assert (H0 : (0 <=? m1 * 60) = true).
  { apply (FloatProduct.mul_const_mono 0 m1 60 8444249301319680 (-47));
      [ reflexivity | lia | reflexivity | now apply ltb_leb ]. }
  assert (HT : (m1 * 60 * FLIGHT_WARNING_THRESHOLD <=?
                m2 * 60 * FLIGHT_WARNING_THRESHOLD) = true).
  { apply (FloatProduct.mul_const_mono _ _ _ _ _ threshold_value); [ lia | | ];
      assumption. }
  destruct (m2 * 60 <=? missionTimeSeconds) eqn:E2.
  - now rewrite (leb_trans _ _ _ HL E2).
  - destruct (m2 * 60 * FLIGHT_WARNING_THRESHOLD <=? missionTimeSeconds) eqn:E3.
    + rewrite (leb_trans _ _ _ HT E3).
      destruct (m1 * 60 <=? missionTimeSeconds); cbn; lia.
    + cbn. lia.
Qed.

Lemma getFlightWarningLevel_antitone_limit_witness :
  (severity (getFlightWarningLevel 1800 46) <=
   severity (getFlightWarningLevel 1800 34))%nat.
Proof.
  apply (getFlightWarningLevel_antitone_limit 1800 34 46); reflexivity.
Defined.

(** ** calculateMissionTime: order and whole seconds *)

Module FloatQuotient.
Import SF Grid F64 FloatOrder FloatSign Rounding FloatMono.

(** Division by a positive divisor is monotone in a finite dividend at or
    above zero. *)
Lemma div_mono_l (d1 d2 s : float) :
  (0 <=? d1) = true -> (d1 <=? d2) = true -> is_finite d2 = true ->
  (0 <? s) = true ->
  (0 <=? d1 / s) = true /\ (d1 / s <=? d2 / s) = true.
Proof.
  rewrite is_finite_spec, !FloatAxioms.leb_spec, FloatAxioms.ltb_spec,
          !FloatAxioms.div_spec, Prim2SF_zero.
  unfold SF64div.
  pose proof (Prim2SF_valid d1) as V1. pose proof (Prim2SF_valid d2) as V2.
  destruct (Prim2SF d1) as [s1|[]| |[] m1 e1]; try discriminate;
    destruct (Prim2SF d2) as [s2|[]| |[] m2 e2]; try discriminate;
    destruct (Prim2SF s) as [ss|[]| |[] ms es]; try discriminate;
    intros _ Hle _ _; cbn [SFdiv xorb];
    try (split; reflexivity);
    try (destruct s1; try destruct s2; split; reflexivity).
  - (* 0 / s <= d2 / s *)
    destruct (SFdiv_rounded m2 e2 ms es) as (q & k & R & E).
    cbn [SFdiv xorb] in E. rewrite E.
    destruct (finish_nonneg _ _ _ R) as (_ & _ & Z).
    split; destruct s1; try reflexivity; exact Z.
  - (* both positive *)
    pose proof (SFleb_F2R _ _ _ _ V1 V2 Hle) as Hv.
    destruct (SFdiv_rounded m1 e1 ms es) as (q1 & k1 & R1 & E1).
    destruct (SFdiv_rounded m2 e2 ms es) as (q2 & k2 & R2 & E2).
    cbn [SFdiv xorb] in E1, E2. rewrite E1, E2.
    destruct (finish_nonneg _ _ _ R1) as (_ & _ & Z1).
    split; [ exact Z1 | ].
    apply (rounded_mono (F2R m1 e1 / F2R ms es) (F2R m2 e2 / F2R ms es)); auto.
    pose proof (F2R_pos ms es). unfold Rdiv.
    apply Rmult_le_compat_r; [ | exact Hv ].
    left. now apply Rinv_0_lt_compat.
Qed.

(** Division of a finite dividend at or above zero is antitone in a
    positive divisor. *)
Lemma div_antitone_r (d s1 s2 : float) :
  (0 <=? d) = true -> is_finite d = true ->
  (0 <? s1) = true -> (s1 <=? s2) = true ->
  (0 <=? d / s2) = true /\ (d / s2 <=? d / s1) = true.
Proof.
  rewrite is_finite_spec, !FloatAxioms.leb_spec, FloatAxioms.ltb_spec,
          !FloatAxioms.div_spec, Prim2SF_zero.
  unfold SF64div.
  pose proof (Prim2SF_valid s1) as V1. pose proof (Prim2SF_valid s2) as V2.
  destruct (Prim2SF d) as [sd|[]| |[] md ed]; try discriminate;
    destruct (Prim2SF s1) as [t1|[]| |[] m1 e1]; try discriminate;
    destruct (Prim2SF s2) as [t2|[]| |[] m2 e2]; try discriminate;
    intros _ _ _ Hle; cbn [SFdiv xorb];
    try (split; reflexivity);
    try (destruct sd; split; reflexivity).
  - (* d / Infinity <= d / s1 *)
    destruct (SFdiv_rounded md ed m1 e1) as (q & k & R & E).
    cbn [SFdiv xorb] in E. rewrite E.
    destruct (finish_nonneg _ _ _ R) as (_ & _ & Z).
    split; [ reflexivity | exact Z ].
  - (* both finite *)
    pose proof (SFdiv_antitone md ed m1 e1 m2 e2 V1 V2 Hle) as H.
    destruct (SFdiv_rounded md ed m2 e2) as (q & k & R & E).
    cbn [SFdiv xorb] in E, H. rewrite E in *.
    destruct (finish_nonneg _ _ _ R) as (_ & _ & Z).
    split; [ exact Z | exact H ].
Qed.

End FloatQuotient.

Module MathRound.
Import SF Grid F64 FloatOrder Rounding FloatAddition.

Local Open Scope Z_scope.

Lemma Zdigits2_53 m :
  4503599627370496 <= m < 9007199254740992 -> Zdigits2 m = 53.
Proof.
  intros [Hlo Hhi].
  destruct (Zdigits2_bounds m ltac:(lia)) as [[Dlo Dhi] Dpos].
  destruct (Z_lt_le_dec (Zdigits2 m) 53) as [Hlt | Hge].
  - assert (2 ^ Zdigits2 m <= 2 ^ 52) by (apply Z.pow_le_mono_r; lia).
    change (2 ^ 52) with 4503599627370496 in *. lia.
  - destruct (Z_lt_le_dec 53 (Zdigits2 m)) as [Hgt | Hle]; [ | lia ].
    assert (2 ^ 53 <= 2 ^ (Zdigits2 m - 1)) by (apply Z.pow_le_mono_r; lia).
    change (2 ^ 53) with 9007199254740992 in *. lia.
Qed.

Lemma Zdigits2_le_53 m : 0 < m < 9007199254740992 -> Zdigits2 m <= 53.
Proof.
  intros [Hlo Hhi].
  destruct (Zdigits2_bounds m Hlo) as [[Dlo Dhi] Dpos].
  destruct (Z_le_gt_dec (Zdigits2 m) 53) as [|Hgt]; auto.
  assert (2 ^ 53 <= 2 ^ (Zdigits2 m - 1)) by (apply Z.pow_le_mono_r; lia).
  change (2 ^ 53) with 9007199254740992 in *. lia.
Qed.

Lemma valid_finite m e :
  -1074 <= e <= 971 -> 0 < Z.pos m < 9007199254740992 ->
  (-1074 < e -> 4503599627370496 <= Z.pos m) ->
  valid_binary (S754_finite false m e) = true.
Proof.
  intros He Hm Hn.
  unfold SpecFloat.valid_binary, SpecFloat.bounded, SpecFloat.canonical_mantissa.
  rewrite fexp_fexp64. change (Z.pos (digits2_pos m)) with (Zdigits2 (Z.pos m)).
  apply andb_true_iff. split; [ apply Z.eqb_eq | apply Z.leb_le ].
  - destruct (Z.eq_dec e (-1074)) as [-> | Hne].
    + pose proof (Zdigits2_le_53 (Z.pos m) Hm). unfold fexp64. lia.
    + rewrite Zdigits2_53 by lia. unfold fexp64. lia.
  - change (emax - prec) with 971. lia.
Qed.

(** A rounded value is a valid float. *)
Lemma finish_valid x m e : rounded x m e -> valid_binary (finish m e) = true.
Proof.
  intros R. destruct (rounded_bounds _ _ _ R) as (B & E & N).
  destruct (Z.eq_dec m 0) as [-> | Hne]; [ now rewrite finish_zero | ].
  destruct (Z.eq_dec m 9007199254740992) as [-> | Hne'].
  - rewrite finish_carry by assumption.
    destruct (Z.leb_spec (e + 1) 971); [ | reflexivity ].
    apply valid_finite; lia.
  - destruct m as [|p|p]; try lia. rewrite finish_small by lia.
    destruct (Z.leb_spec e 971); [ | reflexivity ].
    apply valid_finite; lia.
Qed.

(** A positive integer below [2^53] is rounded to itself. *)
Lemma rounded_integer n m1 e1 :
  0 < n < 9007199254740992 -> rounded (IZR n) m1 e1 ->
  e1 <= 0 /\ m1 = n * 2 ^ (- e1) /\ 0 < m1 < 9007199254740992.
Proof.
  intros [Hlo Hhi] (k & m & l & [Klo Khi] & -> & Hm & Hl & ->).
  assert (Hk : k <= 53).
  { assert (H : (bpow (k - 1) < bpow 53)%R).
    { rewrite (bpow_IZR 53) by lia. apply IZR_lt in Hhi.
      change (2 ^ 53) with 9007199254740992. lra. }
    apply bpow_lt_inv in H. lia. }
  set (e := fexp64 k) in *.
  assert (He : e <= 0) by (unfold e, fexp64; lia).
  assert (Es : scaled (IZR n) e = IZR (n * 2 ^ (- e))).
  { rewrite mult_IZR, <- bpow_IZR by lia. unfold scaled.
    assert (Eb : (bpow (- e) * bpow e = 1)%R).
    { rewrite <- bpow_add. replace (- e + e) with 0 by lia. reflexivity. }
    pose proof (bpow_pos e).
    assert (Ei : (/ bpow e = bpow (- e))%R).
    { apply Rmult_eq_reg_r with (bpow e); [ | lra ].
      rewrite Rinv_l by lra. now rewrite Eb. }
    unfold Rdiv. now rewrite Ei. }
  rewrite Es in Hl.
  assert (Em : m = n * 2 ^ (- e) /\ l = loc_Exact).
  { destruct l as [|[]]; cbn [located] in Hl;
      [ split; [ | reflexivity ]; symmetry; now apply eq_IZR | | | ];
      exfalso;
      assert (H0 : (IZR m < IZR (n * 2 ^ (- e)))%R) by lra;
      assert (H3 : (IZR (n * 2 ^ (- e)) < IZR (m + 1))%R)
        by (rewrite plus_IZR; lra);
      apply lt_IZR in H0; apply lt_IZR in H3; lia. }
  destruct Em as [-> ->]. cbn [round_nearest_even].
  split; [ exact He | split; [ reflexivity | ] ].
  assert (Hp : 0 < 2 ^ (- e)) by (apply Z.pow_pos_nonneg; lia).
  split; [ nia | ].
  assert (Hs : (scaled (IZR n) e < bpow (k - e))%R) by now apply scaled_lt_bpow.
  assert (Hke : k - e <= 53) by (unfold e, fexp64; lia).
  apply bpow_le in Hke. rewrite (bpow_IZR 53) in Hke by lia.
  change (2 ^ 53) with 9007199254740992 in Hke.
  apply lt_IZR. rewrite <- Es. lra.
Qed.

(** [n = floor(x + 1/2)], for [x = m * 2^-k]. *)
Lemma half_up_located m k :
  0 < k ->
  let n := (Z.pos m + 2 ^ (k - 1)) / 2 ^ k in
  0 <= n /\ (IZR n <= F2R m (- k) + / 2 < IZR n + 1)%R.
Proof.
  intros Hk n.
  assert (P : 0 < 2 ^ k) by (apply Z.pow_pos_nonneg; lia).
  assert (EH : 2 ^ k = 2 * 2 ^ (k - 1)).
  { replace k with (Z.succ (k - 1)) at 1 by lia. now rewrite Z.pow_succ_r by lia. }
  pose proof (Z.div_mod (Z.pos m + 2 ^ (k - 1)) (2 ^ k) ltac:(lia)) as D.
  pose proof (Z.mod_pos_bound (Z.pos m + 2 ^ (k - 1)) (2 ^ k) P) as [B1 B2].
  fold n in D. set (r := (Z.pos m + 2 ^ (k - 1)) mod 2 ^ k) in *.
  split; [ apply Z.div_pos; lia | ].
  assert (Eb : (bpow (- k) * IZR (2 ^ k) = 1)%R).
  { rewrite <- bpow_IZR by lia. rewrite <- bpow_add.
    replace (- k + k) with 0 by lia. reflexivity. }
  apply (f_equal IZR) in D. rewrite !plus_IZR, mult_IZR in D.
  apply (f_equal IZR) in EH. rewrite mult_IZR in EH.
  apply IZR_le in B1. apply IZR_lt in B2.
  unfold F2R. pose proof (bpow_pos (- k)) as Hb.
  set (b := bpow (- k)) in *. set (Pk := IZR (2 ^ k)) in *.
  set (H := IZR (2 ^ (k - 1))) in *.
  assert (Hh : (H * b = / 2)%R) by nra.
  assert (E1 : (IZR (Z.pos m) * b + / 2 = IZR n + IZR r * b)%R).
  { replace (IZR (Z.pos m)) with (Pk * IZR n + IZR r - H)%R by lra.
    replace ((Pk * IZR n + IZR r - H) * b)%R
      with (IZR n * (b * Pk) + IZR r * b - H * b)%R by ring.
    rewrite Eb, Hh. lra. }
  rewrite E1. split; nra.
Qed.

(** Zeros, infinities, NaN and the floats with an exponent at or above
    zero are left as they are. *)
Lemma Math_round_id x :
  match Prim2SF x with S754_finite _ _ e => 0 <=? e | _ => true end = true ->
  JS.Math_round x = x.
Proof.
  unfold JS.Math_round. destruct (Prim2SF x); auto. now intros ->.
Qed.

(** [Math.round] on a positive finite float: the result is the float of
    the integer [n = floor(x + 1/2)]. *)
Lemma Math_round_view x m e :
  Prim2SF x = S754_finite false m e ->
  exists n,
    0 <= n /\ (IZR n <= F2R m e + / 2 < IZR n + 1)%R /\
    ((n = 0 /\ JS.Math_round x = 0%float) \/
     (0 < n /\ exists m1 e1,
         rounded (IZR n) m1 e1 /\ Prim2SF (JS.Math_round x) = finish m1 e1)).
Proof.
  intros Ex. pose proof (Prim2SF_valid x) as Hv. rewrite Ex in Hv.
  unfold JS.Math_round. rewrite Ex.
  destruct (Z.leb_spec 0 e) as [He | He].
  - exists (Z.pos m * 2 ^ e).
    assert (Hp : 0 < 2 ^ e) by (apply Z.pow_pos_nonneg; lia).
    assert (Ev : IZR (Z.pos m * 2 ^ e) = F2R m e).
    { unfold F2R. now rewrite mult_IZR, <- bpow_IZR. }
    split; [ lia | ]. split; [ rewrite Ev; lra | ].
    right. split; [ lia | ]. exists (Z.pos m), e. rewrite Ev, Ex.
    destruct (valid_rounded m e Hv) as [R E]. now split.
  - cbn [cond_Zopp]. set (k := - e).
    destruct (half_up_located m k ltac:(lia)) as [Hn Hloc]. cbv zeta in Hloc.
    set (n := (Z.pos m + 2 ^ (k - 1)) / 2 ^ k) in *.
    exists n. replace e with (- k) by lia.
    split; [ exact Hn | split; [ exact Hloc | ] ].
    destruct (Z.eqb_spec n 0) as [E0 | Hne]; [ now left | right ].
    split; [ lia | ].
    destruct n as [|p|p]; try lia. cbn [binary_normalize].
    destruct (binary_round_rounded p 0) as (m1 & e1 & R & E).
    assert (Ep : F2R p 0 = IZR (Z.pos p)).
    { unfold F2R. change (bpow 0) with 1%R. ring. }
    rewrite Ep in R. exists m1, e1. split; [ exact R | ].
    rewrite E. apply Prim2SF_SF2Prim. eapply finish_valid; eauto.
Qed.

Local Open Scope float_scope.

(** A zero is at or below every value at or above zero. *)
Lemma zero_leb (x z : float) :
  sf_is_zero (Prim2SF x) = true -> (0 <=? z) = true -> (x <=? z) = true.
Proof.
  rewrite !FloatAxioms.leb_spec, Prim2SF_zero.
  destruct (Prim2SF x) as [s| | |]; try discriminate. intros _.
  now destruct (Prim2SF z) as [s'|s'| |s' m' e'].
Qed.

Lemma finish_leb_zero x m e :
  rounded x m e -> SFleb (S754_zero false) (finish m e) = true.
Proof. intros R. now destruct (finish_nonneg _ _ _ R) as (_ & _ & Z). Qed.

(** [Math.round] is monotone from zero up, and keeps values at or above
    zero there. *)
Lemma Math_round_mono (x y : float) :
  (0 <=? x) = true -> (x <=? y) = true ->
  (0 <=? JS.Math_round x) = true /\
  (JS.Math_round x <=? JS.Math_round y) = true.
Proof.
  intros H0 Hle.
  assert (Hnn : forall z, (0 <=? z) = true -> (0 <=? JS.Math_round z) = true).
  { intros z Hz. rewrite FloatAxioms.leb_spec, Prim2SF_zero in *.
    destruct (Prim2SF z) as [s|[]| |[] m e] eqn:Ez; try discriminate.
    - rewrite Math_round_id by now rewrite Ez. rewrite Ez. now destruct s.
    - rewrite Math_round_id by now rewrite Ez. now rewrite Ez.
    - destruct (Math_round_view z m e Ez) as (n & _ & _ & [[_ ->] | (_ & m1 & e1 & R & ->)]);
        [ reflexivity | now apply finish_leb_zero with (x := IZR n) ]. }
  split; [ now apply Hnn | ].
  assert (Hy : (0 <=? y) = true) by (eapply leb_trans; eauto).
  pose proof (Hnn x H0) as Nx. pose proof (Hnn y Hy) as Ny.
  pose proof (Prim2SF_valid x) as Vx. pose proof (Prim2SF_valid y) as Vy.
  rewrite FloatAxioms.leb_spec, Prim2SF_zero in H0, Hy.
  destruct (Prim2SF x) as [sx|[]| |[] mx ex] eqn:Ex; try discriminate.
  - (* x is a zero *)
    apply zero_leb; auto. rewrite Math_round_id by now rewrite Ex. now rewrite Ex.
  - (* x = +Infinity *)
    rewrite FloatAxioms.leb_spec, Ex in Hle.
    destruct (Prim2SF y) as [sy|[]| |[] my ey] eqn:Ey; try discriminate.
    rewrite !Math_round_id by (now rewrite Ex || now rewrite Ey).
    now rewrite FloatAxioms.leb_spec, Ex, Ey.
  - destruct (Prim2SF y) as [sy|[]| |[] my ey] eqn:Ey; try discriminate.
    + rewrite FloatAxioms.leb_spec, Ex, Ey in Hle. discriminate.
    + (* y = +Infinity *)
      rewrite FloatAxioms.leb_spec. rewrite FloatAxioms.leb_spec, Prim2SF_zero in Nx.
      assert (Ey' : Prim2SF (JS.Math_round y) = S754_infinity false)
        by (rewrite Math_round_id by (now rewrite Ey); exact Ey).
      rewrite Ey'. now destruct (Prim2SF (JS.Math_round x)) as [s|[]| |[] m e].
    + (* both positive and finite *)
      rewrite FloatAxioms.leb_spec, Ex, Ey in Hle.
      pose proof (SFleb_F2R _ _ _ _ Vx Vy Hle) as Hv.
      destruct (Math_round_view x mx ex Ex) as (nx & Hnx & Lx & Cx).
      destruct (Math_round_view y my ey Ey) as (ny & Hny & Ly & Cy).
      assert (Hn : (nx <= ny)%Z).
      { assert (H : (IZR nx < IZR (ny + 1))%R) by (rewrite plus_IZR; lra).
        apply lt_IZR in H. lia. }
      destruct Cx as [[_ E0] | (Px & m1 & e1 & R1 & E1)].
      * rewrite E0. exact Ny.
      * destruct Cy as [[Z0 _] | (Py & m2 & e2 & R2 & E2)]; [ lia | ].
        rewrite FloatAxioms.leb_spec, E1, E2.
        apply (rounded_mono (IZR nx) (IZR ny)); auto. now apply IZR_le.
Qed.

End MathRound.

(** For a speed above zero the mission time is the rounded transit time
    plus overhead. *)
Lemma calculateMissionTime_transit (OVERHEAD totalDistance speed : float) :
  (0 <? speed) = true ->
  calculateMissionTime OVERHEAD totalDistance speed =
  JS.Math_round (totalDistance / speed + OVERHEAD).
Proof.
  intros H. unfold calculateMissionTime, JS.not.
  now rewrite (pos_truthy _ H), (pos_not_le0 _ H).
Qed.

(** X16: a longer path never takes less time: for an overhead at or above
    zero, a speed above zero and finite distances [0 <= d1 <= d2], the
    estimated mission time for [d1] is at or below the one for [d2],
    rounding included. *)
Theorem calculateMissionTime_monotone (OVERHEAD speed d1 d2 : float) :
  (0 <=? OVERHEAD) = true -> (0 <? speed) = true ->
  (0 <=? d1) = true -> (d1 <=? d2) = true -> is_finite d2 = true ->
  (calculateMissionTime OVERHEAD d1 speed <=?
   calculateMissionTime OVERHEAD d2 speed) = true.
Proof.
  intros HO Hs H0 Hle Hfin.
  rewrite !calculateMissionTime_transit by assumption.
  destruct (FloatQuotient.div_mono_l d1 d2 speed H0 Hle Hfin Hs) as [Q0 Q].
  apply MathRound.Math_round_mono.
  - destruct (FloatAddition.add_nonneg _ _ Q0 HO) as [H1 _].
    eapply leb_trans; eauto.
  - now apply FloatAddition.add_mono_l.
Qed.

Lemma calculateMissionTime_monotone_witness :
  (calculateMissionTime 30 1000 3 <=? calculateMissionTime 30 1500 3) = true.
Proof.
  apply (calculateMissionTime_monotone 30 3 1000 1500); reflexivity.
Defined.

(** X17: flying faster never takes longer: for an overhead at or above
    zero, a finite distance at or above zero and speeds [0 < s1 <= s2], the
    estimated mission time at [s2] is at or below the one at [s1]. *)
Theorem calculateMissionTime_antitone_speed (OVERHEAD totalDistance s1 s2 : float) :
  (0 <=? OVERHEAD) = true ->
  (0 <=? totalDistance) = true -> is_finite totalDistance = true ->
  (0 <? s1) = true -> (s1 <=? s2) = true ->
  (calculateMissionTime OVERHEAD totalDistance s2 <=?
   calculateMissionTime OVERHEAD totalDistance s1) = true.
Proof.
  intros HO H0 Hfin Hs1 Hle.
  assert (Hs2 : (0 <? s2) = true).
  { destruct (0 <? s2) eqn:E; auto.
    destruct (leb_not_nan _ _ Hle) as [_ N2].
    apply ltb_false_leb in E; auto.
    pose proof (leb_trans _ _ _ Hle E) as C. apply leb_ltb_false in C. congruence. }
  rewrite !calculateMissionTime_transit by assumption.
  destruct (FloatQuotient.div_antitone_r totalDistance s1 s2 H0 Hfin Hs1 Hle)
    as [Q0 Q].
  apply MathRound.Math_round_mono.
  - destruct (FloatAddition.add_nonneg _ _ Q0 HO) as [H1 _].
    eapply leb_trans; eauto.
  - now apply FloatAddition.add_mono_l.
Qed.

Lemma calculateMissionTime_antitone_speed_witness :
  (calculateMissionTime 30 1000 4.5 <=? calculateMissionTime 30 1000 3) = true.
Proof.
  apply (calculateMissionTime_antitone_speed 30 1000 3 4.5); reflexivity.
Defined.

Module MathRoundWhole.
Import SF Grid F64 Rounding FloatAddition MathRound.

Local Open Scope Z_scope.

Lemma binary_round_opp m e :
  binary_round prec emax true m e = SFopp (binary_round prec emax false m e).
Proof.
  unfold binary_round. destruct (shl_align m e _) as [mz ez].
  apply (FloatSymmetry.binary_round_aux_opp false).
Qed.

(** A positive integer below [2^53] is a float, exactly. *)
Lemma binary_round_integer p :
  Z.pos p < 9007199254740992 ->
  exists m1 e1,
    e1 <= 0 /\ Z.pos m1 = Z.pos p * 2 ^ (- e1) /\
    valid_binary (S754_finite false m1 e1) = true /\
    binary_round prec emax false p 0 = S754_finite false m1 e1.
Proof.
  intros Hp. destruct (binary_round_rounded p 0) as (m & e & R & E).
  assert (Ep : F2R p 0 = IZR (Z.pos p)).
  { unfold F2R. change (bpow 0) with 1%R. ring. }
  rewrite Ep in R.
  destruct (rounded_integer (Z.pos p) m e ltac:(lia) R) as (He & Em & Hm).
  destruct (rounded_bounds _ _ _ R) as (_ & Hlo & _).
  pose proof (finish_valid _ _ _ R) as Hv.
  destruct m as [|m1|m1]; try lia.
  rewrite finish_small in E, Hv by lia.
  destruct (Z.leb_spec e 971); [ | lia ].
  exists m1, e. auto.
Qed.

(** Rounding half up leaves an integer multiple of [2^k] where it is. *)
Lemma half_up_integer (s : bool) p k :
  0 < k ->
  (cond_Zopp s (Z.pos p * 2 ^ k) + 2 ^ (k - 1)) / 2 ^ k = cond_Zopp s (Z.pos p).
Proof.
  intros Hk.
  assert (P : 0 < 2 ^ (k - 1)) by (apply Z.pow_pos_nonneg; lia).
  assert (EH : 2 ^ k = 2 * 2 ^ (k - 1)).
  { replace k with (Z.succ (k - 1)) at 1 by lia. now rewrite Z.pow_succ_r by lia. }
  replace (cond_Zopp s (Z.pos p * 2 ^ k)) with (cond_Zopp s (Z.pos p) * 2 ^ k)
    by (destruct s; cbn [cond_Zopp]; ring).
  rewrite Z.div_add_l by lia. rewrite Z.div_small by lia. ring.
Qed.

(** The float of an integer below [2^53] in absolute value is left as it
    is by [Math.round]. *)
Lemma Math_round_of_integer (s : bool) p :
  Z.pos p < 9007199254740992 ->
  let y := SF2Prim (binary_normalize prec emax (cond_Zopp s (Z.pos p)) 0 false) in
  JS.Math_round y = y.
Proof.
  intros Hp y.
  destruct (binary_round_integer p Hp) as (m1 & e1 & He & Em & Hv & E).
  assert (Ey : Prim2SF y = S754_finite s m1 e1).
  { subst y. destruct s.
    - change (cond_Zopp true (Z.pos p)) with (Z.neg p). cbn [binary_normalize].
      rewrite binary_round_opp, E. cbn [SFopp negb]. now apply Prim2SF_SF2Prim.
    - change (cond_Zopp false (Z.pos p)) with (Z.pos p). cbn [binary_normalize].
      rewrite E. now apply Prim2SF_SF2Prim. }
  destruct (Z.eq_dec e1 0) as [-> | Hne].
  - apply Math_round_id. now rewrite Ey.
  - unfold JS.Math_round. rewrite Ey.
    destruct (Z.leb_spec 0 e1); [ lia | ].
    rewrite Em, half_up_integer by lia.
    destruct (Z.eqb_spec (cond_Zopp s (Z.pos p)) 0) as [C | _];
      [ destruct s; discriminate | reflexivity ].
Qed.

(** The integer [floor(x + 1/2)] of a float with a negative exponent is
    below [2^53] in absolute value. *)
Lemma half_up_small (s : bool) m k :
  Z.pos m < 9007199254740992 -> 0 < k ->
  - 9007199254740992 < (cond_Zopp s (Z.pos m) + 2 ^ (k - 1)) / 2 ^ k
  < 9007199254740992.
Proof.
  intros Hm Hk.
  assert (P : 0 < 2 ^ (k - 1)) by (apply Z.pow_pos_nonneg; lia).
  assert (EH : 2 ^ k = 2 * 2 ^ (k - 1)).
  { replace k with (Z.succ (k - 1)) at 1 by lia. now rewrite Z.pow_succ_r by lia. }
  pose proof (Z.div_mod (cond_Zopp s (Z.pos m) + 2 ^ (k - 1)) (2 ^ k) ltac:(lia)) as D.
  pose proof (Z.mod_pos_bound (cond_Zopp s (Z.pos m) + 2 ^ (k - 1)) (2 ^ k)
                ltac:(lia)) as B.
  set (n := (cond_Zopp s (Z.pos m) + 2 ^ (k - 1)) / 2 ^ k) in *.
  set (r := (cond_Zopp s (Z.pos m) + 2 ^ (k - 1)) mod 2 ^ k) in *.
  set (H := 2 ^ (k - 1)) in *. rewrite EH in *.
  destruct s; cbn [cond_Zopp] in D; nia.
Qed.

(** [Math.round] is idempotent: its result is a whole number, an infinity
    or NaN. *)
Lemma Math_round_idempotent x : JS.Math_round (JS.Math_round x) = JS.Math_round x.
Proof.
  pose proof (Prim2SF_valid x) as Hv.
  destruct (Prim2SF x) as [s|s| |s m e] eqn:Ex;
    try (rewrite (Math_round_id x) by (now rewrite Ex);
         apply Math_round_id; now rewrite Ex).
  destruct (Z.leb_spec 0 e) as [He | He].
  - assert (E : JS.Math_round x = x).
    { apply Math_round_id. rewrite Ex. now apply Z.leb_le. }
    now rewrite !E.
  - assert (Hm : Z.pos m < 9007199254740992).
    { unfold SpecFloat.valid_binary in Hv.
      apply (valid_canonical m e). exact Hv. }
    pose proof (half_up_small s m (- e) Hm ltac:(lia)) as Hn.
    unfold JS.Math_round at 2 3. rewrite Ex.
    destruct (Z.leb_spec 0 e); [ lia | ].
    set (n := (cond_Zopp s (Z.pos m) + 2 ^ (- e - 1)) / 2 ^ (- e)) in *.
    destruct n as [|p|p]; cbn [Z.eqb].
    + now destruct s.
    + apply (Math_round_of_integer false p). lia.
    + apply (Math_round_of_integer true p). lia.
Qed.

End MathRoundWhole.

(** X18: for a speed above zero the estimated mission time is a whole
    number of seconds (or an infinity or NaN): [Math.round] leaves it as it
    is. *)
Theorem calculateMissionTime_whole_seconds (OVERHEAD totalDistance speed : float) :
  (0 <? speed) = true ->
  JS.Math_round (calculateMissionTime OVERHEAD totalDistance speed) =
  calculateMissionTime OVERHEAD totalDistance speed.
Proof.
  intros H. rewrite calculateMissionTime_transit by assumption.
  apply MathRoundWhole.Math_round_idempotent.
Qed.

Lemma calculateMissionTime_whole_seconds_witness :
  JS.Math_round (calculateMissionTime 30 1000 3) = calculateMissionTime 30 1000 3.
Proof. apply (calculateMissionTime_whole_seconds 30 1000 3). reflexivity. Defined.

(** ** The footprint estimate and calculateFootprint *)

Module HalfAngle.
Import SF Grid F64 FloatOrder Rounding FloatMono MathRound.

Local Open Scope Z_scope.

(** A real number has one rounding. *)
Lemma rounded_unique x m e m' e' :
  rounded x m e -> rounded x m' e' -> m = m' /\ e = e'.
Proof.
  intros (k & m0 & l & Hk & -> & _ & Hl & ->) (k' & m0' & l' & Hk' & -> & _ & Hl' & ->).
  pose proof (mag_unique _ _ _ Hk Hk') as <-. split; [ | reflexivity ].
  pose proof (located_cell _ _ _ Hl) as C. pose proof (located_cell _ _ _ Hl') as C'.
  assert (m0 = m0') as <-.
  { assert (H1 : (IZR m0 < IZR (m0' + 1))%R) by (rewrite plus_IZR; lra).
    assert (H2 : (IZR m0' < IZR (m0 + 1))%R) by (rewrite plus_IZR; lra).
    apply lt_IZR in H1. apply lt_IZR in H2. lia. }
  pose proof (round_nearest_even_mono _ _ _ _ _ Hl Hl' (Rle_refl _)).
  pose proof (round_nearest_even_mono _ _ _ _ _ Hl' Hl (Rle_refl _)). lia.
Qed.

(** Above the smallest exponent, halving a number halves its rounding. *)
Lemma rounded_half x m e :
  rounded x m e -> -1074 < e -> rounded (x / 2) m (e - 1).
Proof.
  intros (k & m0 & l & [Klo Khi] & -> & Hm & Hl & ->) He.
  exists (k - 1), m0, l.
  assert (E1 : bpow (k - 1) = (2 * bpow (k - 1 - 1))%R).
  { rewrite <- bpow_succ. f_equal. lia. }
  assert (E2 : bpow k = (2 * bpow (k - 1))%R).
  { rewrite <- bpow_succ. f_equal. lia. }
  assert (Ee : fexp64 (k - 1) = fexp64 k - 1) by (unfold fexp64 in *; lia).
  assert (E3 : bpow (fexp64 k) = (2 * bpow (fexp64 k - 1))%R).
  { rewrite <- bpow_succ. f_equal. lia. }
  pose proof (bpow_pos (fexp64 k - 1)).
  assert (Es : scaled (x / 2) (fexp64 k - 1) = scaled x (fexp64 k)).
  { unfold scaled. rewrite E3. field. lra. }
  split; [ split; lra | ]. split; [ lia | ]. split; [ exact Hm | ].
  split; [ now rewrite Es | reflexivity ].
Qed.

(** The value of a float whose mantissa is an integer multiple of a power
    of two. *)
Lemma F2R_integer p n k :
  Z.pos p = n * 2 ^ k -> 0 <= k -> F2R p (- k) = IZR n.
Proof.
  intros E Hk. unfold F2R. rewrite E, mult_IZR, <- bpow_IZR by lia.
  assert (Eb : (bpow k * bpow (- k) = 1)%R).
  { rewrite <- bpow_add. replace (k + - k) with 0 by lia. reflexivity. }
  rewrite Rmult_assoc, Eb. ring.
Qed.

Lemma F2R_halved p e : F2R p (e - 1) = (F2R p e / 2)%R.
Proof.
  unfold F2R. replace e with (e - 1 + 1) at 2 by lia. rewrite bpow_succ. field.
Qed.

(** A finite float is below [2^1024]. *)
Lemma F2R_below_overflow m e :
  valid_binary (S754_finite false m e) = true -> (F2R m e < bpow 1024)%R.
Proof.
  intros Hv. destruct (valid_canonical m e Hv) as (Hc & He & Hm).
  pose proof (F2R_bounds m e) as [_ Hhi].
  assert (Hd : Zdigits2 (Z.pos m) + e <= 1024) by (unfold fexp64 in Hc; lia).
  apply bpow_le in Hd. lra.
Qed.

(** Dividing by 180 and then by 2 gives what dividing by 360 gives, for
    every finite float from [2^-1000] up. *)
Lemma SFdiv_180_half m e :
  valid_binary (S754_finite false m e) = true ->
  (bpow (-1000) <= F2R m e)%R ->
  SFdiv prec emax
    (SFdiv prec emax (S754_finite false m e)
                     (S754_finite false 6333186975989760 (-45)))
    (S754_finite false 4503599627370496 (-51)) =
  SFdiv prec emax (S754_finite false m e)
                  (S754_finite false 6333186975989760 (-44)).
Proof.
  intros Hv Hlow. pose proof (F2R_below_overflow m e Hv) as Hhigh.
  destruct (SFdiv_rounded m e 6333186975989760 (-45)) as (m1 & e1 & R1 & ->).
  destruct (SFdiv_rounded m e 6333186975989760 (-44)) as (m3 & e3 & R3 & ->).
  rewrite (F2R_integer _ 180 45) in R1 by (reflexivity || lia).
  rewrite (F2R_integer _ 360 44) in R3 by (reflexivity || lia).
  set (x := (F2R m e / 180)%R) in *.
  replace (F2R m e / 360)%R with (x / 2)%R in R3 by (unfold x; field).
  (* the exponent of the first quotient *)
  assert (He1 : -1074 < e1 /\ e1 + 1 <= 971).
  { destruct R1 as (k & _ & _ & [Klo Khi] & -> & _).
    assert (L : (bpow (-1008) <= x)%R).
    { assert (E : bpow (-1000) = (256 * bpow (-1008))%R).
      { replace (-1000) with (8 + -1008) by lia. rewrite bpow_add.
        rewrite (bpow_IZR 8) by lia. reflexivity. }
      pose proof (bpow_pos (-1008)). unfold x. lra. }
    assert (U : (x < bpow 1017)%R).
    { assert (E : bpow 1024 = (128 * bpow 1017)%R).
      { replace 1024 with (7 + 1017) by lia. rewrite bpow_add.
        rewrite (bpow_IZR 7) by lia. reflexivity. }
      pose proof (bpow_pos 1017). unfold x. lra. }
    assert (K1 : (bpow (-1008) < bpow k)%R) by lra.
    assert (K2 : (bpow (k - 1) < bpow 1017)%R) by lra.
    apply bpow_lt_inv in K1. apply bpow_lt_inv in K2. unfold fexp64. lia. }
  destruct He1 as [Hlo1 Hhi1].
  destruct (rounded_bounds _ _ _ R1) as (B1 & _ & N1). specialize (N1 Hlo1).
  pose proof (rounded_unique _ _ _ _ _ R3 (rounded_half _ _ _ R1 Hlo1)) as [-> ->].
  (* the first quotient as a float, and its half *)
  assert (Hy : exists p q,
             finish m1 e1 = S754_finite false p q /\
             finish m1 (e1 - 1) = S754_finite false p (q - 1) /\
             valid_binary (S754_finite false p (q - 1)) = true).
  { destruct (Z.eq_dec m1 9007199254740992) as [-> | Hne].
    - exists 4503599627370496%positive, (e1 + 1).
      rewrite !finish_carry by lia.
      destruct (Z.leb_spec (e1 + 1) 971); [ | lia ].
      destruct (Z.leb_spec (e1 - 1 + 1) 971); [ | lia ].
      repeat split; [ f_equal; lia | apply valid_finite; lia ].
    - destruct m1 as [|p|p]; try lia. exists p, e1.
      rewrite !finish_small by lia.
      destruct (Z.leb_spec e1 971); [ | lia ].
      destruct (Z.leb_spec (e1 - 1) 971); [ | lia ].
      repeat split. apply valid_finite; lia. }
  destruct Hy as (p & q & -> & -> & Vh).
  destruct (SFdiv_rounded p q 4503599627370496 (-51)) as (m2 & e2 & R2 & ->).
  rewrite (F2R_integer _ 2 51) in R2 by (reflexivity || lia).
  destruct (valid_rounded p (q - 1) Vh) as [Rh Eh].
  rewrite F2R_halved in Rh.
  pose proof (rounded_unique _ _ _ _ _ R2 Rh) as [-> ->]. exact Eh.
Qed.

Local Open Scope float_scope.

(** The same on [float], for every value from [1e-300] up. *)
Lemma div_180_half (P : float) :
  is_finite P = true -> (1e-300 <=? P) = true -> P / 180 / 2 = P / 360.
Proof.
  rewrite is_finite_spec, FloatAxioms.leb_spec. intros Hfin Hle.
  apply Prim2SF_inj. rewrite !FloatAxioms.div_spec. unfold SF64div.
  change (Prim2SF 180) with (S754_finite false 6333186975989760 (-45)).
  change (Prim2SF 360) with (S754_finite false 6333186975989760 (-44)).
  change (Prim2SF 2) with (S754_finite false 4503599627370496 (-51)).
  change (Prim2SF 1e-300) with (S754_finite false 6032057205060441 (-1049)) in Hle.
  pose proof (Prim2SF_valid P) as Hv.
  destruct (Prim2SF P) as [s|s| |[] m e]; try discriminate.
  apply SFdiv_180_half; [ exact Hv | ].
  pose proof (SFleb_F2R 6032057205060441 (-1049) m e eq_refl Hv Hle) as H.
  pose proof (F2R_bounds 6032057205060441 (-1049)) as [B _].
  change (Zdigits2 (Z.pos 6032057205060441) - 1 + -1049)%Z with (-997)%Z in B.
  pose proof (bpow_le (-1000) (-997) ltac:(lia)). lra.
Qed.

End HalfAngle.

(** X19: the sidebar's size estimate and [calculateFootprint] agree on the
    half-width of the image: for a stored field of view between [1e-300]
    and [1e300] degrees, the tangent the estimate multiplies by twice the
    altitude is the very [halfH] that [calculateFootprint] gives its
    corners, [Math.tan(hfov * PI / 360)] and [Math.tan(hfov * PI / 180 / 2)]
    having the same floating-point argument; and the estimated height is
    three quarters of the estimated width. *)
Theorem footprint_estimate_half_width {host : Host} (settings : object)
    (hfov : float) :
  settings !! "customFOV" = Some hfov ->
  (1e-300 <=? hfov) = true -> (hfov <=? 1e300) = true ->
  exists halfH,
    map cx (cornersCam hfov) = [halfH; halfH; - halfH; - halfH] /\
    fst (footprint_estimate settings) =
    2 * default nan (settings !! "altitude") * halfH /\
    snd (footprint_estimate settings) = fst (footprint_estimate settings) * 0.75.
Proof.
  intros Efov Hlo Hhi.
  assert (H0 : (0 <=? hfov) = true) by (eapply leb_trans; [ | exact Hlo ]; reflexivity).
  assert (Ht : JS.truthy hfov = true).
  { apply pos_truthy. destruct (0 <? hfov) eqn:E; auto.
    destruct (leb_not_nan _ _ Hlo) as [_ N].
    apply ltb_false_leb in E; auto.
    pose proof (leb_trans _ _ _ Hlo E) as C. vm_compute in C. discriminate. }
  assert (HP : (1e-300 <=? hfov * JS.PI) = true).
  { eapply leb_trans;
      [ | apply (FloatProduct.mul_const_mono 1e-300 hfov JS.PI
                   7074237752028440 (-51) eq_refl ltac:(lia) eq_refl Hlo) ].
    reflexivity. }
  assert (HF : is_finite (hfov * JS.PI) = true).
  { apply (FloatDivision.between_finite _ (1e300 * JS.PI)).
    - eapply leb_trans; [ | exact HP ]. reflexivity.
    - now apply (FloatProduct.mul_const_mono hfov 1e300 JS.PI
                   7074237752028440 (-51) eq_refl ltac:(lia)).
    - reflexivity. }
  exists (Math_tan (hfov * JS.PI / 180 / 2)).
  split; [ reflexivity | ].
  unfold footprint_estimate. rewrite Efov. cbn [or_default fst snd]. rewrite Ht.
  rewrite (HalfAngle.div_180_half _ HF HP). split; reflexivity.
Qed.

Lemma footprint_estimate_half_width_witness :
  exists halfH,
    map cx (cornersCam (host := planar_host) 82.1) =
    [halfH; halfH; - halfH; - halfH] /\
    fst (footprint_estimate (host := planar_host)
           {[ "customFOV" := 82.1; "altitude" := 60 ]}) =
    2 * default nan
          (({[ "customFOV" := 82.1; "altitude" := 60 ]} : object) !! "altitude")
    * halfH /\
    snd (footprint_estimate (host := planar_host)
           {[ "customFOV" := 82.1; "altitude" := 60 ]}) =
    fst (footprint_estimate (host := planar_host)
           {[ "customFOV" := 82.1; "altitude" := 60 ]}) * 0.75.
Proof.
  apply (footprint_estimate_half_width (host := planar_host)
           {[ "customFOV" := 82.1; "altitude" := 60 ]} 82.1); reflexivity.
Defined.

(** ** formatTime: minutes and seconds of whole seconds *)

Module WholeSeconds.
Import SF Grid F64 FloatOrder Rounding FloatAddition MathRound MathRoundWhole
       HalfAngle.

Local Open Scope Z_scope.

(** The float of a positive integer below [2^53]. *)
Lemma float_of_Z_pos n :
  0 < n < 9007199254740992 ->
  exists m1 e1,
    e1 <= 0 /\ Z.pos m1 = n * 2 ^ (- e1) /\
    Prim2SF (float_of_Z n) = S754_finite false m1 e1.
Proof.
  intros Hn. destruct n as [|p|p]; try lia.
  destruct (binary_round_integer p ltac:(lia)) as (m1 & e1 & He & Em & Hv & E).
  exists m1, e1. repeat split; auto.
  unfold float_of_Z. cbn [binary_normalize]. rewrite E. now apply Prim2SF_SF2Prim.
Qed.

(** [binary_round] depends on the value it is given only. *)
Lemma binary_round_value m e m' e' :
  F2R m e = F2R m' e' ->
  binary_round prec emax false m e = binary_round prec emax false m' e'.
Proof.
  intros E.
  destruct (binary_round_rounded m e) as (m1 & e1 & R1 & ->).
  destruct (binary_round_rounded m' e') as (m2 & e2 & R2 & ->).
  rewrite E in R1. now destruct (rounded_unique _ _ _ _ _ R1 R2) as [-> ->].
Qed.

Lemma F2R_scaled_integer p n e :
  e <= 0 -> Z.pos p = n * 2 ^ (- e) -> F2R p e = IZR n.
Proof.
  intros He E. replace e with (- - e) by lia. now apply F2R_integer; [ | lia ].
Qed.

(** The remainder of whole seconds by 60 is exact. *)
Lemma remainder_whole n :
  0 < n < 9007199254740992 ->
  JSFormat.remainder (float_of_Z n) 60 = float_of_Z (n mod 60).
Proof.
  intros Hn. destruct (float_of_Z_pos n Hn) as (m1 & e1 & He & Em & E).
  unfold JSFormat.remainder. rewrite E.
  change (Prim2SF 60) with (S754_finite false 8444249301319680 (-47)).
  cbv iota beta. set (e := Z.min e1 (-47)).
  assert (He' : e <= 0) by lia.
  assert (EN : Z.pos m1 * 2 ^ (e1 - e) = n * 2 ^ (- e)).
  { rewrite Em, <- Z.mul_assoc, <- Z.pow_add_r by lia. f_equal. f_equal. lia. }
  assert (ED : 8444249301319680 * 2 ^ (-47 - e) = 60 * 2 ^ (- e)).
  { change 8444249301319680 with (60 * 2 ^ 47).
    rewrite <- Z.mul_assoc, <- Z.pow_add_r by lia. f_equal. f_equal. lia. }
  assert (Hp : 0 < 2 ^ (- e)) by (apply Z.pow_pos_nonneg; lia).
  change (Z.pos 8444249301319680) with 8444249301319680. rewrite EN, ED.
  rewrite Z.mul_mod_distr_r by lia.
  pose proof (Z.mod_pos_bound n 60 ltac:(lia)) as Hr.
  set (r0 := n mod 60) in *.
  destruct (Z.eq_dec r0 0) as [-> | Hne]; [ reflexivity | ].
  destruct (Z.eqb_spec (r0 * 2 ^ (- e)) 0) as [C | _]; [ nia | ].
  cbn [cond_Zopp]. unfold float_of_Z. f_equal.
  destruct (r0 * 2 ^ (- e)) as [|pr|pr] eqn:Er; try nia.
  destruct r0 as [|pr0|pr0] eqn:E0; try lia.
  cbn [binary_normalize]. apply binary_round_value.
  rewrite (F2R_scaled_integer pr (Z.pos pr0) e) by (lia || now rewrite Er).
  unfold F2R. change (bpow 0) with 1%R. ring.
Qed.

(** Rounding to nearest moves a number by half a unit at most. *)
Lemma round_nearest_even_near l m u :
  located l m u -> (IZR (round_nearest_even m l) <= u + / 2)%R.
Proof.
  destruct l as [|[]]; cbn [located round_nearest_even]; intros H;
    try destruct (Z.even m); try rewrite plus_IZR; lra.
Qed.

Lemma div_between a b j : 0 < b -> j * b <= a < (j + 1) * b -> a / b = j.
Proof.
  intros Hb H. symmetry. apply (Z.div_unique a b j (a - j * b)); lia.
Qed.

(** The floor of whole seconds divided by 60 is the integer quotient: the
    rounding of the division never reaches the next minute. *)
Lemma floor_div_60 n :
  0 < n < 9007199254740992 ->
  JSFormat.Math_floor (float_of_Z n / 60)%float = float_of_Z (n / 60).
Proof.
  intros Hn. destruct (float_of_Z_pos n Hn) as (m1 & e1 & He & Em & E).
  pose proof (FloatAxioms.div_spec (float_of_Z n) 60) as D. unfold SF64div in D.
  rewrite E in D.
  change (Prim2SF 60) with (S754_finite false 8444249301319680 (-47)) in D.
  destruct (SFdiv_rounded m1 e1 8444249301319680 (-47)) as (mq & eq & R & Eq).
  rewrite Eq in D. clear Eq.
  rewrite (F2R_scaled_integer m1 n e1 He Em) in R.
  rewrite (F2R_integer _ 60 47) in R by (reflexivity || lia).
  set (x := (IZR n / 60)%R) in *.
  pose proof (Z.div_mod n 60 ltac:(lia)) as Dn.
  pose proof (Z.mod_pos_bound n 60 ltac:(lia)) as Hr.
  set (j := n / 60) in *. set (r0 := n mod 60) in *.
  assert (Hj : 0 <= j) by (apply Z.div_pos; lia).
  assert (Xn : (x * 60 = IZR n)%R) by (unfold x; field).
  assert (Xlo : (IZR j <= x)%R).
  { assert (H : (60 * IZR j <= IZR n)%R)
      by (rewrite <- (mult_IZR 60); apply IZR_le; lia). lra. }
  assert (Xhi : (x <= IZR j + 59 / 60)%R).
  { assert (H : (IZR n <= 60 * IZR j + 59)%R)
      by (rewrite <- (mult_IZR 60), <- plus_IZR; apply IZR_le; lia). lra. }
  destruct (rounded_bounds _ _ _ R) as (B & _ & N).
  destruct R as (k & m & l & [Klo Khi] & -> & Hm & Hl & ->).
  (* the exponent of the quotient *)
  assert (Hk : -6 < k <= 48).
  { assert (X1 : (bpow (-6) < x)%R).
    { assert (E6 : (bpow (-6) * 64 = 1)%R).
      { change 64%R with (IZR (2 ^ 6)). rewrite <- bpow_IZR by lia.
        rewrite <- bpow_add. reflexivity. }
      assert (1 <= IZR n)%R by (apply IZR_le; lia). lra. }
    assert (X2 : (x < bpow 48)%R).
    { assert (E53 : bpow 53 = (32 * bpow 48)%R).
      { replace 53 with (5 + 48) by lia. rewrite bpow_add.
        rewrite (bpow_IZR 5) by lia. reflexivity. }
      rewrite (bpow_IZR 53) in E53 by lia.
      change (2 ^ 53) with 9007199254740992 in E53.
      assert (IZR n < 9007199254740992)%R by (apply IZR_lt; lia). lra. }
    assert (K1 : (bpow (-6) < bpow k)%R) by lra.
    assert (K2 : (bpow (k - 1) < bpow 48)%R) by lra.
    apply bpow_lt_inv in K1. apply bpow_lt_inv in K2. lia. }
  set (eq := fexp64 k) in *.
  assert (Heq : eq = k - 53) by (unfold eq, fexp64; lia).
  set (t := - eq). assert (Ht : 5 <= t <= 58) by lia.
  assert (HT : 32 <= 2 ^ t).
  { change 32 with (2 ^ 5). apply Z.pow_le_mono_r; lia. }
  assert (Es : scaled x eq = (x * IZR (2 ^ t))%R).
  { unfold scaled. rewrite <- bpow_IZR by lia.
    assert (Eb : (bpow t * bpow eq = 1)%R).
    { rewrite <- bpow_add. replace (t + eq) with 0 by lia. reflexivity. }
    pose proof (bpow_pos eq). apply Rmult_eq_reg_r with (bpow eq); [ | lra ].
    unfold Rdiv. rewrite Rmult_assoc, Rinv_l, Rmult_assoc, Eb by lra. ring. }
  rewrite Es in Hl. apply IZR_le in HT.
  set (T := IZR (2 ^ t)) in *.
  pose proof (located_cell _ _ _ Hl) as [C1 C2].
  pose proof (round_nearest_even_range m l) as Rg.
  pose proof (round_nearest_even_near _ _ _ Hl) as Near.
  set (mq := round_nearest_even m l) in *.
  assert (Lo : j * 2 ^ t <= mq).
  { assert (H : (IZR (j * 2 ^ t) < IZR (m + 1))%R).
    { rewrite mult_IZR, plus_IZR. fold T. nra. }
    apply lt_IZR in H. lia. }
  assert (Hi : mq < (j + 1) * 2 ^ t).
  { apply lt_IZR. rewrite mult_IZR, plus_IZR. fold T. nra. }
  specialize (N ltac:(lia)).
  assert (Pt : 0 < 2 ^ (t - 1)) by (apply Z.pow_pos_nonneg; lia).
  assert (Et : 2 ^ t = 2 * 2 ^ (t - 1)).
  { replace t with (Z.succ (t - 1)) at 1 by lia. now rewrite Z.pow_succ_r by lia. }
  unfold JSFormat.Math_floor. rewrite D.
  destruct (Z.eq_dec mq 9007199254740992) as [Ec | Hne].
  - rewrite Ec, finish_carry by lia.
    destruct (Z.leb_spec (eq + 1) 971); [ | lia ].
    destruct (Z.leb_spec 0 (eq + 1)); [ lia | ].
    cbn [cond_Zopp]. replace (- (eq + 1)) with (t - 1) by lia.
    change (Z.pos 4503599627370496) with 4503599627370496.
    rewrite (div_between 4503599627370496 (2 ^ (t - 1)) j) by lia.
    destruct (Z.eqb_spec j 0) as [-> | _]; reflexivity.
  - destruct mq as [|p|p] eqn:Emq; try lia. rewrite finish_small by lia.
    destruct (Z.leb_spec eq 971); [ | lia ].
    destruct (Z.leb_spec 0 eq); [ lia | ].
    cbn [cond_Zopp]. fold t.
    rewrite (div_between (Z.pos p) (2 ^ t) j) by lia.
    destruct (Z.eqb_spec j 0) as [-> | _]; reflexivity.
Qed.

End WholeSeconds.

(** X20: for a whole number of seconds [n] from 0 to below [2^53],
    [formatTime] prints exactly [n div 60] for the minutes and [n mod 60]
    for the seconds: rounding in [seconds / 60] never carries the minutes
    to the next one, and [seconds % 60] is exact.  The seconds are padded
    to two characters; the minutes are not folded into hours. *)
Theorem formatTime_whole_seconds (Number_toString : float -> string) (n : Z) :
  (0 <= n < 9007199254740992)%Z ->
  JSFormat.Math_floor (float_of_Z n / 60) = float_of_Z (n / 60) /\
  JSFormat.remainder (float_of_Z n) 60 = float_of_Z (n mod 60) /\
  formatTime Number_toString (float_of_Z n) =
  Number_toString (float_of_Z (n / 60)) +:+ ":" +:+
  JSFormat.padStart_0 (Number_toString (float_of_Z (n mod 60))) 2.
Proof.
  intros Hn.
  assert (H : JSFormat.Math_floor (float_of_Z n / 60) = float_of_Z (n / 60) /\
              JSFormat.remainder (float_of_Z n) 60 = float_of_Z (n mod 60)).
  { destruct (Z.eq_dec n 0%Z) as [-> | Hne]; [ split; reflexivity | ].
    split; [ apply WholeSeconds.floor_div_60 | apply WholeSeconds.remainder_whole ];
      lia. }
  destruct H as [H1 H2]. repeat split; auto.
  unfold formatTime. now rewrite H1, H2.
Qed.

Lemma formatTime_whole_seconds_witness :
  let show := fun x : float => if x <? 10 then "d" else "dd" in
  JSFormat.Math_floor (float_of_Z 3725 / 60) = float_of_Z (3725 / 60) /\
  JSFormat.remainder (float_of_Z 3725) 60 = float_of_Z (3725 mod 60) /\
  formatTime show (float_of_Z 3725) =
  show (float_of_Z (3725 / 60)) +:+ ":" +:+
  JSFormat.padStart_0 (show (float_of_Z (3725 mod 60))) 2.
Proof.
  apply (formatTime_whole_seconds
           (fun x : float => if x <? 10 then "d" else "dd") 3725).
  lia.
Defined.

(** ** The mission time as formatTime prints it *)

Module MissionClock.
Import SF Grid F64 FloatOrder Rounding FloatAddition MathRound MathRoundWhole
       HalfAngle WholeSeconds.

Local Open Scope Z_scope.

(** A float that is a rounding of the integer [n] is the float of [n]. *)
Lemma float_of_Z_rounded n m1 e1 (y : float) :
  0 < n -> rounded (IZR n) m1 e1 -> Prim2SF y = finish m1 e1 ->
  y = float_of_Z n.
Proof.
  intros Hn R Ey. apply Prim2SF_inj. rewrite Ey. unfold float_of_Z.
  destruct n as [|p|p]; try lia. cbn [binary_normalize].
  destruct (binary_round_rounded p 0) as (m2 & e2 & R2 & E2).
  assert (Ep : F2R p 0 = IZR (Z.pos p)).
  { unfold F2R. change (bpow 0) with 1%R. ring. }
  rewrite Ep in R2. destruct (rounded_unique _ _ _ _ _ R R2) as [-> ->].
  rewrite E2. symmetry. apply Prim2SF_SF2Prim. eapply finish_valid; eauto.
Qed.

Local Open Scope float_scope.

(** A result of [Math.round] between zero and [2^53], both excluded, is
    the float of an integer in that range. *)
Lemma Math_round_whole (y : float) :
  (0 <? JS.Math_round y) = true ->
  (JS.Math_round y <? 9007199254740992) = true ->
  exists n, (0 < n < 9007199254740992)%Z /\ JS.Math_round y = float_of_Z n.
Proof.
  intros Hpos Hlt.
  destruct (Prim2SF y) as [s|s| |s m e] eqn:Ey.
  - rewrite Math_round_id in Hpos by now rewrite Ey.
    rewrite FloatAxioms.ltb_spec, Ey in Hpos. now destruct s.
  - rewrite Math_round_id in Hpos, Hlt by now rewrite Ey.
    rewrite FloatAxioms.ltb_spec, Ey in Hpos, Hlt. now destruct s.
  - rewrite Math_round_id in Hpos by now rewrite Ey.
    rewrite FloatAxioms.ltb_spec, Ey in Hpos. discriminate.
  - destruct s.
    + (* a negative number is rounded to a number at or below zero *)
      exfalso. unfold JS.Math_round in Hpos. rewrite Ey in Hpos.
      destruct (Z.leb_spec 0 e) as [He | He].
      * rewrite FloatAxioms.ltb_spec, Ey in Hpos. discriminate.
      * pose proof (Prim2SF_valid y) as Hv. rewrite Ey in Hv.
        assert (Hm : (Z.pos m < 9007199254740992)%Z) by now apply (valid_canonical m e).
        pose proof (half_up_small true m (- e) Hm ltac:(lia)) as Hn.
        set (n := ((cond_Zopp true (Z.pos m) + 2 ^ (- e - 1)) / 2 ^ (- e))%Z) in *.
        assert (Hle : (n <= 0)%Z).
        { subst n. cbn [cond_Zopp].
          assert (P : (0 < 2 ^ (- e - 1))%Z) by (apply Z.pow_pos_nonneg; lia).
          assert (EH : (2 ^ (- e) = 2 * 2 ^ (- e - 1))%Z).
          { replace (- e)%Z with (Z.succ (- e - 1)) at 1 by lia.
            now rewrite Z.pow_succ_r by lia. }
          destruct (Z_le_gt_dec ((- Z.pos m + 2 ^ (- e - 1)) / 2 ^ (- e)) 0)
            as [|Hgt]; auto.
          pose proof (Z.mul_div_le (- Z.pos m + 2 ^ (- e - 1)) (2 ^ (- e))
                        ltac:(lia)). nia. }
        destruct n as [|p|p]; try lia; cbn [Z.eqb] in Hpos.
        -- discriminate.
        -- destruct (binary_round_integer p ltac:(lia)) as (m1 & e1 & _ & _ & V & E).
           rewrite FloatAxioms.ltb_spec in Hpos. cbn [binary_normalize] in Hpos.
           rewrite binary_round_opp, E in Hpos. cbn [SFopp negb] in Hpos.
           rewrite Prim2SF_SF2Prim in Hpos by exact V. discriminate.
    + destruct (Math_round_view y m e Ey) as (n & Hn & _ & [[_ E0] | (Pn & m1 & e1 & R & E)]).
      * rewrite E0 in Hpos. discriminate.
      * exists n. split; [ | eapply float_of_Z_rounded; eauto ].
        split; [ exact Pn | ].
        destruct (Z_lt_le_dec n 9007199254740992) as [|Hge]; auto. exfalso.
        rewrite FloatAxioms.ltb_spec, E in Hlt.
        change (Prim2SF 9007199254740992)
          with (S754_finite false 4503599627370496 1) in Hlt.
        destruct (valid_rounded 4503599627370496 1 eq_refl) as [R53 E53].
        rewrite <- E53 in Hlt.
        assert (Hle : SFleb (finish 4503599627370496 1) (finish m1 e1) = true).
        { apply (rounded_mono (F2R 4503599627370496 1) (IZR n)); auto.
          replace (F2R 4503599627370496 1) with (IZR 9007199254740992);
            [ now apply IZR_le | ].
          unfold F2R. rewrite (bpow_IZR 1) by lia. rewrite <- mult_IZR. reflexivity. }
        destruct (rounded_bounds _ _ _ R) as (B & Eb & _).
        destruct (finish_ord m1 e1 B Eb) as [N1 _].
        assert (N53 : sf_is_nan (finish 4503599627370496 1) = false)
          by now rewrite E53.
        apply SFleb_ord in Hle; [ | exact N53 | exact N1 ].
        apply SFltb_ord in Hlt; [ | exact N1 | exact N53 ].
        contradiction.
Qed.

End MissionClock.

(** X21: the clock of a computed mission time is exact: whenever
    [calculateMissionTime] returns a time above zero and below [2^53]
    seconds, that time is a whole number [n] of seconds and [formatTime]
    prints [n div 60] for its minutes and [n mod 60], padded to two
    characters, for its seconds. *)
Theorem formatTime_of_mission_time (Number_toString : float -> string)
    (OVERHEAD totalDistance speed : float) :
  let missionTime := calculateMissionTime OVERHEAD totalDistance speed in
  (0 <? speed) = true ->
  (0 <? missionTime) = true -> (missionTime <? 9007199254740992) = true ->
  exists n : Z,
    (0 < n < 9007199254740992)%Z /\ missionTime = float_of_Z n /\
    formatTime Number_toString missionTime =
    Number_toString (float_of_Z (n / 60)) +:+ ":" +:+
    JSFormat.padStart_0 (Number_toString (float_of_Z (n mod 60))) 2.
Proof.
  intros missionTime Hs Hpos Hlt. subst missionTime.
  rewrite calculateMissionTime_transit in * by assumption.
  destruct (MissionClock.Math_round_whole _ Hpos Hlt) as (n & Hn & E).
  exists n. split; [ exact Hn | split; [ exact E | ] ].
  rewrite E. unfold formatTime.
  rewrite WholeSeconds.floor_div_60, WholeSeconds.remainder_whole by lia.
  reflexivity.
Qed.

Lemma formatTime_of_mission_time_witness :
  let show := fun x : float => if x <? 10 then "d" else "dd" in
  exists n : Z,
    (0 < n < 9007199254740992)%Z /\
    calculateMissionTime 30 1000 3 = float_of_Z n /\
    formatTime show (calculateMissionTime 30 1000 3) =
    show (float_of_Z (n / 60)) +:+ ":" +:+
    JSFormat.padStart_0 (show (float_of_Z (n mod 60))) 2.
Proof.
  apply (formatTime_of_mission_time
           (fun x : float => if x <? 10 then "d" else "dd") 30 1000 3);
    reflexivity.
Defined.

(** ** One more waypoint *)

(** One more waypoint adds one leg at the end. *)
Lemma leg_distances_snoc {host : Host} (waypoints : list waypoint) (a w : waypoint) :
  exists d,
    leg_distances ((a :: waypoints) ++ [w]) = leg_distances (a :: waypoints) ++ [d].
Proof.
  revert a. induction waypoints as [|b rest IH]; intros a.
  - eexists. reflexivity.
  - destruct (IH b) as [d E]. exists d.
    change (leg_distances ((a :: b :: rest) ++ [w]))
      with (calculateDistance a b :: leg_distances ((b :: rest) ++ [w])).
    now rewrite E.
Qed.

(** X22: appending a waypoint to a path never shortens the mission: when
    no leg of the longer path has a negative or NaN distance, the total
    distance of the path is at or below that of the longer path and, if the
    latter is finite, so is the estimated mission time, for every overhead
    at or above zero and every speed above zero. *)
Theorem calculateMissionDistance_extend {host : Host} (waypoints : list waypoint)
    (w : waypoint) :
  Forall (fun d => (0 <=? d) = true) (leg_distances (waypoints ++ [w])) ->
  let shorter := calculateMissionDistance waypoints in
  let longer := calculateMissionDistance (waypoints ++ [w]) in
  (0 <=? shorter) = true /\ (shorter <=? longer) = true /\
  (forall OVERHEAD speed,
      is_finite longer = true -> (0 <=? OVERHEAD) = true -> (0 <? speed) = true ->
      (calculateMissionTime OVERHEAD shorter speed <=?
       calculateMissionTime OVERHEAD longer speed) = true).
Proof.
  intros Hlegs shorter longer.
  assert (H : (0 <=? shorter) = true /\ (shorter <=? longer) = true).
  { subst shorter longer. destruct waypoints as [|a [|b rest]].
    - split; reflexivity.
    - split; [ reflexivity | ].
      cbn in Hlegs. inversion Hlegs as [|? ? Hd _]; subst.
      unfold calculateMissionDistance. cbn.
      now destruct (FloatAddition.add_nonneg 0 _ eq_refl Hd).
    - destruct (leg_distances_snoc (b :: rest) a w) as [d E]. rewrite E in Hlegs.
      apply Forall_app in Hlegs as [Hl Hd]. inversion Hd as [|? ? Hd' _]; subst.
      unfold calculateMissionDistance.
      rewrite E, length_app. cbn [length].
      replace (S (S (length rest)) + 1 <? 2)%nat with false
        by (symmetry; apply Nat.ltb_ge; lia).
      change (S (S (length rest)) <? 2)%nat with false. cbv iota.
      rewrite fold_left_app. cbn [fold_left].
      destruct (FloatAddition.sum_ge _ 0 eq_refl Hl) as [H0 _]. cbv zeta in H0.
      split; [ exact H0 | ].
      now destruct (FloatAddition.add_nonneg _ _ H0 Hd'). }
  destruct H as [H0 Hle]. repeat split; auto.
  intros OVERHEAD speed Hfin HO Hs.
  rewrite !calculateMissionTime_transit by assumption.
  destruct (FloatQuotient.div_mono_l shorter longer speed H0 Hle Hfin Hs) as [Q0 Q].
  apply MathRound.Math_round_mono.
  - destruct (FloatAddition.add_nonneg _ _ Q0 HO) as [H1 _].
    eapply leb_trans; eauto.
  - now apply FloatAddition.add_mono_l.
Qed.

Lemma calculateMissionDistance_extend_witness :
  let shorter :=
    calculateMissionDistance (host := planar_host) [Waypoint 0 0; Waypoint 0 1] in
  let longer :=
    calculateMissionDistance (host := planar_host)
      ([Waypoint 0 0; Waypoint 0 1] ++ [Waypoint 0 3]) in
  (0 <=? shorter) = true /\ (shorter <=? longer) = true /\
  (forall OVERHEAD speed,
      is_finite longer = true -> (0 <=? OVERHEAD) = true -> (0 <? speed) = true ->
      (calculateMissionTime OVERHEAD shorter speed <=?
       calculateMissionTime OVERHEAD longer speed) = true).
Proof.
  apply (calculateMissionDistance_extend (host := planar_host)
           [Waypoint 0 0; Waypoint 0 1] (Waypoint 0 3)).
  repeat constructor.
Defined.

(** ** calculateFootprint: the sign of the corner distances *)

Module FloatRoot.
Import SF F64 FloatSign FloatMono.

Lemma mul_self_sign_clear (a : float) : sign_clear (a * a).
Proof.
  unfold sign_clear. rewrite get_sign_spec, FloatAxioms.mul_spec. unfold SF64mul.
  destruct (SFmul_sign (Prim2SF a) (Prim2SF a)) as [-> | [_ ->]]; [ reflexivity | ].
  apply xorb_nilpotent.
Qed.

Lemma binary_round_sign s m e :
  binary_round prec emax s m e = S754_nan \/
  sf_sign (binary_round prec emax s m e) = s.
Proof.
  unfold binary_round. destruct (shl_align m e _) as [mz ez].
  destruct (binary_round_aux_sign s (Z.pos mz) ez loc_Exact) as [-> | [_ H]]; auto.
Qed.

Lemma add_sign_clear (a b : float) :
  sign_clear a -> sign_clear b -> sign_clear (a + b).
Proof.
  unfold sign_clear. rewrite !get_sign_spec, FloatAxioms.add_spec. unfold SF64add.
  destruct (Prim2SF a) as [sa|sa| |sa ma ea], (Prim2SF b) as [sb|sb| |sb mb eb];
    cbn [sf_sign]; intros Ha Hb; try subst sa; try subst sb; try reflexivity.
  cbn [SFadd cond_Zopp].
  change (Z.pos (fst (shl_align ma ea (Z.min ea eb))) +
          Z.pos (fst (shl_align mb eb (Z.min ea eb))))%Z
    with (Z.pos (fst (shl_align ma ea (Z.min ea eb)) +
                 fst (shl_align mb eb (Z.min ea eb)))).
  cbn [binary_normalize].
  now destruct (binary_round_sign false
                  (fst (shl_align ma ea (Z.min ea eb)) +
                   fst (shl_align mb eb (Z.min ea eb))) (Z.min ea eb)) as [-> | ->].
Qed.

Lemma sqrt_sign_clear (a : float) : sign_clear a -> sign_clear (PrimFloat.sqrt a).
Proof.
  unfold sign_clear. rewrite !get_sign_spec, FloatAxioms.sqrt_spec. unfold SF64sqrt.
  destruct (Prim2SF a) as [s|s| |s m e]; cbn [sf_sign]; intros Hs; try subst s;
    try reflexivity.
  cbn [SFsqrt].
  destruct (SFsqrt_core_binary prec emax (Z.pos m) e) as [[mz ez] lz].
  now destruct (binary_round_aux_sign false mz ez lz) as [-> | [_ ->]].
Qed.

(** A value with its sign bit clear is NaN or at or above zero. *)
Lemma sign_clear_nonneg (d : float) :
  sign_clear d -> is_nan d = true \/ (0 <=? d) = true.
Proof.
  unfold sign_clear. rewrite get_sign_spec, is_nan_spec, FloatAxioms.leb_spec, Prim2SF_zero.
  destruct (Prim2SF d) as [s|s| |s m e]; cbn [sf_sign]; intros Hs; try subst s; auto.
Qed.

End FloatRoot.

(** The ground distance of a corner has its sign bit clear when the
    altitude has. *)
Lemma corner_ground_sign_clear {host : Host} (altitude pitchRad : float)
    (p : camera_point) :
  SF.sign_clear altitude -> SF.sign_clear (fst (corner_ground altitude pitchRad p)).
Proof.
  intros Ha. unfold corner_ground. cbv zeta.
  assert (Hd : forall dx dy, SF.sign_clear (PrimFloat.sqrt (dx * dx + dy * dy))).
  { intros dx dy.
    apply FloatRoot.sqrt_sign_clear, FloatRoot.add_sign_clear;
      apply FloatRoot.mul_self_sign_clear. }
  destruct (_ <=? _); cbn [fst]; [ apply Hd | ].
  destruct (_ <? _); [ | apply Hd ].
  apply mul_sign_clear; [ exact Ha | reflexivity ].
Qed.

(** X23: for an altitude above zero, none of the four distances that
    [calculateFootprint] hands to [turf.destination] is negative: each is
    NaN or at or above zero, whatever the field of view, the gimbal pitch
    and the host's trigonometric functions. *)
Theorem corner_grounds_never_negative {host : Host}
    (altitude hfov gimbalPitch : float) :
  (0 <? altitude) = true ->
  Forall (fun d => is_nan d = true \/ (0 <=? d) = true)
         (map fst (corner_grounds altitude hfov gimbalPitch)).
Proof.
  intros Ha. unfold corner_grounds. cbv zeta. rewrite List.map_map.
  apply List.Forall_map, List.Forall_forall. intros p _.
  apply FloatRoot.sign_clear_nonneg, corner_ground_sign_clear.
  now apply pos_sign_clear.
Qed.

Lemma corner_grounds_never_negative_witness :
  Forall (fun d => is_nan d = true \/ (0 <=? d) = true)
         (map fst (corner_grounds (host := planar_host) 60 82.1 (-90))).
Proof.
  apply (corner_grounds_never_negative (host := planar_host) 60 82.1 (-90)).
  reflexivity.
Defined.

(** ** formatDistance: the figure in front of the unit *)

(** X24: for a distance at or above zero, the figure [formatDistance]
    prints stays on its side of the unit change.  In metric units a
    distance below 1000 is printed in metres as a whole number from 0 to
    1000 (1000 itself for distances that round up to it), and a finite
    distance of 1000 or more in kilometres as a number at or above 1; in
    every other unit system the same holds for feet and miles around
    5280. *)
Theorem formatDistance_figure (Number_toString Number_toFixed_2 : float -> string)
    (METERS_TO_FEET meters : float) (units : string) :
  let text := formatDistance Number_toString Number_toFixed_2 METERS_TO_FEET
                             meters units in
  let figure := if String.eqb units "metric" then meters
                else meters * METERS_TO_FEET in
  let limit := if String.eqb units "metric" then 1000 else 5280 in
  let small := if String.eqb units "metric" then " m" else " ft" in
  let large := if String.eqb units "metric" then " km" else " mi" in
  (0 <=? figure) = true ->
  ((figure <? limit) = true ->
   text = Number_toString (JS.Math_round figure) +:+ small /\
   (0 <=? JS.Math_round figure) = true /\
   (JS.Math_round figure <=? limit) = true /\
   JS.Math_round (JS.Math_round figure) = JS.Math_round figure) /\
  ((limit <=? figure) = true -> is_finite figure = true ->
   text = Number_toFixed_2 (figure / limit) +:+ large /\
   (1 <=? figure / limit) = true).
Proof.
  intros text figure limit small large H0.
  subst text. unfold formatDistance.
  destruct (String.eqb units "metric"); subst figure limit small large; cbv beta.
  - split.
    + intros Hlt. rewrite (ltb_leb_false _ _ Hlt).
      destruct (MathRound.Math_round_mono meters 1000 H0 (ltb_leb _ _ Hlt))
        as [R0 R1].
      repeat split; auto. apply MathRoundWhole.Math_round_idempotent.
    + intros Hge Hfin. rewrite Hge. split; [ reflexivity | ].
      now destruct (FloatQuotient.div_mono_l 1000 meters 1000 eq_refl Hge Hfin eq_refl).
  - split.
    + intros Hlt. rewrite (ltb_leb_false _ _ Hlt).
      destruct (MathRound.Math_round_mono _ 5280 H0 (ltb_leb _ _ Hlt))
        as [R0 R1].
      repeat split; auto. apply MathRoundWhole.Math_round_idempotent.
    + intros Hge Hfin. rewrite Hge. split; [ reflexivity | ].
      now destruct (FloatQuotient.div_mono_l 5280 _ 5280 eq_refl Hge Hfin eq_refl).
Qed.

Lemma formatDistance_figure_witness :
  let show := fun x : float => if x <? 1000 then "below" else "1000" in
  ((999.5 <? 1000) = true ->
   formatDistance show show 3.28084 999.5 "metric" =
   show (JS.Math_round 999.5) +:+ " m" /\
   (0 <=? JS.Math_round 999.5) = true /\
   (JS.Math_round 999.5 <=? 1000) = true /\
   JS.Math_round (JS.Math_round 999.5) = JS.Math_round 999.5) /\
  ((1000 <=? 999.5) = true -> is_finite 999.5 = true ->
   formatDistance show show 3.28084 999.5 "metric" =
   show (999.5 / 1000) +:+ " km" /\
   (1 <=? 999.5 / 1000) = true).
Proof.
  apply (formatDistance_figure
           (fun x : float => if x <? 1000 then "below" else "1000")
           (fun x : float => if x <? 1000 then "below" else "1000")
           3.28084 999.5 "metric").
  reflexivity.
Defined.

(** ** calculateMaxSpeed: longer legs *)

(** On values at or above zero, [Math.max(0, q)] keeps the order. *)
Lemma Math_max_0_mono (q1 q2 : float) :
  (0 <=? q1) = true -> (q1 <=? q2) = true ->
  (JS.Math_max 0 q1 <=? JS.Math_max 0 q2) = true.
Proof.
  intros H0 Hle.
  assert (H2 : (0 <=? q2) = true) by (eapply leb_trans; eauto).
  destruct (leb_not_nan _ _ Hle) as [N1 N2].
  unfold JS.Math_max. change (is_nan 0) with false. rewrite N1, N2. cbn [orb].
  rewrite (leb_ltb_false _ _ H0), (leb_ltb_false _ _ H2).
  change (JS.is_neg_zero 0) with false. cbv iota.
  destruct (0 <? q1) eqn:E1.
  - destruct (0 <? q2) eqn:E2; [ exact Hle | ].
    apply ltb_false_leb in E2; auto.
    pose proof (leb_trans _ _ _ Hle E2) as C. apply leb_ltb_false in C. congruence.
  - destruct (0 <? q2); [ exact H2 | reflexivity ].
Qed.

Lemma leg_distances_nil {host : Host} (waypoints : list waypoint) :
  leg_distances waypoints = [] <-> (length waypoints < 2)%nat.
Proof.
  destruct waypoints as [|a [|b rest]]; cbn; split; intros H; try reflexivity;
    try lia; discriminate.
Qed.

(** X25: moving the waypoints further apart never lowers the maximum
    speed: for two paths with as many legs, when each leg of the first has
    a distance at or above zero and at or below the finite distance of the
    same leg of the second, the [maxSpeed] of the first is at or below the
    [maxSpeed] of the second, for every photo interval. *)
Theorem calculateMaxSpeed_monotone_legs {host : Host}
    (waypoints1 waypoints2 : list waypoint) (photoInterval : float) :
  Forall2 (fun d1 d2 =>
             (0 <=? d1) = true /\ (d1 <=? d2) = true /\ is_finite d2 = true)
          (leg_distances waypoints1) (leg_distances waypoints2) ->
  (maxSpeed (calculateMaxSpeed (Some waypoints1) (Some photoInterval)) <=?
   maxSpeed (calculateMaxSpeed (Some waypoints2) (Some photoInterval))) = true.
Proof.
  intros Hlegs.
  destruct (0 <? photoInterval) eqn:Hp.
  2: { assert (Hr : JS.truthy photoInterval = false \/ (photoInterval <=? 0) = true).
       { destruct (proj1 (orb_true_iff _ _) (not_pos_rejected _ Hp)) as [H | H];
           [ left; now apply negb_true_iff | now right ]. }
       rewrite !calculateMaxSpeed_invalid; [ reflexivity | now right | now right ]. }
  destruct (le_lt_dec 2 (length waypoints1)) as [L1 | L1].
  2: { assert (L2 : (length waypoints2 < 2)%nat).
       { apply leg_distances_nil. apply leg_distances_nil in L1.
         rewrite L1 in Hlegs. now inversion Hlegs. }
       rewrite !calculateMaxSpeed_invalid; [ reflexivity | now left | now left ]. }
  assert (L2 : (2 <= length waypoints2)%nat).
  { destruct (le_lt_dec 2 (length waypoints2)) as [|L2]; auto.
    apply leg_distances_nil in L2. rewrite L2 in Hlegs.
    pose proof (leg_distances_nonempty _ L1). inversion Hlegs. congruence. }
  rewrite !calculateMaxSpeed_unfold by assumption. cbn [maxSpeed].
  assert (N1 : Forall (fun d => is_nan d = false) (leg_distances waypoints1)).
  { apply (Forall2_Forall_l _ _ _ _ Hlegs), List.Forall_forall.
    intros d2 _ d1 (H0 & _). apply (leb_not_nan _ _ H0). }
  assert (N2 : Forall (fun d => is_nan d = false) (leg_distances waypoints2)).
  { apply (Forall2_Forall_r _ _ _ _ Hlegs), List.Forall_forall.
    intros d1 _ d2 (_ & Hle & _). apply (leb_not_nan _ _ Hle). }
  destruct (Math_min_spec _ (leg_distances_nonempty _ L1) N1) as [In1 Le1].
  destruct (Math_min_spec _ (leg_distances_nonempty _ L2) N2) as [In2 _].
  set (m1 := JS.Math_min (leg_distances waypoints1)) in *.
  set (m2 := JS.Math_min (leg_distances waypoints2)) in *.
  (* the shortest leg of the second path has a counterpart in the first *)
  apply list_elem_of_In, list_elem_of_lookup in In2 as [i Ei].
  destruct (Forall2_lookup_r _ _ _ _ _ Hlegs Ei) as (d1 & Ed & H0 & Hle & Hfin).
  assert (Hm : (m1 <=? m2) = true).
  { eapply leb_trans; [ | exact Hle ].
    rewrite List.Forall_forall in Le1. apply Le1.
    apply list_elem_of_In. eapply list_elem_of_lookup_2; eauto. }
  assert (H1 : (0 <=? m1) = true).
  { apply list_elem_of_In, list_elem_of_lookup in In1 as [j Ej].
    destruct (Forall2_lookup_l _ _ _ _ _ Hlegs Ej) as (d2 & _ & H & _). exact H. }
  destruct (FloatQuotient.div_mono_l m1 m2 photoInterval H1 Hm Hfin Hp) as [Q0 Q].
  now apply Math_max_0_mono.
Qed.

Lemma calculateMaxSpeed_monotone_legs_witness :
  (maxSpeed (calculateMaxSpeed (host := planar_host)
               (Some [Waypoint 0 0; Waypoint 0 1; Waypoint 0 3]) (Some 2)) <=?
   maxSpeed (calculateMaxSpeed (host := planar_host)
               (Some [Waypoint 0 0; Waypoint 0 2; Waypoint 0 5]) (Some 2))) = true.
Proof.
  apply (calculateMaxSpeed_monotone_legs (host := planar_host)
           [Waypoint 0 0; Waypoint 0 1; Waypoint 0 3]
           [Waypoint 0 0; Waypoint 0 2; Waypoint 0 5] 2).
  repeat constructor.
Defined.
